(** * The Acadian variant growth-and-yield engine (acd7): stand and tree model

    A shallow embedding of [acdR/src/tree.cpp] and [acdR/src/stand.cpp].

    Numbers.  The C++ code computes on [double]; here a [double] is an exact
    rational ([Q]), compared with [Qcompare] and equated with [==].  Rounding,
    overflow, infinities and NaN are therefore outside the model: every
    statement below is about the arithmetic the code writes down, carried out
    exactly.  The functions of [<math.h>] that leave the rationals ([exp],
    [log], [sqrt], [pow]) are operations of the class [Libm]; a statement that
    needs one of their properties (positivity of [exp], say) names it as a
    hypothesis.

    Containers.  [std::vector<TREE>] is a [list TREE], read with [!!] and
    written with [<[i:=t]>]; [std::unordered_map<int,double>] is an
    association list in insertion order (C++ leaves the iteration order
    unspecified; nothing proved here depends on it).  [unsigned long] is a
    [Z] reduced modulo [2^64] where the code can wrap it. *)

From Stdlib Require Import QArith Qround Qpower Lqa ZArith Lia String Permutation Sorted.
From stdpp Require Import base list.

Local Open Scope Q_scope.

(** ** Numeric preliminaries *)

Class Libm : Type := {
  exp : Q -> Q;
  log : Q -> Q;
  sqrt : Q -> Q;
  pow : Q -> Q -> Q
}.

(** [std::max] on doubles: [max(a,b)] is [(a < b) ? b : a]. *)
Definition fmax (a b : Q) : Q := match a ?= b with Lt => b | _ => a end.

(** The comparisons of the source as booleans. *)
Definition Qltb (a b : Q) : bool := match a ?= b with Lt => true | _ => false end.
Definition Qleb (a b : Q) : bool := match a ?= b with Gt => false | _ => true end.
Definition Qeqb (a b : Q) : bool := match a ?= b with Eq => true | _ => false end.

(** Sum of a list of rationals. *)
Definition Qsum (l : list Q) : Q := foldr Qplus 0 l.

(** [std::trunc]: rounding toward zero. *)
Definition trunc (q : Q) : Z := if Qltb q 0 then Qceiling q else Qfloor q.

(** Conversions to [unsigned long] and to [int]. *)
Definition to_ulong (z : Z) : Z := (z mod 2 ^ 64)%Z.
Definition to_int (z : Z) : Z := ((z + 2 ^ 31) mod 2 ^ 32 - 2 ^ 31)%Z.

(** [std::min] on doubles: [min(a,b)] is [(b < a) ? b : a]; [std::abs]. *)
Definition fmin (a b : Q) : Q := match b ?= a with Lt => b | _ => a end.
Definition fabs (a : Q) : Q := if Qltb a 0 then - a else a.

Module Tree.

Record CROWN_PARMS : Type := mkCROWN_PARMS { a1 : Q; a2 : Q }.

Record TREE : Type := mkTREE {
  plot_id : Z;
  tree_id : Z;
  expand_tree_id : Z;
  spp : Z;
  softwood : bool;
  sg : Q;
  shade : Q;
  dbh : Q;
  ht : Q;
  tph : Q;
  cr : Q;
  Form : Z;
  Risk : Z;
  ba : Q;
  bal : Q;
  bal_hw : Q;
  bal_sw : Q;
  mcw : Q;
  lcw : Q;
  mca : Q;
  hcb : Q;
  _ddbh : Q;
  _dht : Q;
  _dhcb : Q;
  _dtph : Q;
  _p_survival : Q;
  mcw_p : CROWN_PARMS;
  lcw_p : CROWN_PARMS;
  dhcb_p : list Q;
  mort_beta : list Q
}.

Definition set_expand_tree_id (v : Z) (t : TREE) : TREE :=
  mkTREE (plot_id t) (tree_id t) v (spp t) (softwood t) (sg t) (shade t) (dbh t) (ht t)
    (tph t) (cr t) (Form t) (Risk t) (ba t) (bal t) (bal_hw t) (bal_sw t) (mcw t) (lcw t)
    (mca t) (hcb t) (_ddbh t) (_dht t) (_dhcb t) (_dtph t) (_p_survival t) (mcw_p t)
    (lcw_p t) (dhcb_p t) (mort_beta t).

Definition set_dbh (v : Q) (t : TREE) : TREE :=
  mkTREE (plot_id t) (tree_id t) (expand_tree_id t) (spp t) (softwood t) (sg t) (shade t) v
    (ht t) (tph t) (cr t) (Form t) (Risk t) (ba t) (bal t) (bal_hw t) (bal_sw t) (mcw t)
    (lcw t) (mca t) (hcb t) (_ddbh t) (_dht t) (_dhcb t) (_dtph t) (_p_survival t) (mcw_p t)
    (lcw_p t) (dhcb_p t) (mort_beta t).

Definition set_ht (v : Q) (t : TREE) : TREE :=
  mkTREE (plot_id t) (tree_id t) (expand_tree_id t) (spp t) (softwood t) (sg t) (shade t)
    (dbh t) v (tph t) (cr t) (Form t) (Risk t) (ba t) (bal t) (bal_hw t) (bal_sw t) (mcw t)
    (lcw t) (mca t) (hcb t) (_ddbh t) (_dht t) (_dhcb t) (_dtph t) (_p_survival t) (mcw_p t)
    (lcw_p t) (dhcb_p t) (mort_beta t).

Definition set_tph (v : Q) (t : TREE) : TREE :=
  mkTREE (plot_id t) (tree_id t) (expand_tree_id t) (spp t) (softwood t) (sg t) (shade t)
    (dbh t) (ht t) v (cr t) (Form t) (Risk t) (ba t) (bal t) (bal_hw t) (bal_sw t) (mcw t)
    (lcw t) (mca t) (hcb t) (_ddbh t) (_dht t) (_dhcb t) (_dtph t) (_p_survival t) (mcw_p t)
    (lcw_p t) (dhcb_p t) (mort_beta t).

Definition set_cr (v : Q) (t : TREE) : TREE :=
  mkTREE (plot_id t) (tree_id t) (expand_tree_id t) (spp t) (softwood t) (sg t) (shade t)
    (dbh t) (ht t) (tph t) v (Form t) (Risk t) (ba t) (bal t) (bal_hw t) (bal_sw t) (mcw t)
    (lcw t) (mca t) (hcb t) (_ddbh t) (_dht t) (_dhcb t) (_dtph t) (_p_survival t) (mcw_p t)
    (lcw_p t) (dhcb_p t) (mort_beta t).

Definition set_ba (v : Q) (t : TREE) : TREE :=
  mkTREE (plot_id t) (tree_id t) (expand_tree_id t) (spp t) (softwood t) (sg t) (shade t)
    (dbh t) (ht t) (tph t) (cr t) (Form t) (Risk t) v (bal t) (bal_hw t) (bal_sw t) (mcw t)
    (lcw t) (mca t) (hcb t) (_ddbh t) (_dht t) (_dhcb t) (_dtph t) (_p_survival t) (mcw_p t)
    (lcw_p t) (dhcb_p t) (mort_beta t).

Definition set_bal (v : Q) (t : TREE) : TREE :=
  mkTREE (plot_id t) (tree_id t) (expand_tree_id t) (spp t) (softwood t) (sg t) (shade t)
    (dbh t) (ht t) (tph t) (cr t) (Form t) (Risk t) (ba t) v (bal_hw t) (bal_sw t) (mcw t)
    (lcw t) (mca t) (hcb t) (_ddbh t) (_dht t) (_dhcb t) (_dtph t) (_p_survival t) (mcw_p t)
    (lcw_p t) (dhcb_p t) (mort_beta t).

Definition set_bal_hw (v : Q) (t : TREE) : TREE :=
  mkTREE (plot_id t) (tree_id t) (expand_tree_id t) (spp t) (softwood t) (sg t) (shade t)
    (dbh t) (ht t) (tph t) (cr t) (Form t) (Risk t) (ba t) (bal t) v (bal_sw t) (mcw t)
    (lcw t) (mca t) (hcb t) (_ddbh t) (_dht t) (_dhcb t) (_dtph t) (_p_survival t) (mcw_p t)
    (lcw_p t) (dhcb_p t) (mort_beta t).

Definition set_bal_sw (v : Q) (t : TREE) : TREE :=
  mkTREE (plot_id t) (tree_id t) (expand_tree_id t) (spp t) (softwood t) (sg t) (shade t)
    (dbh t) (ht t) (tph t) (cr t) (Form t) (Risk t) (ba t) (bal t) (bal_hw t) v (mcw t)
    (lcw t) (mca t) (hcb t) (_ddbh t) (_dht t) (_dhcb t) (_dtph t) (_p_survival t) (mcw_p t)
    (lcw_p t) (dhcb_p t) (mort_beta t).

Definition set_mcw (v : Q) (t : TREE) : TREE :=
  mkTREE (plot_id t) (tree_id t) (expand_tree_id t) (spp t) (softwood t) (sg t) (shade t)
    (dbh t) (ht t) (tph t) (cr t) (Form t) (Risk t) (ba t) (bal t) (bal_hw t) (bal_sw t) v
    (lcw t) (mca t) (hcb t) (_ddbh t) (_dht t) (_dhcb t) (_dtph t) (_p_survival t) (mcw_p t)
    (lcw_p t) (dhcb_p t) (mort_beta t).

Definition set_lcw (v : Q) (t : TREE) : TREE :=
  mkTREE (plot_id t) (tree_id t) (expand_tree_id t) (spp t) (softwood t) (sg t) (shade t)
    (dbh t) (ht t) (tph t) (cr t) (Form t) (Risk t) (ba t) (bal t) (bal_hw t) (bal_sw t)
    (mcw t) v (mca t) (hcb t) (_ddbh t) (_dht t) (_dhcb t) (_dtph t) (_p_survival t)
    (mcw_p t) (lcw_p t) (dhcb_p t) (mort_beta t).

Definition set_mca (v : Q) (t : TREE) : TREE :=
  mkTREE (plot_id t) (tree_id t) (expand_tree_id t) (spp t) (softwood t) (sg t) (shade t)
    (dbh t) (ht t) (tph t) (cr t) (Form t) (Risk t) (ba t) (bal t) (bal_hw t) (bal_sw t)
    (mcw t) (lcw t) v (hcb t) (_ddbh t) (_dht t) (_dhcb t) (_dtph t) (_p_survival t)
    (mcw_p t) (lcw_p t) (dhcb_p t) (mort_beta t).

Definition set_hcb (v : Q) (t : TREE) : TREE :=
  mkTREE (plot_id t) (tree_id t) (expand_tree_id t) (spp t) (softwood t) (sg t) (shade t)
    (dbh t) (ht t) (tph t) (cr t) (Form t) (Risk t) (ba t) (bal t) (bal_hw t) (bal_sw t)
    (mcw t) (lcw t) (mca t) v (_ddbh t) (_dht t) (_dhcb t) (_dtph t) (_p_survival t)
    (mcw_p t) (lcw_p t) (dhcb_p t) (mort_beta t).

Definition set__ddbh (v : Q) (t : TREE) : TREE :=
  mkTREE (plot_id t) (tree_id t) (expand_tree_id t) (spp t) (softwood t) (sg t) (shade t)
    (dbh t) (ht t) (tph t) (cr t) (Form t) (Risk t) (ba t) (bal t) (bal_hw t) (bal_sw t)
    (mcw t) (lcw t) (mca t) (hcb t) v (_dht t) (_dhcb t) (_dtph t) (_p_survival t) (mcw_p t)
    (lcw_p t) (dhcb_p t) (mort_beta t).

Definition set__dht (v : Q) (t : TREE) : TREE :=
  mkTREE (plot_id t) (tree_id t) (expand_tree_id t) (spp t) (softwood t) (sg t) (shade t)
    (dbh t) (ht t) (tph t) (cr t) (Form t) (Risk t) (ba t) (bal t) (bal_hw t) (bal_sw t)
    (mcw t) (lcw t) (mca t) (hcb t) (_ddbh t) v (_dhcb t) (_dtph t) (_p_survival t)
    (mcw_p t) (lcw_p t) (dhcb_p t) (mort_beta t).

Definition set__dhcb (v : Q) (t : TREE) : TREE :=
  mkTREE (plot_id t) (tree_id t) (expand_tree_id t) (spp t) (softwood t) (sg t) (shade t)
    (dbh t) (ht t) (tph t) (cr t) (Form t) (Risk t) (ba t) (bal t) (bal_hw t) (bal_sw t)
    (mcw t) (lcw t) (mca t) (hcb t) (_ddbh t) (_dht t) v (_dtph t) (_p_survival t) (mcw_p t)
    (lcw_p t) (dhcb_p t) (mort_beta t).

Definition set__dtph (v : Q) (t : TREE) : TREE :=
  mkTREE (plot_id t) (tree_id t) (expand_tree_id t) (spp t) (softwood t) (sg t) (shade t)
    (dbh t) (ht t) (tph t) (cr t) (Form t) (Risk t) (ba t) (bal t) (bal_hw t) (bal_sw t)
    (mcw t) (lcw t) (mca t) (hcb t) (_ddbh t) (_dht t) (_dhcb t) v (_p_survival t) (mcw_p t)
    (lcw_p t) (dhcb_p t) (mort_beta t).

Definition set__p_survival (v : Q) (t : TREE) : TREE :=
  mkTREE (plot_id t) (tree_id t) (expand_tree_id t) (spp t) (softwood t) (sg t) (shade t)
    (dbh t) (ht t) (tph t) (cr t) (Form t) (Risk t) (ba t) (bal t) (bal_hw t) (bal_sw t)
    (mcw t) (lcw t) (mca t) (hcb t) (_ddbh t) (_dht t) (_dhcb t) (_dtph t) v (mcw_p t)
    (lcw_p t) (dhcb_p t) (mort_beta t).

(** Accessors of the class. *)
Definition is_softwood (t : TREE) : bool := softwood t.
Definition get_sg (t : TREE) : Q := sg t.
Definition get_shade (t : TREE) : Q := shade t.
Definition get_survival (t : TREE) : Q := _p_survival t.

(** [TREE::reset]: the growth variables go back to their neutral values. *)
Definition reset (t : TREE) : TREE :=
  set__p_survival 1 (set__dtph 0 (set__dhcb 0 (set__dht 0 (set__ddbh 0 t)))).

Section Crown.
Context `{Libm}.

Definition compute_mcw (t : TREE) : TREE :=
  set_mcw (a1 (mcw_p t) * pow (dbh t) (a2 (mcw_p t))) t.

Definition compute_lcw (t : TREE) : TREE :=
  set_lcw (mcw t / (a1 (lcw_p t) * pow (dbh t) (a2 (lcw_p t)))) t.

Definition pi : Q := 3.14159265358979323846.

Definition compute_mca (t : TREE) : TREE :=
  set_mca (100 * ((pi * (mcw t * mcw t / 4)) / 10000) * tph t) t.

(** [TREE::compute_attributes]: basal area per hectare, then the crown
    widths and the maximum crown area. *)
Definition compute_attributes (t : TREE) : TREE :=
  let t := set_ba (dbh t * dbh t * 0.00007854 * tph t) t in
  compute_mca (compute_lcw (compute_mcw t)).

(** ** Survival *)

Definition sbw_host (s : Z) : bool :=
  ((s =? 12) || (s =? 94) || (s =? 95) || (s =? 97))%Z.

(** [TREE::surv_sbw]: spruce budworm modifier of the survival probability. *)
Definition surv_sbw (Region : string) (average_height_hw average_height_sw CDEF : Q)
    (t : TREE) : Q :=
  let s := spp t in
  let surv_sbw_modifier :=
    if sbw_host s && Qleb 0 CDEF then
      let '(b1, b2, b4, b6, b7) :=
        if String.eqb Region "ME" then (-6.5208, -0.4866, 0.0316, -0.0175, 0.0274)
        else if String.eqb Region "NB" then (-6.8310, 0.0000, 0.2025, 0.0000, 0.0000)
        else (0, 0, 0, 0, 0) in
      let '(b3, b5, b8) :=
        if String.eqb Region "ME" then
          if (s =? 12)%Z then (-0.0355, 1.5087, 0.0040)
          else if ((s =? 97) || (s =? 95))%Z then (-0.1231, 1.5087, 0.0056)
          else if (s =? 94)%Z then (-0.1755, 1.5087, 0.0207)
          else (0, 0, 0)
        else if String.eqb Region "NB" then
          if (s =? 12)%Z then (-0.2285, 2.1703, 0.0029)
          else if ((s =? 97) || (s =? 95))%Z then (-0.2285, 2.0809, 0.0101)
          else if (s =? 94)%Z then (-0.2285, 1.5802, 0.0021)
          else (0, 0, 0)
        else (0, 0, 0) in
      let x := b1 + b2 * cr t + b3 * dbh t + b4 * average_height_sw
               + b5 * (ht t / average_height_sw) + b6 * bal_sw t + b7 * bal_hw t in
      let mort_a := 1 - exp (- exp x) in
      let mort_b := 1 - exp (- exp (x + b8 * CDEF)) in
      if Qltb 0 mort_a then (1 - mort_b) / (1 - mort_a) else 1
    else 1 in
  if Qleb surv_sbw_modifier 1 then surv_sbw_modifier else 1.

(** [TREE::surv_hw]: hardwood form modifier of the survival probability. *)
Definition surv_hw (sba : Q) (t : TREE) : Q :=
  let s := spp t in
  let surv_hw_modifier :=
    if ((1 <=? Form t) && (Form t <=? 8)
        && ((s =? 833) || (s =? 371) || (s =? 316) || (s =? 375) || (s =? 746)))%Z then
      let b0 := 15.1991 in
      let b1 := -0.1509 in
      let b2 := -0.1232 in
      let b3 := -1.4053 in
      let b5 := if (Form t =? 1)%Z then 3.3082
                else if (Form t =? 2)%Z then 2.2518 else 0.0000 in
      let '(b4, b6) :=
        if (s =? 746)%Z then (-2.7907, 0.0791)
        else if (s =? 316)%Z then (-3.9809, 0.8343)
        else if (s =? 833)%Z then (-0.7937, 0.8944)
        else if (s =? 371)%Z then (5.2531, 0.1528)
        else (3.3082, 0.0000) in
      let x := b0 + b1 * dbh t + b2 * bal t + b3 * sqrt sba + b4 + b6 * dbh t in
      let mort_a := exp x / (1 + exp x) in
      let mort_b := exp (x + b5) / (1 + exp (x + b5)) in
      if Qeqb mort_a 0 then 1 else mort_b / mort_a
    else 1 in
  if Qleb surv_hw_modifier 1 then surv_hw_modifier else 1.

(** The test shared by the thinning modifiers: a thinning is on record, it
    lies in the past, and its descriptors are positive. *)
Definition thinned (percent_ba_removed ba_pre_thin qmd_ratio : Q) (thin_year year : Z) : bool :=
  (0 <=? thin_year)%Z && (thin_year <=? year)%Z && Qltb 0 percent_ba_removed
  && Qltb 0 qmd_ratio && Qltb 0 ba_pre_thin.

(** The unclamped hazard ratio computed inside [TREE::surv_thin]. *)
Definition surv_thin_modifier (percent_ba_removed ba_pre_thin qmd_ratio : Q)
    (thin_year year : Z) (t : TREE) : Q :=
  if thinned percent_ba_removed ba_pre_thin qmd_ratio thin_year year then
    let time_since_thinning := inject_Z (year - thin_year) in
    if (spp t =? 12)%Z then
      let y0 := 1.7414 in
      let y1 := 7.0805 in
      let y2 := 0.6677 in
      let y3 := 0.8474 in
      1 + (exp (y0 + (y1 / (((100 * percent_ba_removed + ba_pre_thin) * qmd_ratio) + 0.01)))
           * pow y2 time_since_thinning * pow time_since_thinning y3)
    else if (spp t =? 97)%Z then
      let y0 := 10.5057 in
      let y1 := -650.8260 in
      let y2 := 0.6948 in
      let y3 := 0.6429 in
      1 + (exp (y0 + (y1 / (((100 * percent_ba_removed) + ba_pre_thin) + 0.01)))
           * pow y2 time_since_thinning * pow time_since_thinning y3)
    else 1
  else 1.

(** [TREE::surv_thin]: returns the reciprocal of the hazard ratio, capped at 1. *)
Definition surv_thin (percent_ba_removed ba_pre_thin qmd_ratio : Q)
    (thin_year year : Z) (t : TREE) : Q :=
  let x := 1 / surv_thin_modifier percent_ba_removed ba_pre_thin qmd_ratio thin_year year t in
  if Qleb x 1 then x else 1.

(** The complementary log-log base survival of [TREE::survival_prob]. *)
Definition base_survival (t : TREE) : Q :=
  let b := fun i => nth i (mort_beta t) 0 in
  1 - exp (- exp (- b 0%nat + b 1%nat * (pow (dbh t) (b 2%nat) / (bal t + 1)))).

(** [TREE::survival_prob]: the base probability times the enabled modifiers. *)
Definition survival_prob (Region : string) (csi sba qmd : Q)
    (percent_ba_removed ba_pre_thin qmd_ratio : Q) (thin_year year : Z)
    (average_height_hw average_height_sw CDEF : Q)
    (use_sbw_mod use_hw_mod use_thin_mod : bool) (t : TREE) : TREE :=
  let p := base_survival t in
  let sbw_modifier :=
    if use_sbw_mod then surv_sbw Region average_height_hw average_height_sw CDEF t else 1 in
  let hw_modifier := if use_hw_mod then surv_hw sba t else 1 in
  let thin_modifier :=
    if use_thin_mod then surv_thin percent_ba_removed ba_pre_thin qmd_ratio thin_year year t
    else 1 in
  set__p_survival (p * (sbw_modifier * (1 / thin_modifier) * hw_modifier)) t.

(** ** Applying one year of growth and mortality *)

(** [TREE::apply_growth_mortality]. *)
Definition apply_growth_mortality (t : TREE) : TREE :=
  let t := set_dbh (dbh t + _ddbh t) t in
  let t := set_ht (ht t + _dht t) t in
  let t := set_hcb (hcb t + _dhcb t) t in
  let t := if Qltb (ht t) (hcb t) then set_hcb (ht t) t else t in
  let t := set_cr ((ht t - hcb t) / ht t) t in
  let t := set_tph (tph t - (if Qleb (_dtph t) (tph t) then _dtph t else tph t)) t in
  let t := set_ba (dbh t * dbh t * 0.00007854 * tph t) t in
  reset (compute_mca (compute_lcw (compute_mcw t))).

(** ** Construction *)

(** What the species parameter resolver yields for a species code: the
    softwood flag, the attributes and the coefficient sets, each already
    replaced by the other-softwood or other-hardwood set where the species
    has no fit of its own.  The tables behind it ([parameters.cpp]) are not
    part of the sources at hand, so the resolver is an argument of the
    constructor; [None] is the [std::out_of_range] the constructor rethrows. *)
Record SPECIES : Type := mkSPECIES {
  sp_softwood : bool;
  sp_sg : Q;
  sp_shade : Q;
  sp_mcw_p : CROWN_PARMS;
  sp_lcw_p : CROWN_PARMS;
  sp_dhcb_p : list Q;
  sp_mort_beta : list Q
}.

(** [TREE::TREE]. *)
Definition TREE_new (resolve : Z -> option SPECIES) (plot_id_t tree_id_t spp_t : Z)
    (dbh_t ht_t tph_t cr_t : Q) (form_t risk_t : Z) : option TREE :=
  match resolve spp_t with
  | None => None
  | Some sp =>
    let hcb0 := if Qltb 0 cr_t && Qltb 0 ht_t then (1 - cr_t) * ht_t else 0 in
    Some (compute_attributes
            (mkTREE plot_id_t tree_id_t 0%Z spp_t (sp_softwood sp) (sp_sg sp) (sp_shade sp)
               dbh_t ht_t tph_t cr_t form_t risk_t 0 0 0 0 0 0 0 hcb0 0 0 0 0 1
               (sp_mcw_p sp) (sp_lcw_p sp) (sp_dhcb_p sp) (sp_mort_beta sp)))
  end.

End Crown.

End Tree.

(** * The tree: increments, imputation, form and risk *)

Module Growth.
Import Tree.

(** The members of the class [TREE] that the increment and imputation
    functions read besides those of [Tree.TREE]: the crown competition
    factors in larger trees, the decoded form and risk flags, and the
    coefficient sets of the diameter, height and height-prediction equations
    with the species effect of the crown-base prediction. *)
Record MEMBERS : Type := mkMEMBERS {
  ccfl : Q;
  ccfl_hw : Q;
  ccfl_sw : Q;
  _formB : bool;
  _low_risk : bool;
  ddbh_p : list Q;
  dht_p : list Q;
  htpred_p : list Q;
  hcb_p : Q
}.

(** [TREE::decode_form_and_risk]: the flags [(_formB, _low_risk)]. *)
Definition decode_form_and_risk (t : TREE) : bool * bool :=
  if ((1 <=? Form t) && (Form t <=? 8) && (1 <=? Risk t) && (Risk t <=? 4))%Z then
    (negb ((Form t =? 1) || (Form t =? 7) || (Form t =? 3) || (Form t =? 4))%Z,
     ((Risk t =? 1) || (Risk t =? 2))%Z)
  else (false, true).

(** The members as the constructor leaves them, given the coefficient sets
    it looked up: [ccfl = 0], then [decode_form_and_risk]. *)
Definition MEMBERS_new (ddbh_p dht_p htpred_p : list Q) (hcb_p : Q) (t : TREE) : MEMBERS :=
  let '(formB, low_risk) := decode_form_and_risk t in
  mkMEMBERS 0 0 0 formB low_risk ddbh_p dht_p htpred_p hcb_p.

Record FORM_CLASS : Type := mkFORM_CLASS { STM : Q; LSW : Q; MST : Q; LF : Q }.

Section WithLibm.
Context `{Libm}.

(** ** Imputation *)

(** [TREE::ht_pred]; [region] is 0 for Maine and 1 for New Brunswick. *)
Definition ht_pred (ccf : Q) (region : Z) (override_ht : bool) (m : MEMBERS) (t : TREE)
    : TREE :=
  let p := fun i => nth i (htpred_p m) 0 in
  if Qleb (ht t) 0 || override_ht then
    set_ht (1.37 + (p 0%nat + p 1%nat * inject_Z region)
                   * pow (1 - exp (- p 2%nat * dbh t - p 4%nat * (bal t + 1))) (p 3%nat)
                   * pow (log ccf) (p 5%nat)) t
  else t.

(** [TREE::hcb_pred]; [hcb_fixed_parms] is the table of that name. *)
Definition hcb_pred (hcb_fixed_parms : list Q) (ccf : Q) (m : MEMBERS) (t : TREE) : TREE :=
  let a := fun i => nth i hcb_fixed_parms 0 in
  let dhr := dbh t / ht t in
  let t := set_hcb (ht t / (1 + exp ((a 0%nat + hcb_p m) + a 1%nat * dbh t + a 2%nat * ht t
                                     + a 3%nat * dhr + a 4%nat * log (ccf + 1)
                                     + a 5%nat * (bal t + 1)))) t in
  set_cr ((ht t - hcb t) / ht t) t.

(** ** Diameter increment *)

(** [TREE::dDBH_thin]. *)
Definition dDBH_thin (percent_ba_removed ba_pre_thin qmd_ratio : Q) (thin_year year : Z)
    (t : TREE) : Q :=
  if thinned percent_ba_removed ba_pre_thin qmd_ratio thin_year year then
    let time_since_thinning := inject_Z (year - thin_year) in
    let dbh_thin_modifier :=
      if (spp t =? 12)%Z then
        let y0 := -0.2566 in
        let y1 := -22.7609 in
        let y2 := 0.7745 in
        let y3 := 1.0511 in
        1 + (exp (y0 + y1 / ((100 * percent_ba_removed * qmd_ratio) + 0.01))
             * pow y2 time_since_thinning * pow time_since_thinning y3)
      else if (spp t =? 97)%Z then
        let y0 := -0.5010 in
        let y1 := -20.1147 in
        let y2 := 0.8067 in
        let y3 := 1.1905 in
        1 + (exp (y0 + y1 / ((100 * percent_ba_removed * qmd_ratio) + 0.01))
             * pow y2 time_since_thinning * pow time_since_thinning y3)
      else 1 in
    fmax 0.75 (fmin dbh_thin_modifier 1.25)
  else 1.



(** A [bool] converted to [double]. *)
Definition of_bool (b : bool) : Q := if b then 1 else 0.

(** [TREE::dDBH_hw_form_risk].  The function takes [log (dbh)]; at a
    diameter of zero the code yields minus infinity and then a NaN, which
    the operation [log] of [Libm] does not render, so the statements about
    this function assume a positive diameter. *)
Definition dDBH_hw_form_risk (m : MEMBERS) (t : TREE) : Q :=
  let s := spp t in
  if ((1 <=? Form t) && (Form t <=? 8) && (1 <=? Risk t) && (Risk t <=? 4)
      && ((s =? 833) || (s =? 371) || (s =? 316) || (s =? 375) || (s =? 746)))%Z then
    let b0 := -2.9487 in
    let b1 := -0.1090 in
    let b2 := 1.2111 in
    let b3 := -0.0430 in
    let b6a := 0.2176 in
    let b6b := -0.0250 * of_bool (_formB m) + 0.2176 * of_bool (_low_risk m) in
    let b4 := if (s =? 746)%Z then -0.1059
              else if (s =? 316)%Z then -0.6377
              else if (s =? 833)%Z then -0.3453
              else if (s =? 371)%Z then -0.2494
              else 0.0000 in
    let b5 := if (s =? 746)%Z then 0.0476
              else if (s =? 316)%Z then 0.0477
              else if (s =? 833)%Z then 0.0511
              else if (s =? 371)%Z then 0.0251
              else 0.0000 in
    let a := b0 + b1 * dbh t + b2 * log (dbh t) + b3 * bal t + b4 + b5 * dbh t in
    let dDBH_a := exp (a + b6a) in
    let dDBH_b := exp (a + b6b) in
    dDBH_b / dDBH_a
  else 1.



(** ** Height increment *)

(** [TREE::dHT_thin]. *)
Definition dHT_thin (percent_ba_removed ba_pre_thin qmd_ratio : Q) (thin_year year : Z)
    (t : TREE) : Q :=
  if ((0 <=? thin_year) && (thin_year <=? year) && (year - thin_year <? 5))%Z then
    let time_since_thinning := inject_Z (year - thin_year) in
    let height_thin_modifier :=
      if (spp t =? 12)%Z then
        let y0 := -1.8443 in
        let y1 := 5.2969 in
        let y2 := 1.0532 in
        let y3 := 0.0000 in
        1 - (exp (y0 + y1 / ((100 * percent_ba_removed) + 0.01))
             * pow y2 time_since_thinning * pow time_since_thinning y3)
      else if (spp t =? 97)%Z then
        let y0 := -1.8426 in
        let y1 := 6.2781 in
        let y2 := 1.1596 in
        let y3 := 0.0000 in
        1 - (exp (y0 + y1 / ((100 * percent_ba_removed) + 0.01))
             * pow y2 time_since_thinning * pow time_since_thinning y3)
      else 1 in
    fmax 0.75 (fmin height_thin_modifier 1.25)
  else 1.

(** [TREE::dHT_sbw].  As in [dDBH_sbw], the function divides by
    [average_dbh_sw] and by [dHTa], which is zero when the diameter is; the
    statements about this branch assume the two divisors other than zero. *)
Definition dHT_sbw (topht average_dbh_sw CDEF : Q) (t : TREE) : Q :=
  let s := spp t in
  if sbw_host s && Qleb 0 CDEF then
    let b2 := -0.0011 in
    let b3 := 0.0316 in
    let b4 := 2.4512 in
    let '(b1, b5, b6) :=
      if (s =? 12)%Z then (0.0013, 0.3676, -0.0017)
      else if ((s =? 97) || (s =? 95))%Z then (0.0009, 0.2881, -0.0014)
      else if (s =? 94)%Z then (0.0005, 0.6800, 0.0001)
      else (0.0000, 0.0000, 0.0000) in
    let dHTa := b1 * dbh t * exp (b2 * dbh t * dbh t + b3 * topht + b4 * cr t
                                  + b5 * (dbh t / average_dbh_sw)) in
    let dHTb := b1 * dbh t * exp (b2 * dbh t * dbh t + b3 * topht + b4 * cr t
                                  + b5 * (dbh t / average_dbh_sw) + b6 * CDEF) in
    dHTb / dHTa
  else 1.

(** The increment of [TREE::dHT] before the modifiers. *)
Definition dHT_base (csi : Q) (m : MEMBERS) (t : TREE) : Q :=
  let p := fun i => nth i (dht_p m) 0 in
  p 0%nat * p 1%nat * p 2%nat * pow (cr t) (p 5%nat) * pow (csi / 30) (p 5%nat)
  * exp (- p 1%nat * ht t - p 4%nat * (ccfl m / 100))
  * pow (1 - exp (- p 1%nat * ht t)) (p 2%nat - 1).

(** [TREE::dHT]. *)
Definition dHT (Region : string) (csi percent_ba_removed ba_pre_thin qmd_ratio : Q)
    (thin_year year : Z) (average_dbh_sw topht CDEF : Q) (m : MEMBERS) (t : TREE) : TREE :=
  let thin_modifier := dHT_thin percent_ba_removed ba_pre_thin qmd_ratio thin_year year t in
  let sbw_modifier := dHT_sbw topht average_dbh_sw CDEF t in
  set__dht (dHT_base csi m t * (thin_modifier * sbw_modifier)) t.

(** ** Crown recession *)

(** [TREE::dHCB_thin]. *)
Definition dHCB_thin (percent_ba_removed ba_pre_thin qmd_ratio : Q) (thin_year year : Z)
    (t : TREE) : Q :=
  if ((0 <=? thin_year) && (thin_year <=? year) && ((spp t =? 12) || (spp t =? 97)))%Z then
    let time_since_thinning := inject_Z (year - thin_year) in
    let hcb_thin_modifier :=
      if (spp t =? 12)%Z then
        let y0 := -0.4208 in
        let y1 := -17.0998 in
        let y2 := 0.7986 in
        let y3 := 0.0521 in
        1 - (exp (y0 + y1 / ((100 * percent_ba_removed * qmd_ratio) + 0.01))
             * pow y2 time_since_thinning * pow time_since_thinning y3)
      else if (spp t =? 97)%Z then
        let y0 := -1.0778 in
        let y1 := -14.7694 in
        let y2 := 0.7758 in
        let y3 := 1.1164 in
        1 - (exp (y0 + y1 / ((100 * percent_ba_removed * qmd_ratio) + 0.01))
             * pow y2 time_since_thinning * pow time_since_thinning y3)
      else 1 in
    fmin (fabs hcb_thin_modifier) 1
  else 1.

(** The recession of [TREE::dHCB] before the modifier. *)
Definition dHCB_base (ccf : Q) (t : TREE) : Q :=
  let p := fun i => nth i (dhcb_p t) 0 in
  p 0%nat * pow (hcb t / p 5%nat) (p 2%nat)
  * ((ht t - hcb t) + pow (_dht t) (p 1%nat))
  * pow (1 - exp (- p 3%nat * (ccf + 1))) (p 4%nat).

(** [TREE::dHCB]. *)
Definition dHCB (ccf percent_ba_removed ba_pre_thin qmd_ratio : Q) (thin_year year : Z)
    (t : TREE) : TREE :=
  let thin_modifier := dHCB_thin percent_ba_removed ba_pre_thin qmd_ratio thin_year year t in
  set__dhcb (dHCB_base ccf t * thin_modifier) t.

(** ** Form and risk *)

(** [TREE::risk_probability]: the probability of a tree being high risk. *)
Definition risk_probability (t : TREE) : Q :=
  let s := spp t in
  let b0 := -0.6886 in
  let b1 := -0.0001 in
  if ((s =? 316) || (s =? 833) || (s =? 318) || (s =? 371))%Z then
    let '(b2, b3) :=
      if (s =? 833)%Z then (-0.0184, -0.0393)
      else if (s =? 318)%Z then (-0.1513, -0.0164)
      else if (s =? 371)%Z then (-0.9851, 0.0196)
      else (0.0000, 0.0000) in
    exp (b0 + b1 * dbh t + b2 + b3 * dbh t) / (1 + exp (b0 + b1 * dbh t + b2 + b3 * dbh t))
  else 0.

(** [TREE::form_probability]. *)
Definition form_probability (t : TREE) : FORM_CLASS :=
  let s := spp t in
  let b0_stm := -0.9491 in
  let b1_stm := 0.0174 in
  let b0_lsw := -1.1143 in
  let b1_lsw := -0.0322 in
  let b0_mst := -0.4110 in
  let b0_lf := -4.0677 in
  let b1_lf := 0.0322 in
  let '(b2_stm, b2_lsw, b2_mst, b2_lf) :=
    if (s =? 833)%Z then (-0.2826, 0.7910, -0.5009, 0.1139)
    else if (s =? 318)%Z then (0.7541, -0.2325, -1.1347, 0.6278)
    else if (s =? 371)%Z then (-0.0208, 0.2980, -0.7557, 1.0681)
    else (0.0000, 0.0000, 0.0000, 0.0000) in
  if ((s =? 316) || (s =? 833) || (s =? 318) || (s =? 371))%Z then
    let stm := exp (b0_stm + b1_stm * dbh t + b2_stm)
               / (1 + exp (b0_stm + b1_stm * dbh t + b2_stm)) in
    let lsw := exp (b0_lsw + b1_lsw * dbh t + b2_lsw)
               / (1 + exp (b0_lsw + b1_lsw * dbh t + b2_lsw)) in
    let mst := exp (b0_mst + b2_mst) / (1 + exp (b0_mst + b2_mst)) in
    let lf := exp (b0_lf + b1_lf * dbh t + b2_lf)
              / (1 + exp (b0_lf + b1_lf * dbh t + b2_lf)) in
    let xx := 1 / (stm + lsw + mst + lf) in
    mkFORM_CLASS (stm * xx) (lsw * xx) (mst * xx) (lf * xx)
  else mkFORM_CLASS 0 0 0 0.

End WithLibm.

End Growth.

(** * The stand *)

(** What the C++ code throws.  [terminate] is the bare [throw;] executed with
    no exception in flight, which ends the process. *)
Inductive error : Type :=
  | invalid_argument (what : string)
  | runtime_error (what : string)
  | terminate.

Inductive INGROWTH_MODEL_TYPE : Type := GNLS | NLME.

Module Stand.

Import Tree(TREE).

Record STAND : Type := mkSTAND {
  Region : string;
  year : Z;
  csi : Q;
  ccf : Q;
  elevation : Q;
  average_height_sw : Q;
  average_height_hw : Q;
  average_sg : Q;
  average_sg_10 : Q;
  CDEF : Q;
  topht : Q;
  ba_sw : Q;
  ba_hw : Q;
  ba : Q;
  tph : Q;
  qmd : Q;
  n_species : Z;
  min_dbh : Q;
  max_dbh : Q;
  min_dbh_10 : Q;
  rd : Q;
  rd_10 : Q;
  sdi_10 : Q;
  sdi : Q;
  bf_ba : Q;
  ithw_ba : Q;
  use_sbw_mod : bool;
  use_hw_mod : bool;
  use_thin_mod : bool;
  use_ingrowth : bool;
  cut_point : Q;
  MinDBH : Q;
  initialized : bool;
  percent_ba_removed : Q;
  ba_pre_thin : Q;
  qmd_ratio : Q;
  thin_year : Q;
  trees : list Tree.TREE;
  max_tree_id : Z;
  ba_spp : list (Z * Q);
  ba_grp_spp : list (Z * Q);
  plot_species_ba : list (Z * list (Z * Q))
}.

Definition set_topht (v : Q) (s : STAND) : STAND :=
  mkSTAND (Region s) (year s) (csi s) (ccf s) (elevation s) (average_height_sw s)
    (average_height_hw s) (average_sg s) (average_sg_10 s) (CDEF s) v (ba_sw s) (ba_hw s)
    (ba s) (tph s) (qmd s) (n_species s) (min_dbh s) (max_dbh s) (min_dbh_10 s) (rd s)
    (rd_10 s) (sdi_10 s) (sdi s) (bf_ba s) (ithw_ba s) (use_sbw_mod s) (use_hw_mod s)
    (use_thin_mod s) (use_ingrowth s) (cut_point s) (MinDBH s) (initialized s)
    (percent_ba_removed s) (ba_pre_thin s) (qmd_ratio s) (thin_year s) (trees s)
    (max_tree_id s) (ba_spp s) (ba_grp_spp s) (plot_species_ba s).

Definition set_ba_sw (v : Q) (s : STAND) : STAND :=
  mkSTAND (Region s) (year s) (csi s) (ccf s) (elevation s) (average_height_sw s)
    (average_height_hw s) (average_sg s) (average_sg_10 s) (CDEF s) (topht s) v (ba_hw s)
    (ba s) (tph s) (qmd s) (n_species s) (min_dbh s) (max_dbh s) (min_dbh_10 s) (rd s)
    (rd_10 s) (sdi_10 s) (sdi s) (bf_ba s) (ithw_ba s) (use_sbw_mod s) (use_hw_mod s)
    (use_thin_mod s) (use_ingrowth s) (cut_point s) (MinDBH s) (initialized s)
    (percent_ba_removed s) (ba_pre_thin s) (qmd_ratio s) (thin_year s) (trees s)
    (max_tree_id s) (ba_spp s) (ba_grp_spp s) (plot_species_ba s).

Definition set_ba_hw (v : Q) (s : STAND) : STAND :=
  mkSTAND (Region s) (year s) (csi s) (ccf s) (elevation s) (average_height_sw s)
    (average_height_hw s) (average_sg s) (average_sg_10 s) (CDEF s) (topht s) (ba_sw s) v
    (ba s) (tph s) (qmd s) (n_species s) (min_dbh s) (max_dbh s) (min_dbh_10 s) (rd s)
    (rd_10 s) (sdi_10 s) (sdi s) (bf_ba s) (ithw_ba s) (use_sbw_mod s) (use_hw_mod s)
    (use_thin_mod s) (use_ingrowth s) (cut_point s) (MinDBH s) (initialized s)
    (percent_ba_removed s) (ba_pre_thin s) (qmd_ratio s) (thin_year s) (trees s)
    (max_tree_id s) (ba_spp s) (ba_grp_spp s) (plot_species_ba s).

Definition set_ba (v : Q) (s : STAND) : STAND :=
  mkSTAND (Region s) (year s) (csi s) (ccf s) (elevation s) (average_height_sw s)
    (average_height_hw s) (average_sg s) (average_sg_10 s) (CDEF s) (topht s) (ba_sw s)
    (ba_hw s) v (tph s) (qmd s) (n_species s) (min_dbh s) (max_dbh s) (min_dbh_10 s) (rd s)
    (rd_10 s) (sdi_10 s) (sdi s) (bf_ba s) (ithw_ba s) (use_sbw_mod s) (use_hw_mod s)
    (use_thin_mod s) (use_ingrowth s) (cut_point s) (MinDBH s) (initialized s)
    (percent_ba_removed s) (ba_pre_thin s) (qmd_ratio s) (thin_year s) (trees s)
    (max_tree_id s) (ba_spp s) (ba_grp_spp s) (plot_species_ba s).

Definition set_tph (v : Q) (s : STAND) : STAND :=
  mkSTAND (Region s) (year s) (csi s) (ccf s) (elevation s) (average_height_sw s)
    (average_height_hw s) (average_sg s) (average_sg_10 s) (CDEF s) (topht s) (ba_sw s)
    (ba_hw s) (ba s) v (qmd s) (n_species s) (min_dbh s) (max_dbh s) (min_dbh_10 s) (rd s)
    (rd_10 s) (sdi_10 s) (sdi s) (bf_ba s) (ithw_ba s) (use_sbw_mod s) (use_hw_mod s)
    (use_thin_mod s) (use_ingrowth s) (cut_point s) (MinDBH s) (initialized s)
    (percent_ba_removed s) (ba_pre_thin s) (qmd_ratio s) (thin_year s) (trees s)
    (max_tree_id s) (ba_spp s) (ba_grp_spp s) (plot_species_ba s).

Definition set_qmd (v : Q) (s : STAND) : STAND :=
  mkSTAND (Region s) (year s) (csi s) (ccf s) (elevation s) (average_height_sw s)
    (average_height_hw s) (average_sg s) (average_sg_10 s) (CDEF s) (topht s) (ba_sw s)
    (ba_hw s) (ba s) (tph s) v (n_species s) (min_dbh s) (max_dbh s) (min_dbh_10 s) (rd s)
    (rd_10 s) (sdi_10 s) (sdi s) (bf_ba s) (ithw_ba s) (use_sbw_mod s) (use_hw_mod s)
    (use_thin_mod s) (use_ingrowth s) (cut_point s) (MinDBH s) (initialized s)
    (percent_ba_removed s) (ba_pre_thin s) (qmd_ratio s) (thin_year s) (trees s)
    (max_tree_id s) (ba_spp s) (ba_grp_spp s) (plot_species_ba s).

Definition set_rd (v : Q) (s : STAND) : STAND :=
  mkSTAND (Region s) (year s) (csi s) (ccf s) (elevation s) (average_height_sw s)
    (average_height_hw s) (average_sg s) (average_sg_10 s) (CDEF s) (topht s) (ba_sw s)
    (ba_hw s) (ba s) (tph s) (qmd s) (n_species s) (min_dbh s) (max_dbh s) (min_dbh_10 s) v
    (rd_10 s) (sdi_10 s) (sdi s) (bf_ba s) (ithw_ba s) (use_sbw_mod s) (use_hw_mod s)
    (use_thin_mod s) (use_ingrowth s) (cut_point s) (MinDBH s) (initialized s)
    (percent_ba_removed s) (ba_pre_thin s) (qmd_ratio s) (thin_year s) (trees s)
    (max_tree_id s) (ba_spp s) (ba_grp_spp s) (plot_species_ba s).

Definition set_rd_10 (v : Q) (s : STAND) : STAND :=
  mkSTAND (Region s) (year s) (csi s) (ccf s) (elevation s) (average_height_sw s)
    (average_height_hw s) (average_sg s) (average_sg_10 s) (CDEF s) (topht s) (ba_sw s)
    (ba_hw s) (ba s) (tph s) (qmd s) (n_species s) (min_dbh s) (max_dbh s) (min_dbh_10 s)
    (rd s) v (sdi_10 s) (sdi s) (bf_ba s) (ithw_ba s) (use_sbw_mod s) (use_hw_mod s)
    (use_thin_mod s) (use_ingrowth s) (cut_point s) (MinDBH s) (initialized s)
    (percent_ba_removed s) (ba_pre_thin s) (qmd_ratio s) (thin_year s) (trees s)
    (max_tree_id s) (ba_spp s) (ba_grp_spp s) (plot_species_ba s).

Definition set_bf_ba (v : Q) (s : STAND) : STAND :=
  mkSTAND (Region s) (year s) (csi s) (ccf s) (elevation s) (average_height_sw s)
    (average_height_hw s) (average_sg s) (average_sg_10 s) (CDEF s) (topht s) (ba_sw s)
    (ba_hw s) (ba s) (tph s) (qmd s) (n_species s) (min_dbh s) (max_dbh s) (min_dbh_10 s)
    (rd s) (rd_10 s) (sdi_10 s) (sdi s) v (ithw_ba s) (use_sbw_mod s) (use_hw_mod s)
    (use_thin_mod s) (use_ingrowth s) (cut_point s) (MinDBH s) (initialized s)
    (percent_ba_removed s) (ba_pre_thin s) (qmd_ratio s) (thin_year s) (trees s)
    (max_tree_id s) (ba_spp s) (ba_grp_spp s) (plot_species_ba s).

Definition set_ithw_ba (v : Q) (s : STAND) : STAND :=
  mkSTAND (Region s) (year s) (csi s) (ccf s) (elevation s) (average_height_sw s)
    (average_height_hw s) (average_sg s) (average_sg_10 s) (CDEF s) (topht s) (ba_sw s)
    (ba_hw s) (ba s) (tph s) (qmd s) (n_species s) (min_dbh s) (max_dbh s) (min_dbh_10 s)
    (rd s) (rd_10 s) (sdi_10 s) (sdi s) (bf_ba s) v (use_sbw_mod s) (use_hw_mod s)
    (use_thin_mod s) (use_ingrowth s) (cut_point s) (MinDBH s) (initialized s)
    (percent_ba_removed s) (ba_pre_thin s) (qmd_ratio s) (thin_year s) (trees s)
    (max_tree_id s) (ba_spp s) (ba_grp_spp s) (plot_species_ba s).

Definition set_trees (v : list Tree.TREE) (s : STAND) : STAND :=
  mkSTAND (Region s) (year s) (csi s) (ccf s) (elevation s) (average_height_sw s)
    (average_height_hw s) (average_sg s) (average_sg_10 s) (CDEF s) (topht s) (ba_sw s)
    (ba_hw s) (ba s) (tph s) (qmd s) (n_species s) (min_dbh s) (max_dbh s) (min_dbh_10 s)
    (rd s) (rd_10 s) (sdi_10 s) (sdi s) (bf_ba s) (ithw_ba s) (use_sbw_mod s) (use_hw_mod s)
    (use_thin_mod s) (use_ingrowth s) (cut_point s) (MinDBH s) (initialized s)
    (percent_ba_removed s) (ba_pre_thin s) (qmd_ratio s) (thin_year s) v (max_tree_id s)
    (ba_spp s) (ba_grp_spp s) (plot_species_ba s).

Definition set_max_tree_id (v : Z) (s : STAND) : STAND :=
  mkSTAND (Region s) (year s) (csi s) (ccf s) (elevation s) (average_height_sw s)
    (average_height_hw s) (average_sg s) (average_sg_10 s) (CDEF s) (topht s) (ba_sw s)
    (ba_hw s) (ba s) (tph s) (qmd s) (n_species s) (min_dbh s) (max_dbh s) (min_dbh_10 s)
    (rd s) (rd_10 s) (sdi_10 s) (sdi s) (bf_ba s) (ithw_ba s) (use_sbw_mod s) (use_hw_mod s)
    (use_thin_mod s) (use_ingrowth s) (cut_point s) (MinDBH s) (initialized s)
    (percent_ba_removed s) (ba_pre_thin s) (qmd_ratio s) (thin_year s) (trees s) v
    (ba_spp s) (ba_grp_spp s) (plot_species_ba s).

Definition set_ba_spp (v : list (Z * Q)) (s : STAND) : STAND :=
  mkSTAND (Region s) (year s) (csi s) (ccf s) (elevation s) (average_height_sw s)
    (average_height_hw s) (average_sg s) (average_sg_10 s) (CDEF s) (topht s) (ba_sw s)
    (ba_hw s) (ba s) (tph s) (qmd s) (n_species s) (min_dbh s) (max_dbh s) (min_dbh_10 s)
    (rd s) (rd_10 s) (sdi_10 s) (sdi s) (bf_ba s) (ithw_ba s) (use_sbw_mod s) (use_hw_mod s)
    (use_thin_mod s) (use_ingrowth s) (cut_point s) (MinDBH s) (initialized s)
    (percent_ba_removed s) (ba_pre_thin s) (qmd_ratio s) (thin_year s) (trees s)
    (max_tree_id s) v (ba_grp_spp s) (plot_species_ba s).

Definition set_ba_grp_spp (v : list (Z * Q)) (s : STAND) : STAND :=
  mkSTAND (Region s) (year s) (csi s) (ccf s) (elevation s) (average_height_sw s)
    (average_height_hw s) (average_sg s) (average_sg_10 s) (CDEF s) (topht s) (ba_sw s)
    (ba_hw s) (ba s) (tph s) (qmd s) (n_species s) (min_dbh s) (max_dbh s) (min_dbh_10 s)
    (rd s) (rd_10 s) (sdi_10 s) (sdi s) (bf_ba s) (ithw_ba s) (use_sbw_mod s) (use_hw_mod s)
    (use_thin_mod s) (use_ingrowth s) (cut_point s) (MinDBH s) (initialized s)
    (percent_ba_removed s) (ba_pre_thin s) (qmd_ratio s) (thin_year s) (trees s)
    (max_tree_id s) (ba_spp s) v (plot_species_ba s).

Definition set_plot_species_ba (v : list (Z * list (Z * Q))) (s : STAND) : STAND :=
  mkSTAND (Region s) (year s) (csi s) (ccf s) (elevation s) (average_height_sw s)
    (average_height_hw s) (average_sg s) (average_sg_10 s) (CDEF s) (topht s) (ba_sw s)
    (ba_hw s) (ba s) (tph s) (qmd s) (n_species s) (min_dbh s) (max_dbh s) (min_dbh_10 s)
    (rd s) (rd_10 s) (sdi_10 s) (sdi s) (bf_ba s) (ithw_ba s) (use_sbw_mod s) (use_hw_mod s)
    (use_thin_mod s) (use_ingrowth s) (cut_point s) (MinDBH s) (initialized s)
    (percent_ba_removed s) (ba_pre_thin s) (qmd_ratio s) (thin_year s) (trees s)
    (max_tree_id s) (ba_spp s) (ba_grp_spp s) v.

(** ** Construction *)

(** [STAND::STAND].  The members the constructor leaves without a value are
    indeterminate in C++; the model gives them 0 (and the declared default
    where the class has one).  [min_dbh_10] is one of them, and no function of
    the source ever assigns it. *)
Definition STAND_new (t_Region : string) (t_year : Z) (t_csi t_elev t_cdef : Q)
    (use_sbw_t use_hw_t use_thin_t : bool) (t_use_ingrowth : Z)
    (t_cut_point t_MinDBH : Q) : error + STAND :=
  if negb (String.eqb t_Region "ME") && negb (String.eqb t_Region "NB") then
    inl (invalid_argument "Invalid Region")
  else if Qleb t_csi 0 then
    inl (invalid_argument "Invalid CSI")
  else
    inr (mkSTAND t_Region t_year t_csi 0 t_elev 0 0 0 0 t_cdef 0 0 0 0 0 0 0%Z 0 0 0 0 0 0 0
           0 0 use_sbw_t use_hw_t use_thin_t (negb (t_use_ingrowth =? 0)%Z) t_cut_point
           t_MinDBH false 0 0 0 (-1) [] 0%Z [] [] []).

(** ** Ranking *)

(** The sort key: diameter, or height for the top-height pass. *)
Definition sort_key (use_dbh : bool) (t : TREE) : Q :=
  if use_dbh then Tree.dbh t else Tree.ht t.

(** The comparator handed to [std::stable_sort]: [v[i1].key >= v[i2].key]. *)
Definition sort_comp (v : list TREE) (use_dbh : bool) (i1 i2 : nat) : bool :=
  match v !! i1, v !! i2 with
  | Some x, Some y => Qleb (sort_key use_dbh y) (sort_key use_dbh x)
  | _, _ => false
  end.

(** One insertion of the sort: the new index moves left past every index it
    compares before, and stops behind the last one it does not. *)
Fixpoint sort_insert (comp : nat -> nat -> bool) (i : nat) (l : list nat) : list nat :=
  match l with
  | [] => [i]
  | j :: r => if comp i j then i :: j :: r else j :: sort_insert comp i r
  end.

(** [sort_indices]: the positions [0 .. size-1] ordered by decreasing key.
    With the reflexive comparator of the source, the insertion and merge
    steps of libstdc++ place an element before the equal elements that
    precede it, which is what inserting the positions one by one does.  The
    facts proved about the ranking use only that the result lists every
    position once, in decreasing order of the key. *)
Definition sort_indices (v : list TREE) (use_dbh : bool) : list nat :=
  foldl (fun acc i => sort_insert (sort_comp v use_dbh) i acc) [] (seq 0 (length v)).

(** ** Basal area, density and basal area in larger trees *)

(** The tie-aware ladder that [compute_ba_tph_bal] runs twice, once on all
    trees and once on the softwoods: given the running total, the last
    diameter seen and the total held back for the current tie group, it
    yields the value stored in the tree and the three updated locals; [None]
    is the branch that throws. *)
Definition rank_step (total last held d b : Q) : option (Q * (Q * Q * Q)) :=
  match d ?= last with
  | Lt => Some (total, (total + b, d, total))
  | Eq => Some (held, (total + b, last, held))
  | Gt => None
  end.

(** The local variables of [compute_ba_tph_bal]. *)
Record bal_locals : Type := mkbal_locals {
  _bal_sw : Q;
  _bal : Q;
  last_sw_dbh : Q;
  last_dbh : Q;
  pending_sw : Q;
  pending : Q
}.

Definition bal_locals_init : bal_locals := mkbal_locals 0 0 9999 9999 0 0.

(** The part of the loop body that writes [bal], [bal_sw] and [bal_hw] of
    the tree at hand. *)
Definition bal_tree (l : bal_locals) (t : TREE) : option (bal_locals * TREE) :=
  match rank_step (_bal l) (last_dbh l) (pending l) (Tree.dbh t) (Tree.ba t) with
  | None => None
  | Some (v, (total, last, held)) =>
    let t := Tree.set_bal v t in
    let l := mkbal_locals (_bal_sw l) total (last_sw_dbh l) last (pending_sw l) held in
    if Tree.is_softwood t then
      match rank_step (_bal_sw l) (last_sw_dbh l) (pending_sw l) (Tree.dbh t) (Tree.ba t) with
      | None => None
      | Some (v, (total, last, held)) =>
        let t := Tree.set_bal_sw v t in
        let l := mkbal_locals total (_bal l) last (last_dbh l) held (pending l) in
        Some (l, Tree.set_bal_hw (Tree.bal t - Tree.bal_sw t) t)
      end
    else
      let t := Tree.set_bal_sw (_bal_sw l) t in
      Some (l, Tree.set_bal_hw (Tree.bal t - Tree.bal_sw t) t)
  end.

(** The stand totals the same loop body accumulates. *)
Definition bal_totals (t : TREE) (s : STAND) : STAND :=
  let s := set_ba (ba s + Tree.ba t) s in
  let s := set_tph (tph s + Tree.tph t) s in
  let s := if (Tree.spp t =? 12)%Z then set_bf_ba (bf_ba s + Tree.ba t) s else s in
  let s := if negb (Tree.is_softwood t) && Qltb (Tree.get_shade t) 2
           then set_ithw_ba (ithw_ba s + Tree.ba t) s else s in
  if Tree.is_softwood t then set_ba_sw (ba_sw s + Tree.ba t) s
  else set_ba_hw (ba_hw s + Tree.ba t) s.

(** The loop over the sorted positions. *)
Fixpoint bal_loop (idx : list nat) (l : bal_locals) (s : STAND) : option STAND :=
  match idx with
  | [] => Some s
  | i :: rest =>
    match trees s !! i with
    | None => None
    | Some t =>
      match bal_tree l t with
      | None => None
      | Some (l', t') => bal_loop rest l' (set_trees (<[i := t']> (trees s)) (bal_totals t s))
      end
    end
  end.

Section WithLibm.
Context `{Libm}.

(** [STAND::compute_ba_tph_bal]; [None] when the loop reaches a [throw;]. *)
Definition compute_ba_tph_bal (s : STAND) : option STAND :=
  let s := set_tph 0 (set_ithw_ba 0 (set_bf_ba 0 (set_ba_hw 0 (set_ba_sw 0 (set_ba 0 s))))) in
  match bal_loop (sort_indices (trees s) true) bal_locals_init s with
  | None => None
  | Some s =>
    Some (set_qmd (if Qltb 0 (tph s) then sqrt (ba s / tph s / 0.00007854) else 0) s)
  end.

(** ** Top height *)

(** The loop body of [compute_topht] on the pair [(sum_tph, sum_ht)]. *)
Definition topht_step (v : list TREE) (acc : Q * Q) (i : nat) : Q * Q :=
  let '(sum_tph, sum_ht) := acc in
  match v !! i with
  | None => acc
  | Some t =>
    if Qleb (sum_tph + Tree.tph t) 100 then
      (sum_tph + Tree.tph t, sum_ht + Tree.ht t * Tree.tph t)
    else if Qltb sum_tph 100 then
      (100, sum_ht + Tree.ht t * (100 - sum_tph))
    else acc
  end.

(** [STAND::compute_topht]. *)
Definition compute_topht (s : STAND) : STAND :=
  let '(sum_tph, sum_ht) :=
    foldl (topht_step (trees s)) (0, 0) (sort_indices (trees s) false) in
  set_topht (if Qltb 0 sum_tph then sum_ht / sum_tph else 0) s.

(** ** Stand density index and relative density *)

(** The regression of Weiskittel and Kuehne (2019) that [compute_sdi_rd]
    evaluates twice, on the mean specific gravity and diameter range of the
    trees of 10 cm and more, and on those of all trees. *)
Definition SDImax_regression (s : STAND) (meanSG range : Q) : Q :=
  475.2079 - 1.5908 * (ba_hw s / ba s) - 236.9051 * log meanSG + 50.3299 * sqrt range
  + 13.5202 * inject_Z (n_species s) + 0.0685 * elevation s - 2.8537 * sqrt (elevation s)
  + 222.7836 * (1 / csi s).

Definition dbh_range (s : STAND) : Q :=
  if Qltb (min_dbh s) (max_dbh s) then max_dbh s - min_dbh s else 0.

Definition dbh_10_range (s : STAND) : Q :=
  if Qltb (min_dbh_10 s) (max_dbh s) then max_dbh s - min_dbh_10 s else 0.

Definition meanSG (s : STAND) : Q := fmax (average_sg s) 0.80.
Definition meanSG_10 (s : STAND) : Q := fmax (average_sg_10 s) 0.80.

(** The first value given to [SDImax] (10 cm and more) and to [SDImax_all]. *)
Definition SDImax_10_primary (s : STAND) : Q := SDImax_regression s (meanSG_10 s) (dbh_10_range s).
Definition SDImax_all_primary (s : STAND) : Q := SDImax_regression s (meanSG s) (dbh_range s).

(** The second regression. *)
Definition SDImax2 (s : STAND) : Q := 1347.445 - 1003.870 * meanSG s.

(** The ceilings after the two conditional assignments of the source:
    [SDImax = SDImax > 0.0 ? SDImax2 : SDImax] and
    [SDImax_all = SDImax_all > 0.0 ? SDImax_all : SDImax2]. *)
Definition SDImax_10_selected (s : STAND) : Q :=
  if Qltb 0 (SDImax_10_primary s) then SDImax2 s else SDImax_10_primary s.

Definition SDImax_all_selected (s : STAND) : Q :=
  if Qltb 0 (SDImax_all_primary s) then SDImax_all_primary s else SDImax2 s.

(** [STAND::compute_sdi_rd]. *)
Definition compute_sdi_rd (s : STAND) : STAND :=
  let s := set_rd 0 s in
  let s := set_rd_10 (sdi_10 s / SDImax_10_selected s) s in
  set_rd (sdi s / SDImax_all_selected s) s.

(** ** Ingrowth: recruits per hectare *)

Definition gnls_a : list Q := [-0.2116; -0.0255; -0.1396; -0.0054; 0.0433; 0.0409; 0.0].
Definition gnls_b : list Q := [3.8982; -0.0257; -0.3668; 0.0002; 0.0216; -0.0514; 0.0].
Definition nlme_a : list Q := [-0.08217; 0.1113; -1.2405; -0.2319; 0.03673; -0.7745; -0.1301].
Definition nlme_b : list Q := [2.8466; -0.03114; -0.2891; 0.003350; 0.2248; -0.08223; -0.03548].

Definition coef (c : list Q) (i : nat) : Q := nth i c 0.

(** The linear predictor shared by the two equations of [ingrowth].  It
    divides by the basal area of the stand; at a basal area of zero the code
    yields a NaN, which a rational does not render, so a statement about the
    value of the predictor assumes a basal area other than zero. *)
Definition ingrowth_link (c : list Q) (s : STAND) : Q :=
  coef c 0 + coef c 1 * ba s + coef c 2 * (ba_hw s / ba s) + coef c 3 * (tph s / 1000)
  + coef c 4 * csi s + coef c 5 * MinDBH s + coef c 6 * qmd s.

(** The probability of occurrence [PI] and the linear predictor [eta] of the
    rate. *)
Definition ingrowth_PI (type : INGROWTH_MODEL_TYPE) (s : STAND) : Q :=
  let a := match type with GNLS => gnls_a | NLME => nlme_a end in
  1 / (1 + exp (- ingrowth_link a s)).

Definition ingrowth_eta (type : INGROWTH_MODEL_TYPE) (s : STAND) : Q :=
  let b := match type with GNLS => gnls_b | NLME => nlme_b end in
  ingrowth_link b s.

(** [STAND::ingrowth]. *)
Definition ingrowth (type : INGROWTH_MODEL_TYPE) (s : STAND) : Q :=
  let PI := ingrowth_PI type s in
  let IPH := exp (ingrowth_eta type s) in
  if Qeqb (cut_point s) 0 then IPH * PI
  else if Qleb (cut_point s) PI then IPH else 0.

(** ** Mortality at the stand level *)

(** [STAND::mort_sbw]. *)
Definition mort_sbw (s : STAND) : Q :=
  let '(b1, b2, b3, b4) :=
    if String.eqb (Region s) "ME" then (-2.6380, 0.0114, -0.0076, 0.0074)
    else if String.eqb (Region s) "NB" then (-3.0893, 0.0071, -0.0037, 0.0000)
    else (-2.6380, 0.0114, -0.0076, 0.0074) in
  let VOL := (topht s / 2) * ba s in
  let aa := (1 / (1 + exp (- b1))) * (1 / (1 + exp (- (b3 * VOL)))) in
  let bb := (1 / (1 + exp (- b1)))
            * (1 / (1 + exp (- (b2 * CDEF s * bf_ba s + b3 * VOL + b4 * CDEF s)))) in
  if Qltb (CDEF s) 0 then 1 else if Qltb 0 aa then bb / aa else 1.

(** [STAND::mort_thin].  [thin_year] is a [double] member compared with the
    [int] year and truncated into the [int] time since thinning. *)
Definition mort_thin (s : STAND) : Q :=
  if Qleb 0 (thin_year s) && Qleb (thin_year s) (inject_Z (year s))
     && Qltb 0 (percent_ba_removed s) && Qltb 0 (qmd_ratio s) && Qltb 0 (ba_pre_thin s) then
    let time_since_thinning := inject_Z (trunc (inject_Z (year s) - thin_year s)) in
    let y30 := 8.3385 in
    let y31 := -601.3096 in
    let y32 := 0.5507 in
    let y33 := 1.5798 in
    1 + exp (y30 + (y31 / ((100 * percent_ba_removed s + ba_pre_thin s) + 0.01)))
        * pow y32 time_since_thinning * pow time_since_thinning y33
  else 1.

(** [STAND::compute_survival_prob]. *)
Definition compute_survival_prob (s : STAND) : STAND :=
  set_trees
    (map (Tree.survival_prob (Region s) (csi s) (ba s) (qmd s) (percent_ba_removed s)
            (ba_pre_thin s) (qmd_ratio s) (trunc (thin_year s)) (year s)
            (average_height_hw s) (average_height_sw s) (CDEF s)
            (use_sbw_mod s) (use_hw_mod s) (use_thin_mod s)) (trees s)) s.

(** [STAND::survival]: the density each record loses this year. *)
Definition survival (s : STAND) : STAND :=
  let sbw_modifier := if use_sbw_mod s then mort_sbw s else 1 in
  let thin_modifier := if use_thin_mod s then mort_thin s else 1 in
  let s := compute_survival_prob s in
  set_trees
    (map (fun t => Tree.set__dtph
                     (Tree.tph t * (1 - Tree.get_survival t) * sbw_modifier * thin_modifier) t)
         (trees s)) s.

(** [STAND::apply_growth_mortality]. *)
Definition apply_growth_mortality (s : STAND) : STAND :=
  set_trees (map Tree.apply_growth_mortality (trees s)) s.

(** ** Expanding and collapsing the tree list *)

Section Expansion.
(** The draws of [distribution(generator)]: the engine is default-constructed,
    so each call of [expand_tree_list] sees the same sequence; [jitter k] is
    its [k]-th value. *)
Variable jitter : nat -> Q.

(** A copy of [trees[i]] with its expand id, perturbed diameter and height,
    its density and recomputed attributes; the second component counts the
    draws made so far. *)
Definition expand_copy (t : TREE) (id : Z) (new_tph : Q) (k : nat) : TREE * nat :=
  let new_tree := Tree.set_expand_tree_id id t in
  let new_tree := Tree.set_dbh (Tree.dbh new_tree + jitter k) new_tree in
  let k := S k in
  let '(new_tree, k) :=
    if Qltb 0 (Tree.ht new_tree)
    then (Tree.set_ht (Tree.ht new_tree + jitter k) new_tree, S k)
    else (Tree.set_ht (Tree.ht new_tree + 0) new_tree, k) in
  (Tree.compute_attributes (Tree.set_tph new_tph new_tree), k).

(** The inner [for] loop: [n] full-threshold copies numbered [j+1, j+2, ...]. *)
Fixpoint expand_copies (threshold : Q) (t : TREE) (n : nat) (j : Z) (cum_tph : Q) (k : nat)
    : list TREE * (Z * Q * nat) :=
  match n with
  | O => ([], (j, cum_tph, k))
  | S n' =>
    let '(c, k) := expand_copy t (j + 1) threshold k in
    let '(cs, fin) := expand_copies threshold t n' (j + 1)%Z (cum_tph + threshold) k in
    (c :: cs, fin)
  end.

(** One iteration of the outer loop on [trees[i]]: the record as it is left
    in place, the records appended to the list, and the draw counter. *)
Definition expand_record (threshold : Q) (t : TREE) (k : nat) : TREE * list TREE * nat :=
  if Qltb threshold (Tree.tph t) then
    let n_new_trees := (trunc (Tree.tph t / threshold) - 1)%Z in
    let '(copies, (j, cum_tph, k)) :=
      expand_copies threshold t (Z.to_nat n_new_trees) 0%Z threshold k in
    let '(rest, j, k) :=
      if Qltb cum_tph (Tree.tph t) then
        let '(c, k) := expand_copy t (j + 1) (Tree.tph t - cum_tph) k in
        ([c], (j + 1)%Z, k)
      else ([], j, k) in
    let t := Tree.set_expand_tree_id (j + 1) (Tree.set_tph threshold t) in
    (Tree.compute_attributes t, copies ++ rest, k)
  else (t, [], k).

(** The outer loop visits the [n_trees] positions present on entry, in
    order; the records it appends land behind them and are not visited.  It
    is therefore a recursion over the original records that returns them as
    left in place, together with everything appended. *)
Fixpoint expand_loop (threshold : Q) (orig : list TREE) (k : nat)
    : list TREE * list TREE * nat :=
  match orig with
  | [] => ([], [], k)
  | t :: rest =>
    let '(t', added, k) := expand_record threshold t k in
    let '(rest', added', k) := expand_loop threshold rest k in
    (t' :: rest', added ++ added', k)
  end.

(** [STAND::expand_tree_list]. *)
Definition expand_tree_list (threshold : Q) (s : STAND) : bool * STAND :=
  match trees s with
  | [] => (false, s)
  | _ =>
    let '(kept, added, _) := expand_loop threshold (trees s) 0%nat in
    (true, set_trees (kept ++ added) s)
  end.

End Expansion.

(** The test of the inner loop of [unexpand_tree_list]. *)
Definition same_group (acc t2 : TREE) : bool :=
  ((Tree.plot_id t2 =? Tree.plot_id acc) && (Tree.tree_id t2 =? Tree.tree_id acc)
   && (0 <? Tree.expand_tree_id t2)
   && negb (Tree.expand_tree_id t2 =? Tree.expand_tree_id acc))%Z.

(** The accumulator weighted by its own density. *)
Definition weigh (t : TREE) : TREE :=
  let t := Tree.set_dbh (Tree.dbh t * Tree.tph t) t in
  let t := Tree.set_ht (Tree.ht t * Tree.tph t) t in
  let t := Tree.set_hcb (Tree.hcb t * Tree.tph t) t in
  Tree.set_cr (Tree.cr t * Tree.tph t) t.

(** The accumulator after taking in [t2]. *)
Definition accumulate (acc t2 : TREE) : TREE :=
  let acc := Tree.set_tph (Tree.tph acc + Tree.tph t2) acc in
  let acc := Tree.set_dbh (Tree.dbh acc + Tree.dbh t2 * Tree.tph t2) acc in
  let acc := Tree.set_ht (Tree.ht acc + Tree.ht t2 * Tree.tph t2) acc in
  let acc := Tree.set_hcb (Tree.hcb acc + Tree.hcb t2 * Tree.tph t2) acc in
  Tree.set_cr (Tree.cr acc + Tree.cr t2 * Tree.tph t2) acc.

(** A record once consumed: [expand_tree_id = -1] on an [unsigned long]. *)
Definition consumed (t2 : TREE) : TREE :=
  Tree.set_tph 0 (Tree.set_expand_tree_id (to_ulong (-1)) t2).

(** The inner loop: the records behind the accumulator, left to right. *)
Fixpoint absorb (acc : TREE) (rest : list TREE) : TREE * list TREE :=
  match rest with
  | [] => (acc, [])
  | t2 :: r =>
    if same_group acc t2 then
      let '(acc', r') := absorb (accumulate acc t2) r in (acc', consumed t2 :: r')
    else
      let '(acc', r') := absorb acc r in (acc', t2 :: r')
  end.

(** The averages, taken when the accumulated density is positive. *)
Definition average (t : TREE) : TREE :=
  if Qltb 0 (Tree.tph t) then
    let t := Tree.set_dbh (Tree.dbh t / Tree.tph t) t in
    let t := Tree.set_ht (Tree.ht t / Tree.tph t) t in
    let t := Tree.set_hcb (Tree.hcb t / Tree.tph t) t in
    let t := Tree.set_cr (Tree.cr t / Tree.tph t) t in
    Tree.compute_attributes (Tree.set_expand_tree_id 0 t)
  else t.

(** The outer loop; [n] counts the records still to visit. *)
Fixpoint unexpand_loop (n : nat) (l : list TREE) : list TREE :=
  match n, l with
  | S n', t :: rest =>
    if (0 <? Tree.expand_tree_id t)%Z then
      let '(acc, rest') := absorb (weigh t) rest in
      average acc :: unexpand_loop n' rest'
    else t :: unexpand_loop n' rest
  | _, _ => l
  end.

(** [STAND::unexpand_tree_list]: the loop, then [std::erase_if] on zero
    density. *)
Definition unexpand_tree_list (s : STAND) : bool * STAND :=
  let l := unexpand_loop (length (trees s)) (trees s) in
  (true, set_trees (List.filter (fun t => negb (Qeqb (Tree.tph t) 0)) l) s).

(** ** Ingrowth: allocation to species groups, species and plots *)

(** [m[k]] of a [std::unordered_map<int,V>]: the value under [k], or the
    value-initialised default when [k] is absent. *)
Fixpoint map_get {V : Type} (d : V) (k : Z) (m : list (Z * V)) : V :=
  match m with
  | [] => d
  | (k', v) :: r => if (k' =? k)%Z then v else map_get d k r
  end.

(** [m[k] = f (m[k])]: an absent key is first inserted with the default. *)
Fixpoint map_update {V : Type} (d : V) (k : Z) (f : V -> V) (m : list (Z * V))
    : list (Z * V) :=
  match m with
  | [] => [(k, f d)]
  | (k', v) :: r => if (k' =? k)%Z then (k', f v) :: r else (k', v) :: map_update d k f r
  end.

(** [m.find(k)] and [m.at(k)]. *)
Fixpoint map_find {V : Type} (k : Z) (m : list (Z * V)) : option V :=
  match m with
  | [] => None
  | (k', v) :: r => if (k' =? k)%Z then Some v else map_find k r
  end.

(** The ingrowth species-group cross walk. *)
Definition cross_walk : list (Z * Z) :=
  [(531, 531); (746, 746); (318, 318); (241, 241); (379, 379); (375, 379); (371, 379);
   (12, 12); (316, 316); (97, 97); (95, 97); (94, 97); (129, 129); (9990, 9990);
   (9991, 9991)]%Z.

(** The key under which [build_ba_spp_map] files a tree: its species when
    the cross walk lists it, else other softwoods or other hardwoods. *)
Definition species_key (t : TREE) : Z :=
  match map_find (Tree.spp t) cross_walk with
  | Some _ => Tree.spp t
  | None => if Tree.is_softwood t then 9991%Z else 9990%Z
  end.

Definition group_key (t : TREE) : Z :=
  match map_find (Tree.spp t) cross_walk with
  | Some g => g
  | None => if Tree.is_softwood t then 9991%Z else 9990%Z
  end.

(** The loop body of [build_ba_spp_map].  The plot map is keyed by [int],
    the plot id of a tree is an [unsigned long]. *)
Definition build_ba_spp_step (s : STAND) (t : TREE) : STAND :=
  let b := Tree.ba t in
  let s := set_ba_spp (map_update 0 (species_key t) (fun x => x + b) (ba_spp s)) s in
  let s := set_ba_grp_spp (map_update 0 (group_key t) (fun x => x + b) (ba_grp_spp s)) s in
  set_plot_species_ba
    (map_update [] (to_int (Tree.plot_id t)) (map_update 0 (species_key t) (fun x => x + b))
       (plot_species_ba s)) s.

(** [STAND::build_ba_spp_map]. *)
Definition build_ba_spp_map (s : STAND) : STAND := foldl build_ba_spp_step s (trees s).

(** The coefficients [b] of [ingrowth_composition], one row per group. *)
Definition composition_b : list Q :=
  [-2.5645;  0.0020; 2.6624; -0.0010; -0.0127;
   -3.0291;  0.0027; 2.7779;  0.0211;  0.0221;
   -0.6566;  0.0123; 1.7669; -0.0421; -0.0283;
   -1.2500; -0.0132; 2.0470; -0.0514;  0.0351;
   -5.1074; -0.0117; 3.8817;  0.0501;  0.0726;
   -2.9832; -0.0020; 2.4837;  0.0673; -0.0167;
   -4.7182;  0.0070; 3.2269;  0.1000;  0.0188].

(** The row of [b] a group code selects, if any. *)
Definition composition_row (spp : Z) : option nat :=
  if ((spp =? 379) || (spp =? 375) || (spp =? 371))%Z then Some 0%nat
  else if (spp =? 12)%Z then Some 5%nat
  else if (spp =? 316)%Z then Some 10%nat
  else if ((spp =? 97) || (spp =? 95) || (spp =? 94))%Z then Some 15%nat
  else if (spp =? 129)%Z then Some 20%nat
  else if ((spp =? 9990) || (spp =? 746) || (spp =? 531) || (spp =? 318))%Z then Some 25%nat
  else if (spp =? 9991)%Z then Some 30%nat
  else None.

(** The share a group receives before normalisation. *)
Definition group_percent (s : STAND) (spp : Z) (sba : Q) : Q :=
  let b := coef composition_b in
  let pba := sba / ba s in
  let percent :=
    match composition_row spp with
    | Some r => b r + b (r + 1)%nat * ba s + b (r + 2)%nat * pba + b (r + 3)%nat * csi s
                + b (r + 4)%nat * MinDBH s
    | None => 0
    end in
  1 / (1 + exp (- percent)).

(** The first loop: the shares by group and their total. *)
Definition group_percents (s : STAND) : list (Z * Q) * Q :=
  foldl (fun '(m, total) '(spp, sba) =>
           let percent := group_percent s spp sba in
           (map_update 0 spp (fun x => x + percent) m, total + percent))
        ([], 0) (ba_grp_spp s).

(** The second loop: each share divided by the total and scaled by [IPH]. *)
Definition normalize (IPH total_percent : Q) (m : list (Z * Q)) : list (Z * Q) :=
  map (fun '(spp, sgp) => (spp, sgp / total_percent * IPH)) m.

(** The density of the record created for species [spp] on one plot, when
    the plot holds a positive share of the species. *)
Definition plot_allocation (spp : Z) (sba spp_ingrowth : Q) (plot : Z * list (Z * Q))
    : option (Z * Z * Q) :=
  let plot_spp_percent := map_get 0 spp (snd plot) / sba in
  if Qltb 0 plot_spp_percent then Some (fst plot, spp, spp_ingrowth * plot_spp_percent)
  else None.

(** The third loop without the tree construction: the (plot, species,
    density) triples, in the order the records are created; [None] when a
    [cross_walk.at] throws. *)
Fixpoint allocation (s : STAND) (sgp : list (Z * Q)) (spps : list (Z * Q))
    : option (list (Z * Z * Q)) :=
  match spps with
  | [] => Some []
  | (spp, sba) :: rest =>
    match map_find spp cross_walk with
    | None => None
    | Some g =>
      let spp_ingrowth := map_get 0 g sgp * sba / map_get 0 g (ba_grp_spp s) in
      match allocation s sgp rest with
      | None => None
      | Some l =>
        Some (omap (plot_allocation spp sba spp_ingrowth) (plot_species_ba s) ++ l)
      end
    end
  end.

Definition ingrowth_allocation (IPH : Q) (s : STAND) : option (list (Z * Z * Q)) :=
  let '(m, total_percent) := group_percents s in
  allocation s (normalize IPH total_percent m) (ba_spp s).

Section Composition.
Variable resolve : Z -> option Tree.SPECIES.

(** The new records: minimum diameter, no height, no crown ratio, and tree
    ids issued past the current maximum. *)
Fixpoint new_trees (MinDBH : Q) (max_id : Z) (l : list (Z * Z * Q)) : option (list TREE * Z) :=
  match l with
  | [] => Some ([], max_id)
  | (plot, spp, new_tph) :: rest =>
    let id := to_ulong (max_id + 1) in
    match Tree.TREE_new resolve (to_ulong plot) id spp MinDBH 0 new_tph 0 0 0 with
    | None => None
    | Some t =>
      match new_trees MinDBH id rest with
      | None => None
      | Some (ts, last) => Some (t :: ts, last)
      end
    end
  end.

(** Reading [psba[spp]] inserts a zero entry where the plot has none. *)
Definition touch_plots (spps : list (Z * Q)) (plots : list (Z * list (Z * Q)))
    : list (Z * list (Z * Q)) :=
  foldl (fun ps '(spp, _) => map (fun '(plot, psba) => (plot, map_update 0 spp id psba)) ps)
        plots spps.

(** [STAND::ingrowth_composition]; [None] when an exception leaves it. *)
Definition ingrowth_composition (IPH : Q) (s : STAND) : option STAND :=
  match ingrowth_allocation IPH s with
  | None => None
  | Some l =>
    match new_trees (MinDBH s) (max_tree_id s) l with
    | None => None
    | Some (ts, last) =>
      Some (set_plot_species_ba (touch_plots (ba_spp s) (plot_species_ba s))
              (set_max_tree_id last (set_trees (trees s ++ ts) s)))
    end
  end.

End Composition.

End WithLibm.

End Stand.

(** * The stand: crown competition, species count, tree statistics *)

Module Statistics.
Import Tree(TREE).
Import Stand(STAND).

(** The members of the class [STAND] written by [compute_tree_statistics],
    followed by the local variables of the function.  [Stand.STAND] carries
    eight of the members; the record carries them all, so that the loop reads
    as in the source. *)
Record STATISTICS : Type := mkSTATISTICS {
  average_dbh : Q;
  average_dbh_10 : Q;
  average_dbh_sw : Q;
  average_dbh_hw : Q;
  average_dbh_10_sw : Q;
  average_dbh_10_hw : Q;
  average_height_sw : Q;
  average_height_hw : Q;
  average_sg : Q;
  average_sg_10 : Q;
  min_dbh : Q;
  max_dbh : Q;
  sdi : Q;
  sdi_10 : Q;
  dbh_sd : Q;
  dbh_10_sd : Q;
  t_tph_sw : Q;
  t_tph_hw : Q;
  t_tph_10 : Q;
  dbh2 : Q;
  dbh_102 : Q
}.

(** The assignments that open the function; the two standard deviations
    keep the value they had. *)
Definition statistics_init (d : STATISTICS) : STATISTICS :=
  mkSTATISTICS 0 0 0 0 0 0 0 0 0 0 9999 0 0 0 (dbh_sd d) (dbh_10_sd d) 0 0 0 0 0.

(** The copy of the eight members into [Stand.STAND]. *)
Definition store (a : STATISTICS) (s : STAND) : STAND :=
  Stand.mkSTAND (Stand.Region s) (Stand.year s) (Stand.csi s) (Stand.ccf s)
    (Stand.elevation s) (average_height_sw a) (average_height_hw a) (average_sg a)
    (average_sg_10 a) (Stand.CDEF s) (Stand.topht s) (Stand.ba_sw s) (Stand.ba_hw s)
    (Stand.ba s) (Stand.tph s) (Stand.qmd s) (Stand.n_species s) (min_dbh a) (max_dbh a)
    (Stand.min_dbh_10 s) (Stand.rd s) (Stand.rd_10 s) (sdi_10 a) (sdi a) (Stand.bf_ba s)
    (Stand.ithw_ba s) (Stand.use_sbw_mod s) (Stand.use_hw_mod s) (Stand.use_thin_mod s)
    (Stand.use_ingrowth s) (Stand.cut_point s) (Stand.MinDBH s) (Stand.initialized s)
    (Stand.percent_ba_removed s) (Stand.ba_pre_thin s) (Stand.qmd_ratio s)
    (Stand.thin_year s) (Stand.trees s) (Stand.max_tree_id s) (Stand.ba_spp s)
    (Stand.ba_grp_spp s) (Stand.plot_species_ba s).

Definition set_ccf (v : Q) (s : STAND) : STAND :=
  Stand.mkSTAND (Stand.Region s) (Stand.year s) (Stand.csi s) v
    (Stand.elevation s) (Stand.average_height_sw s) (Stand.average_height_hw s)
    (Stand.average_sg s) (Stand.average_sg_10 s) (Stand.CDEF s) (Stand.topht s)
    (Stand.ba_sw s) (Stand.ba_hw s) (Stand.ba s) (Stand.tph s) (Stand.qmd s)
    (Stand.n_species s) (Stand.min_dbh s) (Stand.max_dbh s) (Stand.min_dbh_10 s)
    (Stand.rd s) (Stand.rd_10 s) (Stand.sdi_10 s) (Stand.sdi s) (Stand.bf_ba s)
    (Stand.ithw_ba s) (Stand.use_sbw_mod s) (Stand.use_hw_mod s) (Stand.use_thin_mod s)
    (Stand.use_ingrowth s) (Stand.cut_point s) (Stand.MinDBH s) (Stand.initialized s)
    (Stand.percent_ba_removed s) (Stand.ba_pre_thin s) (Stand.qmd_ratio s)
    (Stand.thin_year s) (Stand.trees s) (Stand.max_tree_id s) (Stand.ba_spp s)
    (Stand.ba_grp_spp s) (Stand.plot_species_ba s).

Definition set_n_species (v : Z) (s : STAND) : STAND :=
  Stand.mkSTAND (Stand.Region s) (Stand.year s) (Stand.csi s) (Stand.ccf s)
    (Stand.elevation s) (Stand.average_height_sw s) (Stand.average_height_hw s)
    (Stand.average_sg s) (Stand.average_sg_10 s) (Stand.CDEF s) (Stand.topht s)
    (Stand.ba_sw s) (Stand.ba_hw s) (Stand.ba s) (Stand.tph s) (Stand.qmd s)
    v (Stand.min_dbh s) (Stand.max_dbh s) (Stand.min_dbh_10 s)
    (Stand.rd s) (Stand.rd_10 s) (Stand.sdi_10 s) (Stand.sdi s) (Stand.bf_ba s)
    (Stand.ithw_ba s) (Stand.use_sbw_mod s) (Stand.use_hw_mod s) (Stand.use_thin_mod s)
    (Stand.use_ingrowth s) (Stand.cut_point s) (Stand.MinDBH s) (Stand.initialized s)
    (Stand.percent_ba_removed s) (Stand.ba_pre_thin s) (Stand.qmd_ratio s)
    (Stand.thin_year s) (Stand.trees s) (Stand.max_tree_id s) (Stand.ba_spp s)
    (Stand.ba_grp_spp s) (Stand.plot_species_ba s).

(** ** Species count and largest tree id *)

(** [std::set<int>::emplace]: the set as the list of its members, each once. *)
Definition emplace (k : Z) (species : list Z) : list Z :=
  if existsb (Z.eqb k) species then species else k :: species.

(** [STAND::compute_n_species]. *)
Definition compute_n_species (s : STAND) : STAND :=
  let species := foldl (fun acc t => emplace (Tree.spp t) acc) [] (Stand.trees s) in
  set_n_species (to_int (Z.of_nat (length species))) s.

(** [STAND::find_max_tree_id]. *)
Definition find_max_tree_id (s : STAND) : Z :=
  foldl (fun t_max_tree_id t =>
           if (t_max_tree_id <? Tree.tree_id t)%Z then Tree.tree_id t else t_max_tree_id)
        0%Z (Stand.trees s).

(** ** Crown competition factor *)

(** [STAND::compute_ccf]. *)
Definition compute_ccf (s : STAND) : STAND :=
  set_ccf (foldl (fun ccf t => ccf + Tree.mca t) 0 (Stand.trees s)) s.

Section WithLibm.
Context `{Libm}.

(** ** Height to crown base *)

(** The body of the loop of [predict_hcb] on one tree. *)
Definition predict_hcb_tree (hcb_fixed_parms : list Q) (ccf : Q) (m : Growth.MEMBERS)
    (t : TREE) : TREE :=
  if Qeqb (Tree.hcb t) 0 then
    if Qltb 0 (Tree.cr t) then Tree.set_hcb ((1 - Tree.cr t) * Tree.ht t) t
    else
      let t := Growth.hcb_pred hcb_fixed_parms ccf m t in
      Tree.set_cr (1 - Tree.hcb t / Tree.ht t) t
  else t.

(** [STAND::predict_hcb]; [ms] holds the members of the trees that
    [Stand.STAND] leaves out, position by position. *)
Definition predict_hcb (hcb_fixed_parms : list Q) (ms : list Growth.MEMBERS) (s : STAND)
    : STAND :=
  Stand.set_trees
    (zip_with (predict_hcb_tree hcb_fixed_parms (Stand.ccf s)) ms (Stand.trees s)) s.

(** ** Tree statistics *)

(** The body of the loop of [compute_tree_statistics]. *)
Definition statistics_step (a : STATISTICS) (t : TREE) : STATISTICS :=
  let w := Tree.dbh t * Tree.tph t in
  let big := Qleb 10 (Tree.dbh t) in
  let sw := Tree.is_softwood t in
  mkSTATISTICS
    (average_dbh a + w)
    (if big then average_dbh_10 a + w else average_dbh_10 a)
    (if sw then average_dbh_sw a + w else average_dbh_sw a)
    (if sw then average_dbh_hw a else average_dbh_hw a + w)
    (if sw && big then average_dbh_10_sw a + w else average_dbh_10_sw a)
    (if negb sw && big then average_dbh_10_hw a + w else average_dbh_10_hw a)
    (if sw then average_height_sw a + Tree.ht t * Tree.tph t else average_height_sw a)
    (if sw then average_height_hw a else average_height_hw a + Tree.ht t * Tree.tph t)
    (average_sg a + Tree.get_sg t * Tree.tph t)
    (if big then average_sg_10 a + Tree.get_sg t * Tree.tph t else average_sg_10 a)
    (if Qltb (Tree.dbh t) (min_dbh a) then Tree.dbh t else min_dbh a)
    (if Qltb (max_dbh a) (Tree.dbh t) then Tree.dbh t else max_dbh a)
    (sdi a + pow (Tree.dbh t / 25.4) 1.6 * Tree.tph t)
    (if big then sdi_10 a + pow (Tree.dbh t / 25.4) 1.6 * Tree.tph t else sdi_10 a)
    (dbh_sd a)
    (dbh_10_sd a)
    (if sw then t_tph_sw a + Tree.tph t else t_tph_sw a)
    (if sw then t_tph_hw a else t_tph_hw a + Tree.tph t)
    (if big then t_tph_10 a + Tree.tph t else t_tph_10 a)
    (dbh2 a + Tree.dbh t * Tree.dbh t * Tree.tph t)
    (if big then dbh_102 a + Tree.dbh t * Tree.dbh t * Tree.tph t else dbh_102 a).

(** The four conditional blocks that follow the loop; [tph] is the density
    of the stand as [compute_ba_tph_bal] left it. *)
Definition statistics_all (tph : Q) (a : STATISTICS) : STATISTICS :=
  if Qltb 0 tph then
    let average_dbh' := average_dbh a / tph in
    let dbh2' := dbh2 a / tph in
    mkSTATISTICS average_dbh' (average_dbh_10 a) (average_dbh_sw a) (average_dbh_hw a)
      (average_dbh_10_sw a) (average_dbh_10_hw a) (average_height_sw a)
      (average_height_hw a) (average_sg a / tph) (average_sg_10 a) (min_dbh a) (max_dbh a)
      (sdi a) (sdi_10 a)
      (sqrt ((dbh2' - average_dbh' * average_dbh') * tph / (tph - 1)))
      (dbh_10_sd a) (t_tph_sw a) (t_tph_hw a) (t_tph_10 a) dbh2' (dbh_102 a)
  else a.

Definition statistics_10 (a : STATISTICS) : STATISTICS :=
  if Qltb 0 (t_tph_10 a) then
    let average_dbh_10' := average_dbh_10 a / t_tph_10 a in
    let dbh_102' := dbh_102 a / t_tph_10 a in
    mkSTATISTICS (average_dbh a) average_dbh_10' (average_dbh_sw a) (average_dbh_hw a)
      (average_dbh_10_sw a) (average_dbh_10_hw a) (average_height_sw a)
      (average_height_hw a) (average_sg a) (average_sg_10 a / t_tph_10 a) (min_dbh a)
      (max_dbh a) (sdi a) (sdi_10 a) (dbh_sd a)
      (sqrt ((dbh_102' - average_dbh_10' * average_dbh_10') * t_tph_10 a
             / (t_tph_10 a - 1)))
      (t_tph_sw a) (t_tph_hw a) (t_tph_10 a) (dbh2 a) dbh_102'
  else a.

Definition statistics_sw (a : STATISTICS) : STATISTICS :=
  if Qltb 0 (t_tph_sw a) then
    mkSTATISTICS (average_dbh a) (average_dbh_10 a) (average_dbh_sw a / t_tph_sw a)
      (average_dbh_hw a) (average_dbh_10_sw a / t_tph_sw a) (average_dbh_10_hw a)
      (average_height_sw a / t_tph_sw a) (average_height_hw a) (average_sg a)
      (average_sg_10 a) (min_dbh a) (max_dbh a) (sdi a) (sdi_10 a) (dbh_sd a)
      (dbh_10_sd a) (t_tph_sw a) (t_tph_hw a) (t_tph_10 a) (dbh2 a) (dbh_102 a)
  else a.

Definition statistics_hw (a : STATISTICS) : STATISTICS :=
  if Qltb 0 (t_tph_hw a) then
    mkSTATISTICS (average_dbh a) (average_dbh_10 a) (average_dbh_sw a)
      (average_dbh_hw a / t_tph_hw a) (average_dbh_10_sw a)
      (average_dbh_10_hw a / t_tph_hw a) (average_height_sw a)
      (average_height_hw a / t_tph_hw a) (average_sg a) (average_sg_10 a) (min_dbh a)
      (max_dbh a) (sdi a) (sdi_10 a) (dbh_sd a) (dbh_10_sd a) (t_tph_sw a) (t_tph_hw a)
      (t_tph_10 a) (dbh2 a) (dbh_102 a)
  else a.

(** [STAND::compute_tree_statistics]: the members as the call leaves them,
    and the stand holding those it carries; [d] gives the members before the
    call. *)
Definition compute_tree_statistics (d : STATISTICS) (s : STAND) : STATISTICS * STAND :=
  let a := foldl statistics_step (statistics_init d) (Stand.trees s) in
  let a := statistics_hw (statistics_sw (statistics_10 (statistics_all (Stand.tph s) a))) in
  (a, store a s).

End WithLibm.

End Statistics.

(** * The stand: crown competition factor in larger trees *)

Module Ccfl.
Import Tree(TREE).
Import Stand(STAND).
Import Growth(MEMBERS).

Definition set_ccfl (v : Q) (m : MEMBERS) : MEMBERS :=
  Growth.mkMEMBERS v (Growth.ccfl_hw m) (Growth.ccfl_sw m) (Growth._formB m)
    (Growth._low_risk m) (Growth.ddbh_p m) (Growth.dht_p m) (Growth.htpred_p m)
    (Growth.hcb_p m).
Definition set_ccfl_hw (v : Q) (m : MEMBERS) : MEMBERS :=
  Growth.mkMEMBERS (Growth.ccfl m) v (Growth.ccfl_sw m) (Growth._formB m)
    (Growth._low_risk m) (Growth.ddbh_p m) (Growth.dht_p m) (Growth.htpred_p m)
    (Growth.hcb_p m).
Definition set_ccfl_sw (v : Q) (m : MEMBERS) : MEMBERS :=
  Growth.mkMEMBERS (Growth.ccfl m) (Growth.ccfl_hw m) v (Growth._formB m)
    (Growth._low_risk m) (Growth.ddbh_p m) (Growth.dht_p m) (Growth.htpred_p m)
    (Growth.hcb_p m).

(** The local variables of [compute_ccfl]. *)
Record ccfl_locals : Type := mkccfl_locals {
  _ccfl_sw : Q;
  _ccfl : Q;
  last_sw_dbh : Q;
  last_dbh : Q;
  pending_sw : Q;
  pending : Q
}.

Definition ccfl_locals_init : ccfl_locals := mkccfl_locals 0 0 9999 9999 0 0.

(** The body of the loop on one tree: the ladder of [compute_ba_tph_bal]
    with the crown area [mca] in the place of the basal area, writing
    [ccfl], [ccfl_sw] and [ccfl_hw]; [None] is a branch that throws
    [std::runtime_error]. *)
Definition ccfl_tree (l : ccfl_locals) (t : TREE) (m : MEMBERS)
    : option (ccfl_locals * MEMBERS) :=
  match Stand.rank_step (_ccfl l) (last_dbh l) (pending l) (Tree.dbh t) (Tree.mca t) with
  | None => None
  | Some (v, (total, last, held)) =>
    let m := set_ccfl v m in
    let l := mkccfl_locals (_ccfl_sw l) total (last_sw_dbh l) last (pending_sw l) held in
    if Tree.is_softwood t then
      match Stand.rank_step (_ccfl_sw l) (last_sw_dbh l) (pending_sw l) (Tree.dbh t)
              (Tree.mca t) with
      | None => None
      | Some (v, (total, last, held)) =>
        let m := set_ccfl_sw v m in
        let l := mkccfl_locals total (_ccfl l) last (last_dbh l) held (pending l) in
        Some (l, set_ccfl_hw (Growth.ccfl m - Growth.ccfl_sw m) m)
      end
    else
      let m := set_ccfl_sw (_ccfl_sw l) m in
      Some (l, set_ccfl_hw (Growth.ccfl m - Growth.ccfl_sw m) m)
  end.

(** The loop over the sorted positions; [ms] holds the members of the trees
    that [Tree.TREE] leaves out, position by position. *)
Fixpoint ccfl_loop (idx : list nat) (l : ccfl_locals) (v : list TREE) (ms : list MEMBERS)
    : option (list MEMBERS) :=
  match idx with
  | [] => Some ms
  | i :: rest =>
    match v !! i, ms !! i with
    | Some t, Some m =>
      match ccfl_tree l t m with
      | None => None
      | Some (l', m') => ccfl_loop rest l' v (<[i := m']> ms)
      end
    | _, _ => None
    end
  end.

(** [STAND::compute_ccfl]. *)
Definition compute_ccfl (ms : list MEMBERS) (s : STAND) : option (list MEMBERS) :=
  ccfl_loop (Stand.sort_indices (Stand.trees s) true) ccfl_locals_init (Stand.trees s) ms.

(** ** Notions used in the statements *)

(** Crown area in the trees of [l] whose diameter is strictly greater than
    [d]; with [sw], in the softwoods among them. *)
Definition mca_larger (sw : bool) (d : Q) (l : list TREE) : Q :=
  Qsum (map (fun t => if Qltb d (Tree.dbh t) && (negb sw || Tree.is_softwood t)
                      then Tree.mca t else 0) l).

(** Two sets of members that differ at most in [ccfl], [ccfl_sw] and
    [ccfl_hw]. *)
Definition same_but_ccfl (m m' : MEMBERS) : Prop :=
  m' = set_ccfl_hw (Growth.ccfl_hw m') (set_ccfl_sw (Growth.ccfl_sw m')
         (set_ccfl (Growth.ccfl m') m)).

(** A tree with its crown area in the place of its basal area, and the
    locals of [compute_ccfl] read as those of [compute_ba_tph_bal]. *)
Definition as_ba (t : TREE) : TREE := Tree.set_ba (Tree.mca t) t.

Definition as_bal_locals (l : ccfl_locals) : Stand.bal_locals :=
  Stand.mkbal_locals (_ccfl_sw l) (_ccfl l) (last_sw_dbh l) (last_dbh l) (pending_sw l)
    (pending l).

End Ccfl.

(** * The R entry point *)

Module Driver.

(** One row of the tree vectors handed to [grow_acd]. *)
Record tree_row : Type := mktree_row {
  r_plot_id : Z; r_tree_id : Z; r_spp : Z;
  r_dbh : Q; r_ht : Q; r_expf : Q; r_cr : Q;
  r_form : Z; r_risk : Z
}.

Section GrowAcd.
Context `{Libm}.
Variable resolve : Z -> option Tree.SPECIES.

(** [STAND::grow].  Its growth equations are not needed for what is stated
    about the entry point, which holds for any behaviour of the call. *)
Variable grow : Z -> Stand.STAND -> error + Stand.STAND.

(** The loop that constructs the trees and appends them to the stand. *)
Fixpoint ingest (in_cm ft_m ac_ha : Q) (rows : list tree_row) (s : Stand.STAND)
    : option Stand.STAND :=
  match rows with
  | [] => Some s
  | r :: rest =>
    match Tree.TREE_new resolve (to_ulong (r_plot_id r)) (to_ulong (r_tree_id r)) (r_spp r)
            (r_dbh r * in_cm) (r_ht r * ft_m) (r_expf r * ac_ha) (r_cr r)
            (r_form r) (r_risk r) with
    | None => None
    | Some t => ingest in_cm ft_m ac_ha rest (Stand.set_trees (Stand.trees s ++ [t]) s)
    end
  end.

(** The rows written back: records with a nonzero expand id leave zeros. *)
Definition extract (in_cm ft_m ac_ha : Q) (t : Tree.TREE) : Z * Z * Z * Q * Q * Q * Q :=
  if (Tree.expand_tree_id t =? 0)%Z then
    (to_int (Tree.plot_id t), to_int (Tree.tree_id t), Tree.spp t,
     Tree.dbh t / in_cm, Tree.ht t / ft_m, Tree.tph t / ac_ha, Tree.cr t)
  else (0%Z, 0%Z, 0%Z, 0, 0, 0, 0).

(** [grow_acd], on rows of equal length by construction; [None] is the value
    [Rcpp::wrap(0)] returned when the vectors are empty or an exception was
    caught. *)
Definition grow_acd (periods : Z) (Region : string) (year units : Z) (csi elev cdef : Q)
    (use_sbw use_hw use_thin use_ingrowth : Z) (cut_point MinDBH : Q)
    (rows : list tree_row) : option (list (Z * Z * Z * Q * Q * Q * Q)) :=
  match rows with
  | [] => None
  | _ =>
    let ft_m := if (units =? 0)%Z then 1 else 0.3048 in
    let in_cm := if (units =? 0)%Z then 1 else 2.54 in
    let ac_ha := if (units =? 0)%Z then 1 else 2.47 in
    match Stand.STAND_new Region year (csi * ft_m) (elev * ft_m) cdef
            (negb (use_sbw =? 0)%Z) (negb (use_hw =? 0)%Z) (negb (use_thin =? 0)%Z)
            use_ingrowth cut_point (MinDBH * in_cm) with
    | inl _ => None
    | inr s =>
      match ingest in_cm ft_m ac_ha rows s with
      | None => None
      | Some s =>
        match grow periods s with
        | inl _ => None
        | inr s => Some (map (extract in_cm ft_m ac_ha) (Stand.trees s))
        end
      end
    end
  end.

End GrowAcd.

End Driver.

(** * A rational instance of the math library

    Used only to run the model on concrete inputs: [exp_q] is positive,
    increasing and 1 at 0; [pow_q] raises a positive base to the truncated
    exponent. *)
Definition exp_q (x : Q) : Q := if Qltb x 0 then 1 / (1 - x) else 1 + x.
Definition log_q (x : Q) : Q := x - 1.
Definition sqrt_q (x : Q) : Q := if Qltb x 1 then x else (x + 1) / 2.
Definition pow_q (b e : Q) : Q := if Qltb 0 b then Qpower b (trunc e) else 0.

Definition libm_q : Libm := {| exp := exp_q; log := log_q; sqrt := sqrt_q; pow := pow_q |}.

(** * Sample inputs

    Records on which the statements below are exercised.  The coefficient
    sets are placeholders of the right shape: the tables of
    [parameters.cpp] are not among the sources. *)
Module Examples.

Definition softwoods : list Z := [12; 94; 95; 97; 129; 241; 9991]%Z.
Definition hardwoods : list Z := [316; 318; 371; 375; 379; 531; 746; 833; 9990]%Z.

Definition species_q (sw : bool) : Tree.SPECIES :=
  Tree.mkSPECIES sw 0.4 3.0 (Tree.mkCROWN_PARMS 1.5 0.5) (Tree.mkCROWN_PARMS 1.2 0.1)
    [0.1; 0.5; 0.5; 0.01; 1.0; 10.0] [-3; 0; 1; 0; 0].

Definition resolve_q (spp : Z) : option Tree.SPECIES :=
  if existsb (Z.eqb spp) softwoods then Some (species_q true)
  else if existsb (Z.eqb spp) hardwoods then Some (species_q false)
  else None.

Definition blank : Tree.TREE :=
  Tree.mkTREE 0 0 0 0 false 0 0 0 0 0 0 0 0 0 0 0 0 0 0 0 0 0 0 0 0 1
    (Tree.mkCROWN_PARMS 0 0) (Tree.mkCROWN_PARMS 0 0) [] [].

Definition tree_q (plot id spp : Z) (dbh ht tph cr : Q) : Tree.TREE :=
  default blank (Tree.TREE_new (H := libm_q) resolve_q plot id spp dbh ht tph cr 1 1).

(** The balsam fir of the scenario: 10 cm, 8 m, 40 trees/ha, crown ratio 0.6. *)
Definition fir : Tree.TREE := tree_q 1 1 12 10 8 40 0.6.

(** The same tree with its crown ratio entered as a percentage. *)
Definition fir_pct : Tree.TREE := tree_q 1 1 12 10 8 40 60.

(** A red spruce and a red maple on two plots. *)
Definition spruce : Tree.TREE := tree_q 1 2 97 20 15 80 0.5.
Definition maple : Tree.TREE := tree_q 2 3 316 15 12 50 0.4.
Definition mixed : list Tree.TREE := [fir; spruce; maple].

(** Four records, three of them of the same diameter. *)
Definition tied : list Tree.TREE :=
  [fir; tree_q 1 2 316 10 8 30 0.6; spruce; tree_q 2 4 12 10 9 20 0.5].

(** A sequence of draws within the range of the distribution. *)
Definition jitter_q (k : nat) : Q := if Nat.even k then 0.004 else -0.003.

Definition blank_stand : Stand.STAND :=
  Stand.mkSTAND "ME" 0 1 0 0 0 0 0 0 (-1) 0 0 0 0 0 0 0 0 0 0 0 0 0 0 0 0
    false false false false 0 0 false 0 0 0 (-1) [] 0 [] [] [].

(** A stand in Maine: site index 16 m, elevation 200 m, no defoliation
    record, the given switches, cut point and minimum diameter. *)
Definition stand_q (use_thin : bool) (cut_point : Q) (l : list Tree.TREE) : Stand.STAND :=
  match Stand.STAND_new "ME" 2021 16 200 (-1) false false use_thin 0 cut_point 8 with
  | inr s => Stand.set_trees l s
  | inl _ => blank_stand
  end.

(** The stand of [stand_q] once [compute_ba_tph_bal] has run. *)
Definition measured (l : list Tree.TREE) : Stand.STAND :=
  default blank_stand (Stand.compute_ba_tph_bal (H := libm_q) (stand_q false 0 l)).


(** The stand of [stand_q] with the thinning modifiers on and a thinning on
    record in 2020: 30 % of a basal area of 30 m2/ha removed. *)
Definition thinned_stand (l : list Tree.TREE) : Stand.STAND :=
  let s := stand_q true 0 l in
  Stand.mkSTAND (Stand.Region s) (Stand.year s) (Stand.csi s) (Stand.ccf s) (Stand.elevation s)
    (Stand.average_height_sw s) (Stand.average_height_hw s) (Stand.average_sg s)
    (Stand.average_sg_10 s) (Stand.CDEF s) (Stand.topht s) (Stand.ba_sw s) (Stand.ba_hw s)
    (Stand.ba s) (Stand.tph s) (Stand.qmd s) (Stand.n_species s) (Stand.min_dbh s)
    (Stand.max_dbh s) (Stand.min_dbh_10 s) (Stand.rd s) (Stand.rd_10 s) (Stand.sdi_10 s)
    (Stand.sdi s) (Stand.bf_ba s) (Stand.ithw_ba s) (Stand.use_sbw_mod s) (Stand.use_hw_mod s)
    (Stand.use_thin_mod s) (Stand.use_ingrowth s) (Stand.cut_point s) (Stand.MinDBH s)
    (Stand.initialized s) 0.3 30 1.1 2020 (Stand.trees s) (Stand.max_tree_id s)
    (Stand.ba_spp s) (Stand.ba_grp_spp s) (Stand.plot_species_ba s).

End Examples.

(** Members and tables for the records of [Examples], of the right shape. *)
Module Samples.

Definition hcb_fixed_q : list Q := [0.5; -0.01; 0.02; -0.1; 0.1; 0.005].

Definition members_q (t : Tree.TREE) : Growth.MEMBERS :=
  Growth.MEMBERS_new [-1; 0.5; -0.01; 0.3; -0.02; 0.1] [0.1; 0.05; 1.2; 0; 0.3; 0.5]
    [20; 2; 0.05; 1; 0.001; 0.1] 0.1 t.

(** A red maple of form code 2 (form B) and risk code 3 (high risk). *)
Definition poor_maple : Tree.TREE :=
  default Examples.blank
    (Tree.TREE_new (H := libm_q) Examples.resolve_q 2 5 316 15 12 50 0.4 2 3).


(** A record entered without height to crown base and without crown ratio. *)
Definition bare_fir : Tree.TREE := Examples.tree_q 1 7 12 10 8 40 0.

(** The members written by [compute_tree_statistics] before its first call. *)
Definition statistics_q : Statistics.STATISTICS :=
  Statistics.mkSTATISTICS 0 0 0 0 0 0 0 0 0 0 0 0 0 0 0 0 0 0 0 0 0.

(** A stand in Maine with a cumulative defoliation of 20 %, the budworm
    modifiers on and the thinning modifiers off, once [compute_ba_tph_bal]
    has run. *)
Definition defoliated (l : list Tree.TREE) : Stand.STAND :=
  match Stand.STAND_new "ME" 2021 16 200 20 true false false 0 0 8 with
  | inr s => default Examples.blank_stand
               (Stand.compute_ba_tph_bal (H := libm_q) (Stand.set_trees l s))
  | inl _ => Examples.blank_stand
  end.

(** The record at a position of a stand. *)
Definition record (i : nat) (s : Stand.STAND) : Tree.TREE :=
  default Examples.blank (Stand.trees s !! i).

(** A balsam fir handed over in imperial units with a plot id of -1:
    4 in, 30 ft, 40 trees per acre. *)
Definition imperial_fir : Tree.TREE :=
  default Examples.blank
    (Tree.TREE_new (H := libm_q) Examples.resolve_q (to_ulong (-1)) (to_ulong 1) 12
       (4 * 2.54) (30 * 0.3048) (40 * 2.47) 0.6 1 1).

(** A measured stand with its maps built and its largest tree id on record,
    and the same stand after the allocation of 25 recruits per hectare. *)
Definition recruiting : Stand.STAND :=
  let s := Stand.build_ba_spp_map (Examples.measured Examples.mixed) in
  Stand.set_max_tree_id (Statistics.find_max_tree_id s) s.

Definition recruited : Stand.STAND :=
  default Examples.blank_stand
    (Stand.ingrowth_composition (H := libm_q) Examples.resolve_q 25 recruiting).

End Samples.

(** * The properties in the words of the specification *)

Module Spec.

(** The trees in ranking order. *)
Definition ranked (v : list Tree.TREE) (use_dbh : bool) : list Tree.TREE :=
  omap (fun i => v !! i) (Stand.sort_indices v use_dbh).

(** Basal area in the trees of [l] whose diameter is strictly greater than
    [d]; with [sw], in the softwoods among them. *)
Definition ba_larger (sw : bool) (d : Q) (l : list Tree.TREE) : Q :=
  Qsum (map (fun t => if Qltb d (Tree.dbh t) && (negb sw || Tree.is_softwood t)
                      then Tree.ba t else 0) l).

(** Total density and density-weighted mean height of a list of trees. *)
Definition density (l : list Tree.TREE) : Q := Qsum (map Tree.tph l).

Definition mean_height (l : list Tree.TREE) : Q :=
  Qsum (map (fun t => Tree.ht t * Tree.tph t) l) / density l.

(** The share of each tree in the top-height cohort, the trees being taken
    tallest first and [before] being the density of the trees already taken:
    all of it while the cumulative density stays within 100, what is missing
    to reach exactly 100 for the tree that crosses it, nothing afterwards. *)
Fixpoint cohort (before : Q) (l : list Tree.TREE) : list (Tree.TREE * Q) :=
  match l with
  | [] => []
  | t :: r =>
    (t, if Qleb (before + Tree.tph t) 100 then Tree.tph t
        else if Qltb before 100 then 100 - before else 0)
    :: cohort (before + Tree.tph t) r
  end.

(** Density-weighted mean height of a cohort. *)
Definition cohort_mean_height (c : list (Tree.TREE * Q)) : Q :=
  Qsum (map (fun tw => Tree.ht (fst tw) * snd tw) c) / Qsum (map snd c).

End Spec.

(** * Notions used in the statements and proofs *)

Module Aux.

(** The properties of [exp] and [pow] that statements about survival and
    ingrowth assume. *)
Definition exp_positive `{Libm} : Prop := forall x, 0 < exp x.
Definition pow_positive `{Libm} : Prop := forall b e, 0 < b -> 0 < pow b e.

(** The key of the tree at a position. *)
Definition key_at (v : list Tree.TREE) (b : bool) (i : nat) : Q :=
  match v !! i with Some t => Stand.sort_key b t | None => 0 end.

Definition desc (v : list Tree.TREE) (b : bool) (i j : nat) : Prop :=
  key_at v b j <= key_at v b i.

(** The body of the top-height loop on the tree itself. *)
Definition topht_tree (acc : Q * Q) (t : Tree.TREE) : Q * Q :=
  let '(sum_tph, sum_ht) := acc in
  if Qleb (sum_tph + Tree.tph t) 100 then
    (sum_tph + Tree.tph t, sum_ht + Tree.ht t * Tree.tph t)
  else if Qltb sum_tph 100 then
    (100, sum_ht + Tree.ht t * (100 - sum_tph))
  else acc.

(** The ladder of [compute_ba_tph_bal] run over the trees in ranking order,
    returning them with [bal], [bal_sw] and [bal_hw] written. *)
Fixpoint bal_list (l : Stand.bal_locals) (ts : list Tree.TREE) : option (list Tree.TREE) :=
  match ts with
  | [] => Some []
  | t :: r =>
    match Stand.bal_tree l t with
    | None => None
    | Some (l', t') =>
      match bal_list l' r with
      | None => None
      | Some out => Some (t' :: out)
      end
    end
  end.

(** Two records that differ at most in [bal], [bal_sw] and [bal_hw]. *)
Definition same_but_bal (t t' : Tree.TREE) : Prop :=
  t' = Tree.set_bal_hw (Tree.bal_hw t') (Tree.set_bal_sw (Tree.bal_sw t')
         (Tree.set_bal (Tree.bal t') t)).

(** The state of the ladder after the trees [pre]: running totals, last
    diameters seen, and the totals held back for the current tie groups. *)
Definition bal_inv (pre : list Tree.TREE) (l : Stand.bal_locals) : Prop :=
  Stand._bal l == Qsum (map Tree.ba pre)
  /\ Forall (fun t => Stand.last_dbh l <= Tree.dbh t) pre
  /\ Stand.pending l == Spec.ba_larger false (Stand.last_dbh l) pre
  /\ Stand._bal_sw l == Qsum (map (fun t => if Tree.is_softwood t then Tree.ba t else 0) pre)
  /\ Forall (fun t => Tree.is_softwood t = true -> Stand.last_sw_dbh l <= Tree.dbh t) pre
  /\ Stand.pending_sw l == Spec.ba_larger true (Stand.last_sw_dbh l) pre.







(** The (plot, tree) pair that identifies a record and its copies. *)
Definition key (t : Tree.TREE) : Z * Z := (Tree.plot_id t, Tree.tree_id t).

(** [c] is a copy made of [t] by the expansion, numbered below [J] and
    perturbed by at most [delta] in diameter and height. *)
Definition copy_of (delta : Q) (t : Tree.TREE) (J : Z) (c : Tree.TREE) : Prop :=
  key c = key t
  /\ (0 < Tree.expand_tree_id c < J)%Z
  /\ Tree.spp c = Tree.spp t
  /\ Tree.cr c = Tree.cr t
  /\ Tree.hcb c = Tree.hcb t
  /\ 0 < Tree.tph c
  /\ - delta <= Tree.dbh c - Tree.dbh t /\ Tree.dbh c - Tree.dbh t <= delta
  /\ - delta <= Tree.ht c - Tree.ht t /\ Tree.ht c - Tree.ht t <= delta.

(** The expanded list as groups: the records left in place, the copies
    appended, and the keys of the original records. *)
Definition kept (gs : list (Tree.TREE * Tree.TREE * list Tree.TREE)) : list Tree.TREE :=
  map (fun g => snd (fst g)) gs.
Definition copies (gs : list (Tree.TREE * Tree.TREE * list Tree.TREE)) : list Tree.TREE :=
  concat (map snd gs).
Definition keys (gs : list (Tree.TREE * Tree.TREE * list Tree.TREE)) : list (Z * Z) :=
  map (fun g => key (fst (fst g))) gs.

(** What expanding and collapsing leaves of a record [t]: the identity, the
    species, density, crown ratio and crown base of [t], and a diameter and a
    height within [delta] of those of [t]. *)
Definition round_trip (delta : Q) (t r : Tree.TREE) : Prop :=
  key r = key t
  /\ Tree.spp r = Tree.spp t
  /\ Tree.expand_tree_id r = 0%Z
  /\ Tree.tph r == Tree.tph t
  /\ Tree.cr r == Tree.cr t
  /\ Tree.hcb r == Tree.hcb t
  /\ - delta <= Tree.dbh r - Tree.dbh t /\ Tree.dbh r - Tree.dbh t <= delta
  /\ - delta <= Tree.ht r - Tree.ht t /\ Tree.ht r - Tree.ht t <= delta.

Section Expansion.
Context `{Libm}.

(** The outer loop of the expansion, keeping for each original record the
    record left in its place and the copies appended for it. *)
Fixpoint expand_groups (jitter : nat -> Q) (threshold : Q) (orig : list Tree.TREE) (k : nat)
    : list (Tree.TREE * Tree.TREE * list Tree.TREE) :=
  match orig with
  | [] => []
  | t :: rest =>
    let '(t', added, k') := Stand.expand_record jitter threshold t k in
    (t, t', added) :: expand_groups jitter threshold rest k'
  end.

(** What the collapse makes of a record left in place and its copies. *)
Definition collapse (t0 : Tree.TREE) (cs : list Tree.TREE) : Tree.TREE :=
  if (0 <? Tree.expand_tree_id t0)%Z
  then Stand.average (foldl Stand.accumulate (Stand.weigh t0) cs)
  else t0.

(** A well-formed group: an original record, the record left in place and
    the copies, as the expansion with threshold [thr] produces them. *)
Definition group_ok (delta thr : Q) (g : Tree.TREE * Tree.TREE * list Tree.TREE) : Prop :=
  let '(t, t0, cs) := g in
  key t0 = key t
  /\ Forall (copy_of delta t (Tree.expand_tree_id t0)) cs
  /\ ((Tree.expand_tree_id t0 = 0%Z /\ t0 = t /\ cs = [])
      \/ ((0 < Tree.expand_tree_id t0)%Z
          /\ t0 = Tree.compute_attributes
                    (Tree.set_expand_tree_id (Tree.expand_tree_id t0) (Tree.set_tph thr t))
          /\ thr + Qsum (map Tree.tph cs) == Tree.tph t)).

End Expansion.

End Aux.

(** * Properties of the mathematical library assumed in further statements *)

Module Math.

(** [exp] does not decrease, and [pow] of a base that is not negative is
    not negative. *)
Definition exp_monotone `{Libm} : Prop := forall x y, x <= y -> exp x <= exp y.
Definition pow_nonneg `{Libm} : Prop := forall b e, 0 <= b -> 0 <= pow b e.

(** [exp 0] is 1. *)
Definition exp_zero `{Libm} : Prop := exp 0 == 1.

End Math.

(** * Facts about the numeric preliminaries *)

Lemma Qltb_true (a b : Q) : Qltb a b = true <-> a < b.
Proof.
  unfold Qltb. rewrite Qlt_alt. destruct (a ?= b); split; congruence.
Qed.

Lemma Qltb_false (a b : Q) : Qltb a b = false <-> b <= a.
Proof.
  unfold Qltb. rewrite Qle_alt.
  destruct (b ?= a) eqn:E.
  - apply Qeq_alt in E. assert ((a ?= b) = Eq) as -> by (apply Qeq_alt; symmetry; exact E).
    split; congruence.
  - apply Qlt_alt in E. assert ((a ?= b) = Gt) as -> by (apply Qgt_alt; exact E).
    split; congruence.
  - apply Qgt_alt in E. assert ((a ?= b) = Lt) as -> by (apply Qlt_alt; exact E).
    split; congruence.
Qed.

Lemma Qleb_true (a b : Q) : Qleb a b = true <-> a <= b.
Proof.
  unfold Qleb. rewrite Qle_alt. destruct (a ?= b); split; congruence.
Qed.

Lemma Qleb_false (a b : Q) : Qleb a b = false <-> b < a.
Proof.
  unfold Qleb. destruct (a ?= b) eqn:E.
  - apply Qeq_alt in E. split; [congruence | intros; lra].
  - apply Qlt_alt in E. split; [congruence | intros; lra].
  - apply Qgt_alt in E. split; [intros; lra | reflexivity].
Qed.

Lemma Qeqb_true (a b : Q) : Qeqb a b = true <-> a == b.
Proof.
  unfold Qeqb. rewrite Qeq_alt. destruct (a ?= b); split; congruence.
Qed.

Lemma Qeqb_false (a b : Q) : Qeqb a b = false <-> ~ a == b.
Proof.
  rewrite <- Qeqb_true. destruct (Qeqb a b); split; congruence.
Qed.

(** Case analysis on the boolean comparisons, leaving the order fact. *)
Ltac qcases :=
  repeat match goal with
  | |- context [Qltb ?a ?b] =>
      let E := fresh "E" in
      destruct (Qltb a b) eqn:E; [apply Qltb_true in E | apply Qltb_false in E]
  | |- context [Qleb ?a ?b] =>
      let E := fresh "E" in
      destruct (Qleb a b) eqn:E; [apply Qleb_true in E | apply Qleb_false in E]
  | |- context [Qeqb ?a ?b] =>
      let E := fresh "E" in
      destruct (Qeqb a b) eqn:E; [apply Qeqb_true in E | apply Qeqb_false in E]
  end.

Lemma Qsum_app (l1 l2 : list Q) : Qsum (l1 ++ l2) == Qsum l1 + Qsum l2.
Proof.
  induction l1 as [|x l1 IH].
  - change (Qsum l2 == 0 + Qsum l2). lra.
  - change (x + Qsum (l1 ++ l2) == x + Qsum l1 + Qsum l2). lra.
Qed.

Lemma Qsum_cons (x : Q) (l : list Q) : Qsum (x :: l) = x + Qsum l.
Proof. reflexivity. Qed.

Lemma Qsum_nil : Qsum [] = 0.
Proof. reflexivity. Qed.

Lemma Qsum_perm (l1 l2 : list Q) : Permutation l1 l2 -> Qsum l1 == Qsum l2.
Proof.
  induction 1; rewrite ?Qsum_cons; lra.
Qed.

Lemma Qdiv_pos (a b : Q) : 0 < a -> 0 < b -> 0 < a / b.
Proof.
  intros Ha Hb. apply Qlt_shift_div_l; [exact Hb | lra].
Qed.

Lemma Qinv_gt_1 (m : Q) : 1 < m -> 1 / m < 1.
Proof.
  intros Hm. apply Qlt_shift_div_r; lra.
Qed.

Lemma Qinv_inv (m : Q) : ~ m == 0 -> 1 / (1 / m) == m.
Proof. intros Hm. field. exact Hm. Qed.

(** * Facts about one tree *)

Module TreeFacts.
Import Tree.

Lemma exp_q_positive : @Aux.exp_positive libm_q.
Proof.
  intros x. simpl. unfold exp_q. qcases.
  - apply Qdiv_pos; lra.
  - lra.
Qed.

Lemma pow_q_positive : @Aux.pow_positive libm_q.
Proof.
  intros b e Hb. simpl. unfold pow_q.
  apply Qltb_true in Hb. rewrite Hb. apply Qpower_0_lt. apply Qltb_true. exact Hb.
Qed.

Section Survival.
Context `{Libm}.

(** The hazard ratio of a thinned balsam fir or red spruce exceeds 1 from
    the first year after the thinning on. *)
Lemma surv_thin_modifier_gt_1 pbr bpt qr thin_year year t :
  Aux.exp_positive -> Aux.pow_positive ->
  thinned pbr bpt qr thin_year year = true ->
  (thin_year < year)%Z ->
  spp t = 12%Z \/ spp t = 97%Z ->
  1 < surv_thin_modifier pbr bpt qr thin_year year t.
Proof.
  intros Hexp Hpow Hth Hlt Hspp. unfold surv_thin_modifier. rewrite Hth.
  assert (0 < inject_Z (year - thin_year)) as Ht.
  { change 0 with (inject_Z 0). rewrite <- Zlt_Qlt. lia. }
  destruct Hspp as [-> | ->]; simpl.
  - match goal with |- 1 < 1 + ?e * ?p1 * ?p2 =>
      assert (0 < e) by apply Hexp;
      assert (0 < p1) by (apply Hpow; reflexivity);
      assert (0 < p2) by (apply Hpow; exact Ht);
      assert (0 < e * p1 * p2) by (repeat apply Qmult_lt_0_compat; assumption)
    end.
    lra.
  - match goal with |- 1 < 1 + ?e * ?p1 * ?p2 =>
      assert (0 < e) by apply Hexp;
      assert (0 < p1) by (apply Hpow; reflexivity);
      assert (0 < p2) by (apply Hpow; exact Ht);
      assert (0 < e * p1 * p2) by (repeat apply Qmult_lt_0_compat; assumption)
    end.
    lra.
Qed.

(** What [survival_prob] stores when only the thinning modifier is on: the
    base probability times the hazard ratio itself. *)
Lemma survival_prob_thin_only Region csi sba qmd pbr bpt qr thin_year year ahw asw CDEF t :
  1 < surv_thin_modifier pbr bpt qr thin_year year t ->
  _p_survival (survival_prob Region csi sba qmd pbr bpt qr thin_year year ahw asw CDEF
                 false false true t)
  == base_survival t * surv_thin_modifier pbr bpt qr thin_year year t.
Proof.
  intros Hm. unfold survival_prob, surv_thin. simpl.
  pose proof (Qinv_gt_1 _ Hm) as Hx.
  assert (Qleb (1 / surv_thin_modifier pbr bpt qr thin_year year t) 1 = true) as ->
    by (apply Qleb_true; lra).
  rewrite Qinv_inv by lra. ring.
Qed.

(** The spruce budworm and hardwood modifiers lie in (0, 1]. *)
Lemma surv_sbw_range Region ahw asw CDEF t :
  Aux.exp_positive ->
  0 < surv_sbw Region ahw asw CDEF t /\ surv_sbw Region ahw asw CDEF t <= 1.
Proof.
  intros Hexp. unfold surv_sbw.
  match goal with |- 0 < (if Qleb ?m 1 then _ else _) /\ _ => assert (0 < m) as Hm end.
  { destruct (sbw_host (spp t) && Qleb 0 CDEF); [|lra].
    destruct (String.eqb Region "ME"); [|destruct (String.eqb Region "NB")];
      repeat match goal with |- context [if ?b then (_, _, _) else _] => destruct b end;
      cbv zeta iota beta;
      match goal with
      | |- 0 < (if Qltb 0 ?a then (1 - (1 - ?eb)) / (1 - (1 - ?ea)) else 1) =>
          destruct (Qltb 0 a); [|lra];
          assert (0 < eb) by apply Hexp; assert (0 < ea) by apply Hexp;
          apply Qdiv_pos; lra
      end. }
  qcases; split; lra.
Qed.

Lemma surv_hw_range sba t :
  Aux.exp_positive -> 0 < surv_hw sba t /\ surv_hw sba t <= 1.
Proof.
  intros Hexp. unfold surv_hw.
  match goal with |- 0 < (if Qleb ?m 1 then _ else _) /\ _ => assert (0 < m) as Hm end.
  { match goal with |- 0 < (if ?c then _ else _) => destruct c; [|lra] end.
    repeat match goal with |- context [if ?b then (_, _) else _] => destruct b end;
      cbv zeta iota beta;
      match goal with
      | |- 0 < (if Qeqb ?a 0 then 1 else (?eb / (1 + ?eb)) / (?ea / (1 + ?ea))) =>
          destruct (Qeqb a 0); [lra|];
          assert (0 < eb) by apply Hexp; assert (0 < ea) by apply Hexp;
          apply Qdiv_pos; apply Qdiv_pos; lra
      end. }
  qcases; split; lra.
Qed.

(** Without the thinning modifier the claim holds: the spruce budworm and
    hardwood modifiers never raise a survival probability that is not
    negative. *)
Lemma survival_prob_no_thin_le_base
    Region csi sba qmd pbr bpt qr thin_year year ahw asw CDEF (use_sbw use_hw : bool) t :
  Aux.exp_positive -> 0 <= base_survival t ->
  _p_survival (survival_prob Region csi sba qmd pbr bpt qr thin_year year ahw asw CDEF
                 use_sbw use_hw false t)
  <= base_survival t.
Proof.
  intros Hexp Hbase. unfold survival_prob. cbn [_p_survival set__p_survival].
  destruct (surv_sbw_range Region ahw asw CDEF t Hexp) as [S1 S2].
  destruct (surv_hw_range sba t Hexp) as [W1 W2].
  set (p := base_survival t) in *.
  assert (forall a b, 0 < a -> a <= 1 -> 0 < b -> b <= 1 -> p * (a * (1 / 1) * b) <= p) as Hle.
  { intros a b Ha1 Ha2 Hb1 Hb2.
    assert (a * (1 / 1) * b == a * b) as -> by (field).
    assert (0 <= a * (1 - b)) by (apply Qmult_le_0_compat; lra).
    assert (0 <= p * (1 - a * b)).
    { apply Qmult_le_0_compat; [exact Hbase|].
      assert (a * (1 - b) == a - a * b) as E by ring. lra. }
    assert (p * (1 - a * b) == p - p * (a * b)) as E by ring. lra. }
  destruct use_sbw, use_hw; apply Hle; lra.
Qed.

(** C3 (the code departs from the claim).  With only the thinning modifier
    enabled, a balsam fir or red spruce thinned in an earlier year and with a
    positive base survival gets a survival probability strictly above the
    base probability of the complementary log-log model: [surv_thin] returns
    the reciprocal of the hazard ratio, and [survival_prob] multiplies by the
    reciprocal of what [surv_thin] returns. *)
Theorem survival_prob_thin_exceeds_base
    Region csi sba qmd pbr bpt qr thin_year year ahw asw CDEF t :
  Aux.exp_positive -> Aux.pow_positive ->
  thinned pbr bpt qr thin_year year = true ->
  (thin_year < year)%Z ->
  spp t = 12%Z \/ spp t = 97%Z ->
  0 < base_survival t ->
  base_survival t <
  _p_survival (survival_prob Region csi sba qmd pbr bpt qr thin_year year ahw asw CDEF
                 false false true t).
Proof.
  intros Hexp Hpow Hth Hlt Hspp Hbase.
  pose proof (surv_thin_modifier_gt_1 pbr bpt qr thin_year year t Hexp Hpow Hth Hlt Hspp) as Hm.
  rewrite (survival_prob_thin_only Region csi sba qmd pbr bpt qr thin_year year ahw asw CDEF t Hm).
  nra.
Qed.

(** The crown base after [apply_growth_mortality]: the grown crown base,
    capped by the grown height. *)
Lemma apply_growth_mortality_hcb t :
  hcb (apply_growth_mortality t)
  = if Qltb (ht t + _dht t) (hcb t + _dhcb t) then ht t + _dht t else hcb t + _dhcb t.
Proof.
  unfold apply_growth_mortality. simpl. destruct (Qltb _ _); reflexivity.
Qed.

Lemma apply_growth_mortality_ht t : ht (apply_growth_mortality t) = ht t + _dht t.
Proof.
  unfold apply_growth_mortality. simpl. destruct (Qltb _ _); reflexivity.
Qed.

Lemma apply_growth_mortality_cr t :
  cr (apply_growth_mortality t)
  = (ht (apply_growth_mortality t) - hcb (apply_growth_mortality t))
    / ht (apply_growth_mortality t).
Proof.
  unfold apply_growth_mortality. simpl. destruct (Qltb _ _); reflexivity.
Qed.

Lemma apply_growth_mortality_tph t :
  tph (apply_growth_mortality t)
  = tph t - (if Qleb (_dtph t) (tph t) then _dtph t else tph t).
Proof.
  unfold apply_growth_mortality. simpl. destruct (Qltb _ _); reflexivity.
Qed.

(** C7 (as amended).  After [apply_growth_mortality] the crown base never
    exceeds the height and the crown ratio is [(ht - hcb) / ht]; the crown
    ratio lies in [0, 1] when the resulting height is positive and the
    resulting crown base is not negative. *)
Theorem apply_growth_mortality_crown_bound t :
  hcb (apply_growth_mortality t) <= ht (apply_growth_mortality t)
  /\ cr (apply_growth_mortality t)
     = (ht (apply_growth_mortality t) - hcb (apply_growth_mortality t))
       / ht (apply_growth_mortality t)
  /\ (0 < ht (apply_growth_mortality t) -> 0 <= hcb (apply_growth_mortality t) ->
      0 <= cr (apply_growth_mortality t) /\ cr (apply_growth_mortality t) <= 1).
Proof.
  assert (hcb (apply_growth_mortality t) <= ht (apply_growth_mortality t)) as Hle.
  { rewrite apply_growth_mortality_hcb, apply_growth_mortality_ht. qcases; lra. }
  split; [exact Hle|]. split; [apply apply_growth_mortality_cr|].
  intros Hht Hhcb. rewrite apply_growth_mortality_cr. split.
  - apply Qle_shift_div_l; [exact Hht | lra].
  - apply Qle_shift_div_r; [exact Hht | lra].
Qed.

End Survival.

Lemma survival_prob_thin_exceeds_base_witness :
  base_survival (H := libm_q) Examples.fir <
  _p_survival (survival_prob (H := libm_q) "ME" 16 20 12 0.3 30 1.1 2020 2021 0 8 (-1)
                 false false true Examples.fir).
Proof.
  apply (@survival_prob_thin_exceeds_base libm_q "ME" 16 20 12 0.3 30 1.1 2020%Z 2021%Z 0 8
           (-1) Examples.fir exp_q_positive pow_q_positive).
  - vm_compute; reflexivity.
  - lia.
  - left; reflexivity.
  - vm_compute; reflexivity.
Defined.

Lemma apply_growth_mortality_crown_bound_witness :
  0 <= cr (apply_growth_mortality (H := libm_q) Examples.fir)
  /\ cr (apply_growth_mortality (H := libm_q) Examples.fir) <= 1.
Proof.
  apply (@apply_growth_mortality_crown_bound libm_q Examples.fir).
  - vm_compute; reflexivity.
  - vm_compute; discriminate.
Defined.

(** C7 as stated fails: a tree whose crown ratio was entered as 60 has its
    crown base below the ground, and its crown ratio stays 60 after
    [apply_growth_mortality]. *)
Lemma apply_growth_mortality_crown_ratio_above_1 :
  ~ (forall (L : Libm) (t : TREE),
       hcb (apply_growth_mortality t) <= ht (apply_growth_mortality t)
       /\ 0 <= cr (apply_growth_mortality t) /\ cr (apply_growth_mortality t) <= 1).
Proof.
  intros Hall. destruct (Hall libm_q Examples.fir_pct) as (_ & _ & Hle).
  vm_compute in Hle. apply Hle. reflexivity.
Qed.

End TreeFacts.

(** * Facts about the stand *)

Module StandFacts.
Import Stand.

(** ** Construction *)

Lemma STAND_new_inl Region year csi elev cdef sbw hw thin ing cut mind e :
  STAND_new Region year csi elev cdef sbw hw thin ing cut mind = inl e ->
  (Region <> "ME"%string /\ Region <> "NB"%string /\ e = invalid_argument "Invalid Region")
  \/ (csi <= 0 /\ e = invalid_argument "Invalid CSI").
Proof.
  unfold STAND_new.
  destruct (String.eqb_spec Region "ME"); destruct (String.eqb_spec Region "NB"); simpl;
    qcases; intros Heq; inversion Heq; subst; auto.
Qed.

Lemma STAND_new_invalid Region year csi elev cdef sbw hw thin ing cut mind :
  (Region <> "ME"%string /\ Region <> "NB"%string) \/ csi <= 0 ->
  exists what, STAND_new Region year csi elev cdef sbw hw thin ing cut mind
               = inl (invalid_argument what).
Proof.
  unfold STAND_new.
  destruct (String.eqb_spec Region "ME"); destruct (String.eqb_spec Region "NB"); simpl;
    qcases; intros [[? ?] | ?]; try contradiction; try lra; eauto.
Qed.

(** C8.  Constructing a stand fails, with an invalid-argument error, exactly
    when the region is neither "ME" nor "NB" or the site index is not above
    zero; otherwise it yields a stand.  When it fails, the entry point returns
    its failure value whatever the tree rows are and whatever ingestion and
    simulation would have done: neither is reached. *)
Theorem STAND_new_configuration_error
    `{Libm} Region year csi elev cdef (sbw hw thin : bool) ing cut mind :
  ((exists e, STAND_new Region year csi elev cdef sbw hw thin ing cut mind = inl e)
   <-> ((Region <> "ME"%string /\ Region <> "NB"%string) \/ csi <= 0))
  /\ (forall e, STAND_new Region year csi elev cdef sbw hw thin ing cut mind = inl e ->
        exists what, e = invalid_argument what)
  /\ (~ ((Region <> "ME"%string /\ Region <> "NB"%string) \/ csi <= 0) ->
        exists s, STAND_new Region year csi elev cdef sbw hw thin ing cut mind = inr s)
  /\ (((Region <> "ME"%string /\ Region <> "NB"%string) \/ csi <= 0) ->
        forall resolve grow periods units use_sbw use_hw use_thin rows,
          Driver.grow_acd resolve grow periods Region year units csi elev cdef
            use_sbw use_hw use_thin ing cut mind rows = None).
Proof.
  repeat split.
  - intros [e He]. apply STAND_new_inl in He. tauto.
  - intros Hbad. destruct (STAND_new_invalid Region year csi elev cdef sbw hw thin ing cut mind Hbad)
      as [w Hw]. eauto.
  - intros e He. apply STAND_new_inl in He. destruct He as [(_ & _ & ->) | (_ & ->)]; eauto.
  - intros Hok.
    destruct (STAND_new Region year csi elev cdef sbw hw thin ing cut mind) as [e|s] eqn:E.
    + apply STAND_new_inl in E. exfalso. apply Hok. tauto.
    + eauto.
  - intros Hbad resolve grow periods units use_sbw use_hw use_thin rows.
    unfold Driver.grow_acd. destruct rows as [|r rows]; [reflexivity|].
    set (ft_m := if (units =? 0)%Z then 1 else 0.3048).
    set (in_cm := if (units =? 0)%Z then 1 else 2.54).
    assert (csi * ft_m <= 0 <-> csi <= 0) as Hcsi.
    { unfold ft_m. destruct (units =? 0)%Z; split; intros; lra. }
    destruct (STAND_new_invalid Region year (csi * ft_m) (elev * ft_m) cdef
                (negb (use_sbw =? 0)%Z) (negb (use_hw =? 0)%Z) (negb (use_thin =? 0)%Z)
                ing cut (mind * in_cm)) as [w Hw]; [tauto|].
    rewrite Hw. reflexivity.
Qed.

Lemma STAND_new_configuration_error_witness :
  Driver.grow_acd (H := libm_q) Examples.resolve_q (fun _ s => inr s) 1 "XX" 2021 1 16 200
    (-1) 0 0 0 0 0 8 [Driver.mktree_row 1 1 12 10 8 40 0.6 1 1] = None.
Proof.
  apply (@STAND_new_configuration_error libm_q "XX" 2021%Z 16 200 (-1) false false false
           0%Z 0 8).
  left. split; discriminate.
Defined.

Section Density.
Context `{Libm}.

(** ** Relative density *)

Lemma compute_sdi_rd_rd_10 s :
  rd_10 (compute_sdi_rd s) = sdi_10 s / SDImax_10_selected s.
Proof. reflexivity. Qed.

Lemma compute_sdi_rd_rd s :
  rd (compute_sdi_rd s) = sdi s / SDImax_all_selected s.
Proof. reflexivity. Qed.

(** C2 (the code departs from the claim).  For the trees of 10 cm and more,
    [compute_sdi_rd] divides by the fallback ceiling exactly when the primary
    ceiling is positive, and keeps a primary ceiling that is zero or
    negative; for all trees it does what the claim says. *)
Theorem compute_sdi_rd_ceilings s :
  (0 < SDImax_10_primary s -> rd_10 (compute_sdi_rd s) = sdi_10 s / SDImax2 s)
  /\ (SDImax_10_primary s <= 0 -> rd_10 (compute_sdi_rd s) = sdi_10 s / SDImax_10_primary s)
  /\ (0 < SDImax_all_primary s -> rd (compute_sdi_rd s) = sdi s / SDImax_all_primary s)
  /\ (SDImax_all_primary s <= 0 -> rd (compute_sdi_rd s) = sdi s / SDImax2 s).
Proof.
  rewrite compute_sdi_rd_rd_10, compute_sdi_rd_rd.
  unfold SDImax_10_selected, SDImax_all_selected.
  repeat split; intros Hc; qcases; try reflexivity; lra.
Qed.

(** ** Ingrowth *)

(** C9.  With a cut point of 0, [ingrowth] returns the rate [exp eta] times
    the probability of occurrence [PI]; with another cut point, it returns
    [exp eta] when [PI] reaches the cut point and 0 when it does not. *)
Theorem ingrowth_cut_point type s :
  (cut_point s == 0 ->
     ingrowth type s = exp (ingrowth_eta type s) * ingrowth_PI type s)
  /\ (~ cut_point s == 0 -> cut_point s <= ingrowth_PI type s ->
        ingrowth type s = exp (ingrowth_eta type s))
  /\ (~ cut_point s == 0 -> ingrowth_PI type s < cut_point s -> ingrowth type s = 0).
Proof.
  unfold ingrowth. repeat split; intros; qcases; try reflexivity; try contradiction; lra.
Qed.

End Density.

Lemma compute_sdi_rd_ceilings_witness :
  rd_10 (compute_sdi_rd (H := libm_q) (Examples.stand_q false 0 [Examples.fir]))
  = sdi_10 (Examples.stand_q false 0 [Examples.fir])
    / SDImax2 (Examples.stand_q false 0 [Examples.fir]).
Proof.
  apply (@compute_sdi_rd_ceilings libm_q (Examples.stand_q false 0 [Examples.fir])).
  vm_compute; reflexivity.
Defined.

Lemma ingrowth_cut_point_witness :
  ingrowth (H := libm_q) GNLS (Examples.stand_q false 0 [Examples.fir])
  = exp_q (ingrowth_eta GNLS (Examples.stand_q false 0 [Examples.fir]))
    * ingrowth_PI (H := libm_q) GNLS (Examples.stand_q false 0 [Examples.fir]).
Proof.
  apply (@ingrowth_cut_point libm_q GNLS (Examples.stand_q false 0 [Examples.fir])).
  vm_compute; reflexivity.
Defined.

(** ** Ranking *)

Lemma sort_insert_perm comp i l : Permutation (sort_insert comp i l) (i :: l).
Proof.
  induction l as [|j r IH]; simpl.
  - reflexivity.
  - destruct (comp i j).
    + reflexivity.
    + rewrite IH. apply perm_swap.
Qed.

Lemma sort_fold_perm comp l acc :
  Permutation (foldl (fun a i => sort_insert comp i a) acc l) (l ++ acc).
Proof.
  revert acc. induction l as [|i l IH]; intros acc; simpl.
  - reflexivity.
  - rewrite IH, sort_insert_perm. symmetry. apply Permutation_middle.
Qed.

(** The sorted positions are the positions of the list, each once. *)
Lemma sort_indices_perm v b : Permutation (sort_indices v b) (seq 0 (length v)).
Proof.
  unfold sort_indices. rewrite sort_fold_perm. rewrite app_nil_r. reflexivity.
Qed.

Lemma sort_indices_NoDup v b : NoDup (sort_indices v b).
Proof.
  rewrite sort_indices_perm. apply NoDup_ListNoDup, List.seq_NoDup.
Qed.

Lemma sort_indices_lt v b i : i ∈ sort_indices v b -> (i < length v)%nat.
Proof.
  rewrite sort_indices_perm. rewrite list_elem_of_In, in_seq. lia.
Qed.

Lemma sort_comp_true v b i j :
  (i < length v)%nat -> (j < length v)%nat ->
  sort_comp v b i j = true <-> Aux.key_at v b j <= Aux.key_at v b i.
Proof.
  intros Hi Hj. unfold sort_comp, Aux.key_at.
  destruct (lookup_lt_is_Some_2 v i Hi) as [x ->].
  destruct (lookup_lt_is_Some_2 v j Hj) as [y ->].
  apply Qleb_true.
Qed.

Lemma sort_insert_sorted v b i l :
  (i < length v)%nat -> Forall (fun j => (j < length v)%nat) l ->
  StronglySorted (Aux.desc v b) l ->
  StronglySorted (Aux.desc v b) (sort_insert (sort_comp v b) i l).
Proof.
  intros Hi Hl Hs. induction Hs as [|j r Hr IH Hj]; simpl.
  - constructor; [constructor | constructor].
  - apply Forall_cons in Hl as [Hjlt Hrlt].
    destruct (sort_comp v b i j) eqn:E.
    + apply sort_comp_true in E; [|assumption..].
      constructor; [constructor; assumption|].
      constructor; [exact E|].
      eapply List.Forall_impl; [|exact Hj]. unfold Aux.desc. intros k Hk. lra.
    + constructor; [apply IH; assumption|].
      assert (Aux.key_at v b i <= Aux.key_at v b j) as Hij.
      { destruct (Qlt_le_dec (Aux.key_at v b j) (Aux.key_at v b i)) as [Hlt|Hle]; [|exact Hle].
        assert (sort_comp v b i j = true) by (apply sort_comp_true; [assumption..|lra]).
        congruence. }
      rewrite (sort_insert_perm (sort_comp v b) i r).
      constructor; assumption.
Qed.

Lemma sort_fold_sorted v b l acc :
  Forall (fun j => (j < length v)%nat) l -> Forall (fun j => (j < length v)%nat) acc ->
  StronglySorted (Aux.desc v b) acc ->
  StronglySorted (Aux.desc v b) (foldl (fun a i => sort_insert (sort_comp v b) i a) acc l).
Proof.
  revert acc. induction l as [|i l IH]; intros acc Hl Hacc Hs; simpl.
  - exact Hs.
  - apply Forall_cons in Hl as [Hi Hl]. apply IH.
    + exact Hl.
    + rewrite sort_insert_perm. constructor; assumption.
    + apply sort_insert_sorted; assumption.
Qed.

(** The sorted positions are in decreasing order of the key. *)
Lemma sort_indices_sorted v b : StronglySorted (Aux.desc v b) (sort_indices v b).
Proof.
  apply sort_fold_sorted.
  - apply Forall_forall. intros j Hj. apply list_elem_of_In, in_seq in Hj. lia.
  - constructor.
  - constructor.
Qed.

(** ** Top height *)

Lemma omap_lookup_seq (l pre : list Tree.TREE) :
  omap (fun i => (pre ++ l) !! i) (seq (length pre) (length l)) = l.
Proof.
  revert pre. induction l as [|x l IH]; intros pre; simpl.
  - reflexivity.
  - rewrite list_lookup_middle by reflexivity. simpl. f_equal.
    specialize (IH (pre ++ [x])). rewrite <- app_assoc in IH. simpl in IH.
    rewrite length_app in IH. simpl in IH. rewrite Nat.add_1_r in IH. exact IH.
Qed.

Lemma ranked_perm v b : Permutation (Spec.ranked v b) v.
Proof.
  unfold Spec.ranked. rewrite (sort_indices_perm v b).
  pose proof (omap_lookup_seq v []) as Hv. simpl in Hv. rewrite Hv. reflexivity.
Qed.

Lemma ranked_sorted v b :
  StronglySorted (fun x y => sort_key b y <= sort_key b x) (Spec.ranked v b).
Proof.
  unfold Spec.ranked.
  assert (Forall (fun i => (i < length v)%nat) (sort_indices v b)) as Hlt.
  { apply Forall_forall. intros i Hi. apply sort_indices_lt in Hi. exact Hi. }
  pose proof (sort_indices_sorted v b) as Hs.
  induction Hs as [|i r Hr IH Hi]; simpl.
  - constructor.
  - apply Forall_cons in Hlt as [Hilt Hrlt].
    destruct (lookup_lt_is_Some_2 v i Hilt) as [x Hx]. rewrite Hx. simpl.
    constructor; [apply IH; exact Hrlt|].
    apply Forall_forall. intros y Hy.
    apply list_elem_of_omap in Hy as (j & Hj & Hjy).
    rewrite Forall_forall in Hi. specialize (Hi j Hj).
    unfold Aux.desc, Aux.key_at in Hi. rewrite Hx, Hjy in Hi. exact Hi.
Qed.

(** The loop over the sorted positions is a loop over the ranked trees. *)
Lemma topht_fold_ranked v idx acc :
  foldl (topht_step v) acc idx = foldl Aux.topht_tree acc (omap (fun i => v !! i) idx).
Proof.
  revert acc. induction idx as [|i idx IH]; intros acc; simpl.
  - reflexivity.
  - unfold topht_step at 2. destruct acc as [c h]. destruct (v !! i) as [t|]; simpl.
    + rewrite IH. reflexivity.
    + rewrite IH. reflexivity.
Qed.

Lemma Qsum_map_ext {A} (f g : A -> Q) (l : list A) :
  Forall (fun x => f x == g x) l -> Qsum (map f l) == Qsum (map g l).
Proof.
  induction 1 as [|x l Hx Hl IH]; cbn [map].
  - reflexivity.
  - rewrite !Qsum_cons. rewrite Hx, IH. reflexivity.
Qed.

Lemma Qsum_map_nonneg {A} (f : A -> Q) (l : list A) :
  Forall (fun x => 0 <= f x) l -> 0 <= Qsum (map f l).
Proof.
  induction 1 as [|x l Hx Hl IH]; cbn [map].
  - unfold Qsum; simpl; lra.
  - rewrite Qsum_cons. lra.
Qed.

(** The loop keeps the cumulative density capped at 100 and adds to the
    height sum exactly the cohort shares. *)
Lemma topht_fold_cohort l : forall P c h,
  Forall (fun t => 0 <= Tree.tph t) l ->
  (P <= 100 -> c == P) -> (100 <= P -> c == 100) ->
  (P + Spec.density l <= 100 ->
     fst (foldl Aux.topht_tree (c, h) l) == P + Spec.density l)
  /\ (100 <= P + Spec.density l -> fst (foldl Aux.topht_tree (c, h) l) == 100)
  /\ snd (foldl Aux.topht_tree (c, h) l)
     == h + Qsum (map (fun tw => Tree.ht (fst tw) * snd tw) (Spec.cohort P l))
  /\ fst (foldl Aux.topht_tree (c, h) l) == c + Qsum (map snd (Spec.cohort P l)).
Proof.
  induction l as [|t r IH]; intros P c h Hpos Hlo Hhi.
  - unfold Spec.density. simpl. unfold Qsum. simpl. repeat split; intros; lra.
  - apply Forall_cons in Hpos as [Ht Hr].
    pose proof (Qsum_map_nonneg Tree.tph r Hr) as Hd. fold (Spec.density r) in Hd.
    assert (Spec.density (t :: r) == Tree.tph t + Spec.density r) as HD
      by (unfold Spec.density; cbn [map]; rewrite Qsum_cons; reflexivity).
    cbn [foldl Spec.cohort map]. rewrite !Qsum_cons. cbn [fst snd].
    rewrite HD.
    unfold Aux.topht_tree at 2 4 6 8.
    destruct (Qleb (c + Tree.tph t) 100) eqn:E1; [apply Qleb_true in E1 | apply Qleb_false in E1].
    + destruct (Qlt_le_dec 100 P) as [HP | HP].
      * (* already past 100: the tree has no density *)
        assert (c == 100) as Hc by (apply Hhi; lra).
        assert (Tree.tph t == 0) as Ht0 by lra.
        assert (Qleb (P + Tree.tph t) 100 = false) as -> by (apply Qleb_false; lra).
        assert (Qltb P 100 = false) as -> by (apply Qltb_false; lra).
        destruct (IH (P + Tree.tph t) (c + Tree.tph t) (h + Tree.ht t * Tree.tph t) Hr)
          as (I1 & I2 & I3 & I4); [intros; lra | intros; lra |].
        assert (Tree.ht t * Tree.tph t == 0) as Hz by (rewrite Ht0; ring).
        repeat split.
        -- intros. lra.
        -- intros. apply I2. lra.
        -- rewrite I3. lra.
        -- rewrite I4. lra.
      * assert (c == P) as Hc by (apply Hlo; lra).
        assert (Qleb (P + Tree.tph t) 100 = true) as -> by (apply Qleb_true; lra).
        destruct (IH (P + Tree.tph t) (c + Tree.tph t) (h + Tree.ht t * Tree.tph t) Hr)
          as (I1 & I2 & I3 & I4); [intros; lra | intros; lra |].
        repeat split.
        -- intros. rewrite I1 by lra. ring.
        -- intros. apply I2. lra.
        -- rewrite I3. lra.
        -- rewrite I4. lra.
    + destruct (Qltb c 100) eqn:E2; [apply Qltb_true in E2 | apply Qltb_false in E2].
      * assert (P < 100) as HP.
        { destruct (Qlt_le_dec P 100) as [?|HP]; [assumption|]. apply Hhi in HP. lra. }
        assert (c == P) as Hc by (apply Hlo; lra).
        assert (Qleb (P + Tree.tph t) 100 = false) as -> by (apply Qleb_false; lra).
        assert (Qltb P 100 = true) as -> by (apply Qltb_true; lra).
        destruct (IH (P + Tree.tph t) 100 (h + Tree.ht t * (100 - c)) Hr)
          as (I1 & I2 & I3 & I4); [intros; lra | intros; lra |].
        assert (Tree.ht t * (100 - c) == Tree.ht t * (100 - P)) as Hz by (rewrite Hc; ring).
        repeat split.
        -- intros. lra.
        -- intros. apply I2. lra.
        -- rewrite I3. lra.
        -- rewrite I4. lra.
      * assert (100 <= P) as HP.
        { destruct (Qlt_le_dec P 100) as [HP|?]; [|assumption].
          assert (c == P) by (apply Hlo; lra). lra. }
        assert (c == 100) as Hc by (apply Hhi; exact HP).
        assert (Qleb (P + Tree.tph t) 100 = false) as -> by (apply Qleb_false; lra).
        assert (Qltb P 100 = false) as -> by (apply Qltb_false; lra).
        destruct (IH (P + Tree.tph t) c h Hr)
          as (I1 & I2 & I3 & I4); [intros; lra | intros; lra |].
        repeat split.
        -- intros. lra.
        -- intros. apply I2. lra.
        -- rewrite I3. lra.
        -- rewrite I4. lra.
Qed.

(** While the cumulative density stays within 100, every tree is in the
    cohort with all of its density. *)
Lemma cohort_whole l : forall P,
  Forall (fun t => 0 <= Tree.tph t) l ->
  P + Spec.density l <= 100 ->
  Qsum (map (fun tw => Tree.ht (fst tw) * snd tw) (Spec.cohort P l))
  == Qsum (map (fun t => Tree.ht t * Tree.tph t) l).
Proof.
  induction l as [|t r IH]; intros P Hpos HP.
  - reflexivity.
  - apply Forall_cons in Hpos as [Ht Hr].
    pose proof (Qsum_map_nonneg Tree.tph r Hr) as Hd. fold (Spec.density r) in Hd.
    assert (Spec.density (t :: r) == Tree.tph t + Spec.density r) as HD
      by (unfold Spec.density; cbn [map]; rewrite Qsum_cons; reflexivity).
    cbn [Spec.cohort map]. rewrite !Qsum_cons. cbn [fst snd].
    assert (Qleb (P + Tree.tph t) 100 = true) as -> by (apply Qleb_true; lra).
    rewrite (IH (P + Tree.tph t) Hr) by lra. reflexivity.
Qed.

Lemma density_perm l1 l2 : Permutation l1 l2 -> Spec.density l1 == Spec.density l2.
Proof.
  intros Hp. unfold Spec.density. apply Qsum_perm. apply Permutation_map. exact Hp.
Qed.

(** C6.  With no negative density in the list, [compute_topht] ranks the
    trees by decreasing height and stores: the density-weighted mean height
    of all trees when the total density is below 100; the density-weighted
    mean height of the cohort of the tallest trees, whose shares add up to
    exactly 100 with the tree that crosses 100 counted for what was missing,
    when the total density is at least 100; and 0 when the total density
    is 0. *)
Theorem compute_topht_cohort (s : STAND) :
  Forall (fun t => 0 <= Tree.tph t) (trees s) ->
  Permutation (Spec.ranked (trees s) false) (trees s)
  /\ StronglySorted (fun x y => Tree.ht y <= Tree.ht x) (Spec.ranked (trees s) false)
  /\ (0 < Spec.density (trees s) -> Spec.density (trees s) < 100 ->
        topht (compute_topht s) == Spec.mean_height (trees s))
  /\ (100 <= Spec.density (trees s) ->
        Qsum (map snd (Spec.cohort 0 (Spec.ranked (trees s) false))) == 100
        /\ topht (compute_topht s)
           == Spec.cohort_mean_height (Spec.cohort 0 (Spec.ranked (trees s) false)))
  /\ (Spec.density (trees s) == 0 -> topht (compute_topht s) == 0).
Proof.
  intros Hpos.
  pose proof (ranked_perm (trees s) false) as Hperm.
  split; [exact Hperm|]. split; [apply (ranked_sorted (trees s) false)|].
  assert (Forall (fun t => 0 <= Tree.tph t) (Spec.ranked (trees s) false)) as Hpos'
    by (rewrite Hperm; exact Hpos).
  pose proof (density_perm _ _ Hperm) as HD.
  destruct (topht_fold_cohort (Spec.ranked (trees s) false) 0 0 0 Hpos')
    as (I1 & I2 & I3 & I4); [intros; reflexivity | intros; lra |].
  unfold compute_topht. rewrite topht_fold_ranked. fold (Spec.ranked (trees s) false).
  destruct (foldl Aux.topht_tree (0, 0) (Spec.ranked (trees s) false)) as [c h].
  cbn [fst snd] in I1, I2, I3, I4. cbn [topht set_topht].
  split; [|split].
  - intros H0 H100.
    assert (c == Spec.density (trees s)) as Hc by (rewrite I1; lra).
    assert (Qltb 0 c = true) as -> by (apply Qltb_true; lra).
    unfold Spec.mean_height. rewrite Hc, I3.
    rewrite (cohort_whole _ 0 Hpos') by lra.
    rewrite (Qsum_perm _ _ (Permutation_map (fun t => Tree.ht t * Tree.tph t) Hperm)).
    apply Qdiv_comp; [lra | reflexivity].
  - intros H100.
    assert (c == 100) as Hc by (apply I2; lra).
    assert (Qltb 0 c = true) as -> by (apply Qltb_true; lra).
    split; [lra|].
    unfold Spec.cohort_mean_height. apply Qdiv_comp; lra.
  - intros H0.
    assert (c == 0) as Hc by (rewrite I1; lra).
    assert (Qltb 0 c = false) as -> by (apply Qltb_false; lra).
    reflexivity.
Qed.

Lemma compute_topht_cohort_witness :
  topht (compute_topht (Examples.stand_q false 0 Examples.mixed))
  == Spec.cohort_mean_height
       (Spec.cohort 0 (Spec.ranked (trees (Examples.stand_q false 0 Examples.mixed)) false)).
Proof.
  apply (compute_topht_cohort (Examples.stand_q false 0 Examples.mixed)).
  - repeat constructor; vm_compute; discriminate.
  - vm_compute; discriminate.
Defined.

(** ** Basal area in larger trees *)

Lemma same_but_bal_fields t t' :
  Aux.same_but_bal t t' ->
  Tree.dbh t' = Tree.dbh t /\ Tree.ba t' = Tree.ba t
  /\ Tree.is_softwood t' = Tree.is_softwood t.
Proof. intros ->. repeat split. Qed.

Lemma ba_larger_cons sw d t l :
  Spec.ba_larger sw d (t :: l)
  = (if Qltb d (Tree.dbh t) && (negb sw || Tree.is_softwood t) then Tree.ba t else 0)
    + Spec.ba_larger sw d l.
Proof. reflexivity. Qed.

Lemma ba_larger_app sw d l1 l2 :
  Spec.ba_larger sw d (l1 ++ l2) == Spec.ba_larger sw d l1 + Spec.ba_larger sw d l2.
Proof.
  unfold Spec.ba_larger. rewrite map_app. apply Qsum_app.
Qed.

Lemma Qltb_comp a a' b b' : a == a' -> b == b' -> Qltb a b = Qltb a' b'.
Proof.
  intros Ha Hb. destruct (Qltb a' b') eqn:E.
  - apply Qltb_true in E. apply Qltb_true. lra.
  - apply Qltb_false in E. apply Qltb_false. lra.
Qed.

Lemma ba_larger_comp sw d d' l : d == d' -> Spec.ba_larger sw d l = Spec.ba_larger sw d' l.
Proof.
  intros Hd. unfold Spec.ba_larger. f_equal. apply map_ext. intros t.
  rewrite (Qltb_comp d d' (Tree.dbh t) (Tree.dbh t)); [reflexivity | exact Hd | reflexivity].
Qed.

(** No tree of [l] counts when none is larger than [d]. *)
Lemma ba_larger_none sw d l :
  Forall (fun t => Tree.dbh t <= d) l -> Spec.ba_larger sw d l == 0.
Proof.
  induction 1 as [|t l Ht Hl IH].
  - reflexivity.
  - rewrite ba_larger_cons, IH. apply Qltb_false in Ht. rewrite Ht. reflexivity.
Qed.

(** One pass of the ladder: the value stored is the total of the strictly
    larger trees seen so far, and the state is that after one more tree. *)
Lemma rank_step_spec (f : Tree.TREE -> bool) pre total last held t v total' last' held' :
  total == Qsum (map (fun t => if f t then Tree.ba t else 0) pre) ->
  Forall (fun x => f x = true -> last <= Tree.dbh x) pre ->
  held == Qsum (map (fun x => if Qltb last (Tree.dbh x) && f x then Tree.ba x else 0) pre) ->
  f t = true ->
  rank_step total last held (Tree.dbh t) (Tree.ba t) = Some (v, (total', last', held')) ->
  v == Qsum (map (fun x => if Qltb (Tree.dbh t) (Tree.dbh x) && f x then Tree.ba x else 0) pre)
  /\ total' == Qsum (map (fun t => if f t then Tree.ba t else 0) (pre ++ [t]))
  /\ Forall (fun x => f x = true -> last' <= Tree.dbh x) (pre ++ [t])
  /\ held' == Qsum (map (fun x => if Qltb last' (Tree.dbh x) && f x then Tree.ba x else 0)
                      (pre ++ [t]))
  /\ last' <= Tree.dbh t /\ last' <= last.
Proof.
  intros Htot Hlast Hheld Hft Hstep. unfold rank_step in Hstep.
  assert (forall d, Qsum (map (fun x => if Qltb d (Tree.dbh x) && f x then Tree.ba x else 0)
                            (pre ++ [t]))
                    == Qsum (map (fun x => if Qltb d (Tree.dbh x) && f x then Tree.ba x else 0) pre)
                       + (if Qltb d (Tree.dbh t) then Tree.ba t else 0)) as Hsnoc.
  { intros d. rewrite map_app, Qsum_app. cbn [map]. rewrite Qsum_cons, Qsum_nil, Hft, andb_true_r.
    lra. }
  assert (Qsum (map (fun t => if f t then Tree.ba t else 0) (pre ++ [t]))
          == Qsum (map (fun t => if f t then Tree.ba t else 0) pre) + Tree.ba t) as Htsnoc.
  { rewrite map_app, Qsum_app. cbn [map]. rewrite Qsum_cons, Qsum_nil, Hft. lra. }
  destruct (Tree.dbh t ?= last) eqn:E; inversion Hstep; subst; clear Hstep.
  - (* same diameter as the last one *)
    apply Qeq_alt in E.
    assert (forall x, Qltb (Tree.dbh t) (Tree.dbh x) = Qltb last' (Tree.dbh x)) as Hsame
      by (intros x; apply Qltb_comp; [exact E | reflexivity]).
    repeat split.
    + rewrite Hheld. apply Qsum_map_ext, Forall_forall. intros x _. rewrite Hsame. reflexivity.
    + rewrite Htsnoc, Htot. reflexivity.
    + apply Forall_app. split; [exact Hlast|]. constructor; [intros _; lra | constructor].
    + rewrite Hsnoc, <- Hheld.
      assert (Qltb last' (Tree.dbh t) = false) as -> by (apply Qltb_false; lra). lra.
    + lra.
    + lra.
  - (* strictly smaller than everything seen *)
    apply Qlt_alt in E.
    assert (Qsum (map (fun x => if Qltb (Tree.dbh t) (Tree.dbh x) && f x then Tree.ba x else 0)
                    pre)
            == Qsum (map (fun t => if f t then Tree.ba t else 0) pre)) as Hall.
    { apply Qsum_map_ext. eapply List.Forall_impl; [|exact Hlast]. intros x Hx. cbv beta in *.
      destruct (f x); [|rewrite andb_false_r; reflexivity].
      assert (Qltb (Tree.dbh t) (Tree.dbh x) = true) as ->
        by (apply Qltb_true; specialize (Hx eq_refl); lra).
      reflexivity. }
    repeat split.
    + rewrite Hall, Htot. reflexivity.
    + rewrite Htsnoc, Htot. reflexivity.
    + apply Forall_app. split.
      * eapply List.Forall_impl; [|exact Hlast]. intros x Hx Hfx. specialize (Hx Hfx). cbv beta. lra.
      * constructor; [intros _; lra | constructor].
    + rewrite Hsnoc, Hall, <- Htot.
      assert (Qltb (Tree.dbh t) (Tree.dbh t) = false) as -> by (apply Qltb_false; lra). lra.
    + lra.
    + lra.
Qed.

Lemma rank_step_last total last held d b v total' last' held' :
  rank_step total last held d b = Some (v, (total', last', held')) -> last' == d.
Proof.
  unfold rank_step. destruct (d ?= last) eqn:E; intros Hs; inversion Hs; subst.
  - apply Qeq_alt in E. symmetry. exact E.
  - reflexivity.
Qed.

Lemma rank_step_some total last held d b :
  d <= last -> exists r, rank_step total last held d b = Some r.
Proof.
  intros Hd. unfold rank_step. destruct (d ?= last) eqn:E; eauto.
  apply Qgt_alt in E. lra.
Qed.

(** The loop body on one tree, given the state after the trees [pre]. *)
Lemma bal_tree_spec pre l t l' t' :
  Aux.bal_inv pre l -> bal_tree l t = Some (l', t') ->
  Aux.same_but_bal t t'
  /\ Tree.bal t' == Spec.ba_larger false (Tree.dbh t) pre
  /\ (Tree.is_softwood t = true -> Tree.bal_sw t' == Spec.ba_larger true (Tree.dbh t) pre)
  /\ Aux.bal_inv (pre ++ [t]) l'
  /\ last_dbh l' == Tree.dbh t
  /\ (if Tree.is_softwood t then last_sw_dbh l' == Tree.dbh t
      else last_sw_dbh l' = last_sw_dbh l).
Proof.
  intros (I1 & I2 & I3 & I4 & I5 & I6) Hbody. unfold bal_tree in Hbody.
  destruct (rank_step (_bal l) (last_dbh l) (pending l) (Tree.dbh t) (Tree.ba t))
    as [[v [[total last] held]]|] eqn:E1; [|discriminate].
  pose proof (rank_step_last _ _ _ _ _ _ _ _ _ E1) as Hlast1.
  destruct (rank_step_spec (fun _ => true) pre (_bal l) (last_dbh l) (pending l) t v total
              last held) as (R1 & R2 & R3 & R4 & _); try assumption; try reflexivity.
  { eapply List.Forall_impl; [|exact I2]. auto. }
  cbn [Tree.is_softwood Tree.softwood Tree.set_bal] in Hbody.
  unfold Tree.is_softwood in *.
  destruct (Tree.softwood t) eqn:Hsw.
  - cbn [_bal_sw last_sw_dbh pending_sw Tree.dbh Tree.ba Tree.set_bal] in Hbody.
    destruct (rank_step (_bal_sw l) (last_sw_dbh l) (pending_sw l) (Tree.dbh t) (Tree.ba t))
      as [[w [[total2 last2] held2]]|] eqn:E2; [|discriminate].
    pose proof (rank_step_last _ _ _ _ _ _ _ _ _ E2) as Hlast2.
    destruct (rank_step_spec Tree.softwood pre (_bal_sw l) (last_sw_dbh l) (pending_sw l) t w
                total2 last2 held2) as (S1 & S2 & S3 & S4 & _); try assumption.
    inversion Hbody; subst; clear Hbody.
    assert (Forall (fun x => last <= Tree.dbh x) (pre ++ [t])) as R3'
      by (eapply List.Forall_impl; [|exact R3]; auto).
    split; [unfold Aux.same_but_bal; cbn; destruct t; reflexivity|].
    split; [exact R1|]. split; [intros _; exact S1|].
    split; [|split; [exact Hlast1 | exact Hlast2]].
    unfold Aux.bal_inv. cbn. repeat split; assumption.
  - inversion Hbody; subst; clear Hbody.
    assert (Forall (fun x => last <= Tree.dbh x) (pre ++ [t])) as R3'
      by (eapply List.Forall_impl; [|exact R3]; auto).
    split; [unfold Aux.same_but_bal; cbn; destruct t; reflexivity|].
    split; [exact R1|]. split; [intros Hf; discriminate|].
    split; [|split; [exact Hlast1 | reflexivity]].
    unfold Aux.bal_inv. cbn. split; [exact R2|]. split; [exact R3'|]. split; [exact R4|].
    split; [|split].
    + rewrite I4. rewrite map_app, Qsum_app. cbn [map]. unfold Tree.is_softwood.
      rewrite Hsw, Qsum_cons, Qsum_nil. lra.
    + apply Forall_app. split; [exact I5|]. constructor; [|constructor].
      unfold Tree.is_softwood. rewrite Hsw. discriminate.
    + rewrite I6. rewrite ba_larger_app, ba_larger_cons. unfold Tree.is_softwood.
      rewrite Hsw, andb_false_r. unfold Spec.ba_larger at 3. cbn [map]. rewrite Qsum_nil. lra.
Qed.

Lemma bal_tree_some l t :
  Tree.dbh t <= last_dbh l ->
  (Tree.is_softwood t = true -> Tree.dbh t <= last_sw_dbh l) ->
  exists r, bal_tree l t = Some r.
Proof.
  intros H1 H2. unfold bal_tree.
  destruct (rank_step_some (_bal l) (last_dbh l) (pending l) (Tree.dbh t) (Tree.ba t) H1)
    as [[v [[total last] held]] ->].
  cbn. unfold Tree.is_softwood in *. destruct (Tree.softwood t); [|eauto].
  destruct (rank_step_some (_bal_sw l) (last_sw_dbh l) (pending_sw l) (Tree.dbh t) (Tree.ba t)
              (H2 eq_refl)) as [[w [[total2 last2] held2]] ->].
  eauto.
Qed.

(** The ladder over a whole ranked list: each tree receives the total of
    the strictly larger trees that precede it. *)
Lemma bal_list_spec ts : forall pre l out,
  Aux.bal_inv pre l -> Aux.bal_list l ts = Some out ->
  Forall2 Aux.same_but_bal ts out
  /\ forall p t t', ts !! p = Some t -> out !! p = Some t' ->
       Tree.bal t' == Spec.ba_larger false (Tree.dbh t) (pre ++ take p ts)
       /\ (Tree.is_softwood t = true ->
           Tree.bal_sw t' == Spec.ba_larger true (Tree.dbh t) (pre ++ take p ts)).
Proof.
  induction ts as [|t r IH]; intros pre l out Hinv Hrun; cbn in Hrun.
  - inversion Hrun; subst. split; [constructor|]. intros p t t' Hp. discriminate.
  - destruct (bal_tree l t) as [[l1 t1]|] eqn:E; [|discriminate].
    destruct (Aux.bal_list l1 r) as [out1|] eqn:E1; [|discriminate].
    inversion Hrun; subst; clear Hrun.
    destruct (bal_tree_spec pre l t l1 t1 Hinv E) as (Hs & Hb & Hbs & Hinv1 & _).
    destruct (IH (pre ++ [t]) l1 out1 Hinv1 E1) as (HF & Hall).
    split; [constructor; assumption|].
    intros [|p] x x' Hx Hx'; cbn in Hx, Hx'.
    + inversion Hx; inversion Hx'; subst. cbn [take]. rewrite app_nil_r. split; assumption.
    + cbn [take]. replace (pre ++ t :: take p r) with ((pre ++ [t]) ++ take p r)
        by (rewrite <- app_assoc; reflexivity).
      apply (Hall p x x' Hx Hx').
Qed.

(** On a list in decreasing order of diameter that starts at or below the
    initial sentinels, the ladder never reaches a [throw]. *)
Lemma bal_list_total ts : forall pre l,
  Aux.bal_inv pre l ->
  StronglySorted (fun x y => Tree.dbh y <= Tree.dbh x) ts ->
  Forall (fun t => Tree.dbh t <= last_dbh l) ts ->
  Forall (fun t => Tree.is_softwood t = true -> Tree.dbh t <= last_sw_dbh l) ts ->
  exists out, Aux.bal_list l ts = Some out.
Proof.
  induction ts as [|t r IH]; intros pre l Hinv Hs H1 H2; cbn.
  - eauto.
  - apply StronglySorted_inv in Hs as [Hsr Hrt].
    apply Forall_cons in H1 as [H1t H1r]. apply Forall_cons in H2 as [H2t H2r].
    destruct (bal_tree_some l t H1t H2t) as [[l1 t1] E]. rewrite E.
    destruct (bal_tree_spec pre l t l1 t1 Hinv E) as (_ & _ & _ & Hinv1 & Hl1 & Hl2).
    destruct (IH (pre ++ [t]) l1 Hinv1 Hsr) as [out1 ->]; [| |eauto].
    + eapply List.Forall_impl; [|exact Hrt]. intros x Hx. cbv beta in Hx. lra.
    + rewrite Forall_forall in Hrt, H2r |- *. intros x Hx Hsw.
      specialize (Hrt x Hx). specialize (H2r x Hx Hsw). cbv beta in Hrt.
      destruct (Tree.is_softwood t); [lra | rewrite Hl2; exact H2r].
Qed.

Lemma trees_bal_totals t s : trees (bal_totals t s) = trees s.
Proof.
  unfold bal_totals. repeat match goal with |- context [if ?b then _ else _] => destruct b end;
    reflexivity.
Qed.

Lemma omap_lookup_insert_notin (v : list Tree.TREE) i x (idx : list nat) :
  i ∉ idx ->
  omap (fun j => <[i := x]> v !! j) idx = omap (fun j => v !! j) idx.
Proof.
  induction idx as [|j idx IH]; intros Hi; cbn.
  - reflexivity.
  - apply not_elem_of_cons in Hi as [Hij Hi].
    rewrite list_lookup_insert_ne by exact Hij. rewrite (IH Hi). reflexivity.
Qed.

(** The loop over the sorted positions runs the ladder over the ranked
    trees and stores each result at its position. *)
Lemma bal_loop_list (idx : list nat) : forall l s,
  NoDup idx -> Forall (fun i => (i < length (trees s))%nat) idx ->
  match Aux.bal_list l (omap (fun i => trees s !! i) idx) with
  | None => bal_loop idx l s = None
  | Some out =>
    exists s', bal_loop idx l s = Some s'
      /\ length (trees s') = length (trees s)
      /\ (forall p i, idx !! p = Some i -> trees s' !! i = out !! p)
      /\ (forall k, k ∉ idx -> trees s' !! k = trees s !! k)
  end.
Proof.
  induction idx as [|i rest IH]; intros l s Hnd Hlt.
  - cbn. exists s. repeat split. intros p i Hp. discriminate.
  - apply NoDup_cons in Hnd as [Hi Hnd]. apply Forall_cons in Hlt as [Hilt Hlt].
    destruct (lookup_lt_is_Some_2 _ _ Hilt) as [t Ht].
    cbn [omap list_omap bal_loop]. rewrite Ht. cbn [Aux.bal_list].
    destruct (bal_tree l t) as [[l1 t1]|] eqn:E; [|reflexivity].
    set (s1 := set_trees (<[i := t1]> (trees s)) (bal_totals t s)).
    assert (trees s1 = <[i := t1]> (trees s)) as Hs1 by reflexivity.
    specialize (IH l1 s1 Hnd). rewrite Hs1, length_insert in IH. specialize (IH Hlt).
    rewrite (omap_lookup_insert_notin _ _ _ _ Hi) in IH.
    destruct (Aux.bal_list l1 (omap (fun i => trees s !! i) rest)) as [out1|].
    + destruct IH as (s' & Hrun & Hlen & Hpos & Hout).
      exists s'. split; [exact Hrun|]. split; [exact Hlen|]. split.
      * intros [|p] k Hk; cbn in Hk.
        -- inversion Hk; subst. rewrite (Hout k Hi). cbn.
           apply list_lookup_insert_eq. exact Hilt.
        -- cbn. apply (Hpos p k Hk).
      * intros k Hk. apply not_elem_of_cons in Hk as [Hki Hk].
        rewrite (Hout k Hk). apply list_lookup_insert_ne. congruence.
    + exact IH.
Qed.

Lemma omap_lookup_in_range (v : list Tree.TREE) (idx : list nat) :
  Forall (fun i => (i < length v)%nat) idx ->
  forall p i, idx !! p = Some i -> omap (fun j => v !! j) idx !! p = v !! i.
Proof.
  induction 1 as [|j idx Hj Hidx IH]; intros p i Hp.
  - discriminate.
  - destruct (lookup_lt_is_Some_2 _ _ Hj) as [t Ht]. cbn. rewrite Ht.
    destruct p as [|p]; cbn in Hp |- *.
    + inversion Hp; subst. symmetry. exact Ht.
    + apply IH. exact Hp.
Qed.

Lemma ranked_lookup v b p i :
  sort_indices v b !! p = Some i -> Spec.ranked v b !! p = v !! i.
Proof.
  apply omap_lookup_in_range. apply Forall_forall. intros j Hj.
  apply sort_indices_lt in Hj. exact Hj.
Qed.

Lemma sort_indices_position v b k :
  (k < length v)%nat -> exists p, sort_indices v b !! p = Some k.
Proof.
  intros Hk. apply list_elem_of_lookup. rewrite sort_indices_perm.
  apply list_elem_of_In, in_seq. lia.
Qed.

Lemma StronglySorted_drop {A} (R : A -> A -> Prop) (l : list A) :
  StronglySorted R l -> forall p x, l !! p = Some x -> Forall (R x) (drop (S p) l).
Proof.
  induction 1 as [|y l Hl IH Hy]; intros p x Hp.
  - discriminate.
  - destruct p as [|p]; cbn in Hp |- *.
    + inversion Hp; subst. rewrite drop_0. exact Hy.
    + apply (IH p x Hp).
Qed.

Lemma ba_larger_perm sw d l1 l2 :
  Permutation l1 l2 -> Spec.ba_larger sw d l1 == Spec.ba_larger sw d l2.
Proof.
  intros Hp. unfold Spec.ba_larger. apply Qsum_perm, Permutation_map, Hp.
Qed.

Lemma ba_larger_same_but_bal sw d l1 l2 :
  Forall2 Aux.same_but_bal l1 l2 -> Spec.ba_larger sw d l1 = Spec.ba_larger sw d l2.
Proof.
  induction 1 as [|x y l1 l2 Hxy Hl IH].
  - reflexivity.
  - rewrite !ba_larger_cons, IH.
    destruct (same_but_bal_fields x y Hxy) as (-> & -> & ->). reflexivity.
Qed.

Lemma bal_inv_init : Aux.bal_inv [] bal_locals_init.
Proof.
  unfold Aux.bal_inv, bal_locals_init, Spec.ba_larger. cbn.
  repeat split; try constructor; reflexivity.
Qed.

(** In a ranked list, the trees strictly larger than the tree at position
    [p] all come before it. *)
Lemma ba_larger_ranked sw v p t :
  Spec.ranked v true !! p = Some t ->
  Spec.ba_larger sw (Tree.dbh t) (take p (Spec.ranked v true))
  == Spec.ba_larger sw (Tree.dbh t) v.
Proof.
  intros Hp.
  rewrite <- (ba_larger_perm sw (Tree.dbh t) _ _ (ranked_perm v true)).
  rewrite <- (take_drop p (Spec.ranked v true)) at 2.
  rewrite ba_larger_app.
  rewrite (ba_larger_none sw (Tree.dbh t) (drop p (Spec.ranked v true))); [lra|].
  rewrite (drop_S _ _ _ Hp). constructor; [lra|].
  apply (StronglySorted_drop _ _ (ranked_sorted v true) p t Hp).
Qed.

(** What the ladder leaves in each tree of the ranked list. *)
Lemma bal_list_ranked v out :
  Aux.bal_list bal_locals_init (Spec.ranked v true) = Some out ->
  Forall2 Aux.same_but_bal (Spec.ranked v true) out
  /\ forall p t t', Spec.ranked v true !! p = Some t -> out !! p = Some t' ->
       Tree.bal t' == Spec.ba_larger false (Tree.dbh t) v
       /\ (Tree.is_softwood t = true -> Tree.bal_sw t' == Spec.ba_larger true (Tree.dbh t) v).
Proof.
  intros Hrun.
  destruct (bal_list_spec _ [] _ _ bal_inv_init Hrun) as (HF & Hall).
  split; [exact HF|]. intros p t t' Hp Hp'.
  destruct (Hall p t t' Hp Hp') as (Hb & Hbs). cbn [app] in Hb, Hbs.
  split.
  - rewrite Hb. apply ba_larger_ranked. exact Hp.
  - intros Hsw. rewrite (Hbs Hsw). apply ba_larger_ranked. exact Hp.
Qed.

Section BalTheorem.
Context `{Libm}.

(** How [compute_ba_tph_bal] relates to the ladder over the ranked trees. *)
Lemma compute_ba_tph_bal_ranked s :
  match Aux.bal_list bal_locals_init (Spec.ranked (trees s) true) with
  | None => compute_ba_tph_bal s = None
  | Some out =>
    exists s', compute_ba_tph_bal s = Some s'
      /\ length (trees s') = length (trees s)
      /\ (forall p i, sort_indices (trees s) true !! p = Some i -> trees s' !! i = out !! p)
  end.
Proof.
  unfold compute_ba_tph_bal.
  set (s0 := set_tph 0 (set_ithw_ba 0 (set_bf_ba 0 (set_ba_hw 0 (set_ba_sw 0 (set_ba 0 s)))))).
  assert (trees s0 = trees s) as Hs0 by reflexivity. rewrite Hs0.
  pose proof (bal_loop_list (sort_indices (trees s) true) bal_locals_init s0
                (sort_indices_NoDup _ _)) as Hloop.
  rewrite Hs0 in Hloop. fold (Spec.ranked (trees s) true) in Hloop.
  assert (Forall (fun i => (i < length (trees s))%nat) (sort_indices (trees s) true)) as Hlt.
  { apply Forall_forall. intros j Hj. apply sort_indices_lt in Hj. exact Hj. }
  specialize (Hloop Hlt).
  destruct (Aux.bal_list bal_locals_init (Spec.ranked (trees s) true)) as [out|].
  - destruct Hloop as (s' & -> & Hlen & Hpos & _). eexists. split; [reflexivity|].
    split; [exact Hlen | exact Hpos].
  - rewrite Hloop. reflexivity.
Qed.

(** C1.  [compute_ba_tph_bal] completes on every list whose diameters do not
    exceed the sentinel 9999.  Whenever it completes, it has changed nothing
    but [bal], [bal_sw] and [bal_hw]; every tree holds in [bal] the sum of
    the basal areas of the trees of strictly greater diameter, and every
    softwood holds in [bal_sw] that sum over the softwoods; so two trees of
    equal diameter hold the same [bal], and two softwoods of equal diameter
    the same [bal_sw]. *)
Theorem compute_ba_tph_bal_ties (s : STAND) :
  (Forall (fun t => Tree.dbh t <= 9999) (trees s) ->
     exists s', compute_ba_tph_bal s = Some s')
  /\ forall s', compute_ba_tph_bal s = Some s' ->
       Forall2 Aux.same_but_bal (trees s) (trees s')
       /\ (forall A, A ∈ trees s' ->
             Tree.bal A == Spec.ba_larger false (Tree.dbh A) (trees s')
             /\ (Tree.is_softwood A = true ->
                 Tree.bal_sw A == Spec.ba_larger true (Tree.dbh A) (trees s')))
       /\ (forall A B, A ∈ trees s' -> B ∈ trees s' -> Tree.dbh A == Tree.dbh B ->
             Tree.bal A == Tree.bal B
             /\ (Tree.is_softwood A = true -> Tree.is_softwood B = true ->
                 Tree.bal_sw A == Tree.bal_sw B)).
Proof.
  pose proof (compute_ba_tph_bal_ranked s) as Hc.
  split.
  - intros H9999.
    destruct (bal_list_total (Spec.ranked (trees s) true) [] bal_locals_init bal_inv_init)
      as [out Hout].
    + apply (ranked_sorted (trees s) true).
    + rewrite (ranked_perm (trees s) true). exact H9999.
    + rewrite (ranked_perm (trees s) true).
      eapply List.Forall_impl; [|exact H9999]. intros t Ht _. exact Ht.
    + rewrite Hout in Hc. destruct Hc as (s' & Hs' & _). eauto.
  - intros s' Hs'.
    destruct (Aux.bal_list bal_locals_init (Spec.ranked (trees s) true)) as [out|] eqn:Hout;
      [|congruence].
    destruct Hc as (s'' & Hs'' & Hlen & Hpos).
    assert (s'' = s') by congruence. subst s''. clear Hs''.
    destruct (bal_list_ranked (trees s) out Hout) as (HF & Hall).
    (* position by position *)
    assert (forall k t', trees s' !! k = Some t' ->
              exists t, trees s !! k = Some t /\ Aux.same_but_bal t t'
                /\ Tree.bal t' == Spec.ba_larger false (Tree.dbh t) (trees s)
                /\ (Tree.is_softwood t = true ->
                    Tree.bal_sw t' == Spec.ba_larger true (Tree.dbh t) (trees s))) as Hk.
    { intros k t' Hk.
      assert (k < length (trees s))%nat as Hklt
        by (rewrite <- Hlen; apply lookup_lt_Some in Hk; exact Hk).
      destruct (sort_indices_position (trees s) true k Hklt) as [p Hp].
      pose proof (Hpos p k Hp) as Hout_p. rewrite Hk in Hout_p. symmetry in Hout_p.
      pose proof (ranked_lookup _ _ _ _ Hp) as Hr.
      destruct (lookup_lt_is_Some_2 _ _ Hklt) as [t Ht]. rewrite Ht in Hr.
      exists t. split; [exact Ht|].
      split; [apply (Forall2_lookup_lr _ _ _ _ _ _ HF Hr Hout_p)|].
      apply (Hall p t t' Hr Hout_p). }
    assert (Forall2 Aux.same_but_bal (trees s) (trees s')) as Hsame.
    { apply Forall2_same_length_lookup_2; [symmetry; exact Hlen|].
      intros k t t' Ht Ht'. destruct (Hk k t' Ht') as (t0 & Ht0 & Hs0 & _).
      congruence. }
    assert (forall A, A ∈ trees s' ->
              Tree.bal A == Spec.ba_larger false (Tree.dbh A) (trees s')
              /\ (Tree.is_softwood A = true ->
                  Tree.bal_sw A == Spec.ba_larger true (Tree.dbh A) (trees s'))) as HA.
    { intros A HA. apply list_elem_of_lookup in HA as [k HkA].
      destruct (Hk k A HkA) as (t & Ht & Hs0 & Hb & Hbs).
      destruct (same_but_bal_fields t A Hs0) as (Hd & _ & Hsw).
      rewrite <- !(ba_larger_same_but_bal _ _ _ _ Hsame). rewrite Hd, Hsw.
      split; assumption. }
    split; [exact Hsame|]. split; [exact HA|].
    intros A B HinA HinB Hd.
    destruct (HA A HinA) as (HbA & HsA). destruct (HA B HinB) as (HbB & HsB).
    split.
    + rewrite HbA, HbB. rewrite (ba_larger_comp false _ _ _ Hd). reflexivity.
    + intros HswA HswB. rewrite (HsA HswA), (HsB HswB).
      rewrite (ba_larger_comp true _ _ _ Hd). reflexivity.
Qed.

End BalTheorem.

Lemma compute_ba_tph_bal_ties_witness :
  exists s', compute_ba_tph_bal (H := libm_q) (Examples.stand_q false 0 Examples.tied) = Some s'
    /\ forall A B, A ∈ trees s' -> B ∈ trees s' -> Tree.dbh A == Tree.dbh B ->
         Tree.bal A == Tree.bal B.
Proof.
  destruct (@compute_ba_tph_bal_ties libm_q (Examples.stand_q false 0 Examples.tied))
    as [Htotal Hties].
  destruct Htotal as [s' Hs'].
  - repeat constructor; vm_compute; discriminate.
  - exists s'. split; [exact Hs'|].
    intros A B HA HB Hd. apply (Hties s' Hs'); assumption.
Defined.

(** ** Mortality *)

Lemma map_lookup {A B} (f : A -> B) (l : list A) i : map f l !! i = f <$> (l !! i).
Proof.
  revert i. induction l as [|x l IH]; intros [|i]; cbn; auto.
Qed.

Section Mortality.
Context `{Libm}.

(** The stand-level multipliers of [STAND::survival]. *)
Lemma survival_lookup s i t :
  trees s !! i = Some t ->
  trees (survival s) !! i
  = Some (Tree.set__dtph
            (Tree.tph (Tree.survival_prob (Region s) (csi s) (ba s) (qmd s)
                         (percent_ba_removed s) (ba_pre_thin s) (qmd_ratio s)
                         (trunc (thin_year s)) (year s) (average_height_hw s)
                         (average_height_sw s) (CDEF s) (use_sbw_mod s) (use_hw_mod s)
                         (use_thin_mod s) t)
             * (1 - Tree.get_survival
                      (Tree.survival_prob (Region s) (csi s) (ba s) (qmd s)
                         (percent_ba_removed s) (ba_pre_thin s) (qmd_ratio s)
                         (trunc (thin_year s)) (year s) (average_height_hw s)
                         (average_height_sw s) (CDEF s) (use_sbw_mod s) (use_hw_mod s)
                         (use_thin_mod s) t))
             * (if use_sbw_mod s then mort_sbw s else 1)
             * (if use_thin_mod s then mort_thin s else 1))
            (Tree.survival_prob (Region s) (csi s) (ba s) (qmd s)
               (percent_ba_removed s) (ba_pre_thin s) (qmd_ratio s)
               (trunc (thin_year s)) (year s) (average_height_hw s)
               (average_height_sw s) (CDEF s) (use_sbw_mod s) (use_hw_mod s)
               (use_thin_mod s) t)).
Proof.
  intros Ht. unfold survival, compute_survival_prob. cbn [trees set_trees].
  rewrite !map_lookup, Ht. reflexivity.
Qed.

(** [apply_growth_mortality] keeps the density within [0, tph] of the
    density it had, provided the loss it is handed is not negative. *)
Lemma apply_growth_mortality_tph_le t :
  0 <= Tree._dtph t -> 0 <= Tree.tph t ->
  0 <= Tree.tph (Tree.apply_growth_mortality t)
  /\ Tree.tph (Tree.apply_growth_mortality t) <= Tree.tph t.
Proof.
  intros Hd Ht. rewrite TreeFacts.apply_growth_mortality_tph. qcases; lra.
Qed.

(** C4 (the code departs from the claim).  A record with positive density
    whose computed survival probability exceeds 1 comes out of [survival]
    followed by [apply_growth_mortality] with a strictly greater density,
    the stand-level multipliers being positive.  The survival probability
    exceeds 1 through the inverted thinning modifier of [survival_prob]. *)
Theorem survival_then_apply_raises_tph s i t :
  trees s !! i = Some t ->
  0 < Tree.tph t ->
  1 < Tree.get_survival
        (Tree.survival_prob (Region s) (csi s) (ba s) (qmd s) (percent_ba_removed s)
           (ba_pre_thin s) (qmd_ratio s) (trunc (thin_year s)) (year s)
           (average_height_hw s) (average_height_sw s) (CDEF s)
           (use_sbw_mod s) (use_hw_mod s) (use_thin_mod s) t) ->
  0 < (if use_sbw_mod s then mort_sbw s else 1) ->
  0 < (if use_thin_mod s then mort_thin s else 1) ->
  exists t', trees (apply_growth_mortality (survival s)) !! i = Some t'
             /\ Tree.tph t < Tree.tph t'.
Proof.
  intros Ht Htph Hp Hm1 Hm2.
  unfold apply_growth_mortality. cbn [trees set_trees].
  rewrite map_lookup, (survival_lookup s i t Ht). cbn [fmap option_fmap option_map].
  eexists. split; [reflexivity|].
  rewrite TreeFacts.apply_growth_mortality_tph.
  set (p := Tree.get_survival _) in *.
  set (m1 := if use_sbw_mod s then mort_sbw s else 1) in *.
  set (m2 := if use_thin_mod s then mort_thin s else 1) in *.
  cbn [Tree._dtph Tree.set__dtph Tree.tph Tree.survival_prob Tree.set__p_survival].
  assert (0 < Tree.tph t * (p - 1)) as H1 by (apply Qmult_lt_0_compat; lra).
  assert (0 < Tree.tph t * (p - 1) * m1) as H2 by (apply Qmult_lt_0_compat; assumption).
  assert (0 < Tree.tph t * (p - 1) * m1 * m2) as H3 by (apply Qmult_lt_0_compat; assumption).
  assert (Tree.tph t * (1 - p) * m1 * m2 == - (Tree.tph t * (p - 1) * m1 * m2)) as Hd by ring.
  qcases; lra.
Qed.

End Mortality.

Lemma survival_then_apply_raises_tph_witness :
  exists t',
    trees (apply_growth_mortality (H := libm_q)
             (survival (H := libm_q) (Examples.thinned_stand [Examples.fir]))) !! 0%nat
    = Some t'
    /\ Tree.tph Examples.fir < Tree.tph t'.
Proof.
  apply (@survival_then_apply_raises_tph libm_q (Examples.thinned_stand [Examples.fir])
           0%nat Examples.fir).
  - reflexivity.
  - vm_compute; reflexivity.
  - vm_compute; reflexivity.
  - vm_compute; reflexivity.
  - vm_compute; reflexivity.
Defined.

(** ** Expanding and collapsing *)

Section Expand.
Context `{Libm}.
Variable jitter : nat -> Q.
Variable delta : Q.
Hypothesis jitter_bound : forall k, - delta <= jitter k /\ jitter k <= delta.

Lemma delta_nonneg : 0 <= delta.
Proof. destruct (jitter_bound 0%nat). lra. Qed.

Lemma expand_loop_groups threshold orig k :
  fst (expand_loop jitter threshold orig k)
  = (map (fun g => snd (fst g)) (Aux.expand_groups jitter threshold orig k),
     concat (map snd (Aux.expand_groups jitter threshold orig k))).
Proof.
  revert k. induction orig as [|t rest IH]; intros k; cbn.
  - reflexivity.
  - destruct (expand_record jitter threshold t k) as [[t' added] k'].
    specialize (IH k'). destruct (expand_loop jitter threshold rest k') as [[kept' added'] k''].
    cbn in IH |- *. inversion IH; subst. reflexivity.
Qed.

Lemma expand_groups_orig threshold orig k :
  map (fun g => fst (fst g)) (Aux.expand_groups jitter threshold orig k) = orig.
Proof.
  revert k. induction orig as [|t rest IH]; intros k; cbn.
  - reflexivity.
  - destruct (expand_record jitter threshold t k) as [[t' added] k']. cbn. rewrite IH.
    reflexivity.
Qed.

(** A copy differs from the record it is made of by its number, its
    density and the perturbation of diameter and height. *)
Lemma expand_copy_spec t id new_tph k J :
  (0 < id < J)%Z -> 0 < new_tph ->
  Aux.copy_of delta t J (fst (expand_copy jitter t id new_tph k))
  /\ Tree.tph (fst (expand_copy jitter t id new_tph k)) = new_tph.
Proof.
  intros Hid Htph. unfold expand_copy. cbn.
  destruct (jitter_bound k) as [Hk1 Hk2]. destruct (jitter_bound (S k)) as [Hk3 Hk4].
  pose proof delta_nonneg as Hd.
  destruct (Qltb 0 (Tree.ht t)); cbn; unfold Aux.copy_of, Aux.key; cbn;
    repeat split; try lia; try lra.
Qed.

Lemma expand_copies_spec threshold t J n : forall j cum k,
  (0 <= j)%Z -> (j + Z.of_nat n < J)%Z -> 0 < threshold ->
  Forall (Aux.copy_of delta t J) (fst (expand_copies jitter threshold t n j cum k))
  /\ fst (fst (snd (expand_copies jitter threshold t n j cum k))) = (j + Z.of_nat n)%Z
  /\ snd (fst (snd (expand_copies jitter threshold t n j cum k)))
     == cum + Qsum (map Tree.tph (fst (expand_copies jitter threshold t n j cum k)))
  /\ Qsum (map Tree.tph (fst (expand_copies jitter threshold t n j cum k)))
     == inject_Z (Z.of_nat n) * threshold.
Proof.
  induction n as [|n IH]; intros j cum k Hj HJ Hthr.
  - cbn [expand_copies fst snd map Z.of_nat]. rewrite Z.add_0_r, Qsum_nil.
    change (inject_Z 0) with 0. repeat split; try constructor; lra.
  - cbn [expand_copies].
    pose proof (expand_copy_spec t (j + 1)%Z threshold k J) as Hc.
    destruct (expand_copy jitter t (j + 1) threshold k) as [c k1]. cbn [fst] in Hc.
    destruct Hc as [Hcopy Htph]; [lia | exact Hthr |].
    specialize (IH (j + 1)%Z (cum + threshold) k1).
    destruct (expand_copies jitter threshold t n (j + 1) (cum + threshold) k1)
      as [cs [[j' cum'] k']].
    cbn [fst snd] in IH |- *.
    destruct IH as (I1 & I2 & I3 & I4); [lia | lia | exact Hthr |].
    cbn [map]. rewrite Qsum_cons, Htph.
    split; [constructor; assumption|]. split; [lia|].
    split; [rewrite I3; lra|].
    rewrite I4. rewrite Nat2Z.inj_succ, <- Z.add_1_r, inject_Z_plus.
    change (inject_Z 1) with 1. ring.
Qed.

(** The whole Aux.copies fit below the density of the record. *)
Lemma expand_count_fits threshold x :
  0 < threshold -> threshold < x ->
  threshold + inject_Z (Z.of_nat (Z.to_nat (trunc (x / threshold) - 1))) * threshold <= x.
Proof.
  intros Hthr Hx.
  assert (1 <= x / threshold) as H1 by (apply Qle_shift_div_l; lra).
  assert (trunc (x / threshold) = Qfloor (x / threshold)) as ->.
  { unfold trunc. assert (Qltb (x / threshold) 0 = false) as -> by (apply Qltb_false; lra).
    reflexivity. }
  assert (1 <= Qfloor (x / threshold))%Z as Hf.
  { change 1%Z with (Qfloor (inject_Z 1)). apply Qfloor_resp_le. exact H1. }
  rewrite Z2Nat.id by lia.
  unfold Z.sub. rewrite inject_Z_plus. change (inject_Z (- (1))) with (- (1)).
  pose proof (Qfloor_le (x / threshold)) as Hle.
  assert (inject_Z (Qfloor (x / threshold)) * threshold <= x / threshold * threshold) as Hm
    by (apply Qmult_le_compat_r; lra).
  assert (x / threshold * threshold == x) as Hx' by (field; lra).
  lra.
Qed.

(** What the expansion makes of one record. *)
Lemma expand_record_ok threshold t k :
  0 < threshold -> Tree.expand_tree_id t = 0%Z ->
  Aux.group_ok delta threshold
    (t, fst (fst (expand_record jitter threshold t k)),
     snd (fst (expand_record jitter threshold t k))).
Proof.
  intros Hthr Hid. unfold expand_record.
  destruct (Qltb threshold (Tree.tph t)) eqn:E;
    [apply Qltb_true in E | apply Qltb_false in E].
  - set (n := Z.to_nat (trunc (Tree.tph t / threshold) - 1)).
    pose proof (expand_count_fits threshold (Tree.tph t) Hthr E) as Hfit. fold n in Hfit.
    pose proof (fun J => expand_copies_spec threshold t J n 0%Z threshold k) as Hcs.
    destruct (expand_copies jitter threshold t n 0 threshold k) as [cs [[j cum] k1]].
    cbn [fst snd] in Hcs.
    destruct (Qltb cum (Tree.tph t)) eqn:E2;
      [apply Qltb_true in E2 | apply Qltb_false in E2].
    + destruct (Hcs (Z.of_nat n + 2)%Z) as (C1 & C2 & C3 & C4); [lia | lia | exact Hthr |].
      pose proof (expand_copy_spec t (j + 1)%Z (Tree.tph t - cum) k1 (Z.of_nat n + 2)%Z) as Hc.
      destruct (expand_copy jitter t (j + 1) (Tree.tph t - cum) k1) as [c k2].
      cbn [fst snd] in Hc |- *. destruct Hc as [Hcopy Htph]; [lia | lra |].
      unfold Aux.group_ok. cbn [Tree.expand_tree_id Tree.compute_attributes Tree.compute_mca
        Tree.compute_lcw Tree.compute_mcw Tree.set_mca Tree.set_lcw Tree.set_mcw Tree.set_ba
        Tree.set_expand_tree_id Tree.set_tph].
      subst j. rewrite Z.add_0_l.
      replace (Z.of_nat n + 1 + 1)%Z with (Z.of_nat n + 2)%Z by lia.
      split; [reflexivity|]. split; [apply Forall_app; split; [exact C1 | constructor; [exact Hcopy | constructor]]|].
      right. split; [lia|]. split; [reflexivity|].
      rewrite map_app, Qsum_app. cbn [map]. rewrite Qsum_cons, Qsum_nil, Htph. lra.
    + destruct (Hcs (Z.of_nat n + 1)%Z) as (C1 & C2 & C3 & C4); [lia | lia | exact Hthr |].
      cbn [fst snd].
      unfold Aux.group_ok. cbn [Tree.expand_tree_id Tree.compute_attributes Tree.compute_mca
        Tree.compute_lcw Tree.compute_mcw Tree.set_mca Tree.set_lcw Tree.set_mcw Tree.set_ba
        Tree.set_expand_tree_id Tree.set_tph].
      subst j. rewrite Z.add_0_l.
      split; [reflexivity|]. rewrite app_nil_r. split; [exact C1|].
      right. split; [lia|]. split; [reflexivity|]. lra.
  - cbn. split; [reflexivity|]. split; [constructor|]. left. auto.
Qed.

(** *** The inner loop of the collapse *)

(** The accumulator takes in, left to right, the records of its group; each
    of them is marked as consumed where it stands. *)
Lemma absorb_spec rest : forall acc,
  absorb acc rest
  = (foldl accumulate acc (List.filter (same_group acc) rest),
     map (fun x => if same_group acc x then consumed x else x) rest).
Proof.
  induction rest as [|x r IH]; intros acc; cbn [absorb List.filter map foldl].
  - reflexivity.
  - destruct (same_group acc x) eqn:E.
    + rewrite IH. cbn [foldl]. reflexivity.
    + rewrite IH. reflexivity.
Qed.

Lemma same_group_key acc x : same_group acc x = true -> Aux.key x = Aux.key acc.
Proof.
  unfold same_group, Aux.key. intros Hs.
  apply andb_true_iff in Hs as [Hs _]. apply andb_true_iff in Hs as [Hs _].
  apply andb_true_iff in Hs as [Hp Ht].
  apply Z.eqb_eq in Hp, Ht. congruence.
Qed.

Lemma filter_none {A} (f : A -> bool) (l : list A) :
  Forall (fun x => f x = false) l -> List.filter f l = [].
Proof.
  induction 1 as [|x l Hx Hl IH]; cbn; [reflexivity|]. rewrite Hx. exact IH.
Qed.

Lemma filter_all {A} (f : A -> bool) (l : list A) :
  Forall (fun x => f x = true) l -> List.filter f l = l.
Proof.
  induction 1 as [|x l Hx Hl IH]; cbn; [reflexivity|]. rewrite Hx, IH. reflexivity.
Qed.

Lemma map_mark_none {A} (f : A -> bool) (g : A -> A) (l : list A) :
  Forall (fun x => f x = false) l -> map (fun x => if f x then g x else x) l = l.
Proof.
  induction 1 as [|x l Hx Hl IH]; cbn; [reflexivity|]. rewrite Hx, IH. reflexivity.
Qed.

Lemma map_mark_all {A} (f : A -> bool) (g : A -> A) (l : list A) :
  Forall (fun x => f x = true) l -> map (fun x => if f x then g x else x) l = map g l.
Proof.
  induction 1 as [|x l Hx Hl IH]; cbn; [reflexivity|]. rewrite Hx, IH. reflexivity.
Qed.

(** Records with another key are left alone. *)
Lemma same_group_other_key acc (l : list Tree.TREE) :
  Forall (fun x => Aux.key x <> Aux.key acc) l ->
  Forall (fun x => same_group acc x = false) l.
Proof.
  apply List.Forall_impl. intros x Hx.
  destruct (same_group acc x) eqn:E; [|reflexivity].
  apply same_group_key in E. contradiction.
Qed.

(** The Aux.copies of a record are the group of the record left in its place. *)
Lemma same_group_copies t t0 cs :
  Aux.key t0 = Aux.key t ->
  Forall (Aux.copy_of delta t (Tree.expand_tree_id t0)) cs ->
  Forall (fun x => same_group t0 x = true) cs.
Proof.
  intros Hk. apply List.Forall_impl. intros c (Hkc & Hid & _).
  unfold same_group. rewrite <- Hk in Hkc. unfold Aux.key in Hkc. inversion Hkc as [[Hp Ht]].
  rewrite !Z.eqb_refl. cbn.
  assert ((0 <? Tree.expand_tree_id c)%Z = true) as -> by (apply Z.ltb_lt; lia).
  assert ((Tree.expand_tree_id c =? Tree.expand_tree_id t0)%Z = false) as ->
    by (apply Z.eqb_neq; lia).
  reflexivity.
Qed.

(** *** The outer loop of the collapse *)

Lemma unexpand_loop_pos n t rest :
  (0 < Tree.expand_tree_id t)%Z ->
  unexpand_loop (S n) (t :: rest)
  = average (fst (absorb (weigh t) rest)) :: unexpand_loop n (snd (absorb (weigh t) rest)).
Proof.
  intros Hid. cbn [unexpand_loop]. apply Z.ltb_lt in Hid. rewrite Hid.
  destruct (absorb (weigh t) rest). reflexivity.
Qed.

Lemma unexpand_loop_zero n t rest :
  Tree.expand_tree_id t = 0%Z ->
  unexpand_loop (S n) (t :: rest) = t :: unexpand_loop n rest.
Proof.
  intros Hid. cbn [unexpand_loop]. rewrite Hid. reflexivity.
Qed.

Lemma group_kept_key thr gs :
  Forall (Aux.group_ok delta thr) gs ->
  Forall (fun x => Aux.key x ∈ Aux.keys gs) (Aux.kept gs).
Proof.
  induction 1 as [|[[t t0] cs] gs Hg Hgs IH]; cbn.
  - constructor.
  - destruct Hg as (Hk & _). constructor.
    + rewrite Hk. apply list_elem_of_here.
    + eapply List.Forall_impl; [|exact IH]. intros x Hx. apply list_elem_of_further. exact Hx.
Qed.

Lemma group_copies_key thr gs :
  Forall (Aux.group_ok delta thr) gs ->
  Forall (fun x => Aux.key x ∈ Aux.keys gs) (Aux.copies gs).
Proof.
  induction 1 as [|[[t t0] cs] gs Hg Hgs IH]; unfold Aux.copies; cbn.
  - constructor.
  - destruct Hg as (_ & Hcs & _). apply Forall_app. split.
    + eapply List.Forall_impl; [|exact Hcs]. intros c (Hkc & _). cbv beta.
      rewrite Hkc. apply list_elem_of_here.
    + eapply List.Forall_impl; [|exact IH]. intros x Hx. apply list_elem_of_further. exact Hx.
Qed.

(** The loop over the records left in place: each takes in its own Aux.copies
    and nothing else; what remains to visit are consumed Aux.copies. *)
Lemma unexpand_loop_groups thr gs : forall C,
  Forall (Aux.group_ok delta thr) gs ->
  NoDup (Aux.keys gs) ->
  Forall (fun x => Aux.key x ∉ Aux.keys gs) C ->
  unexpand_loop (length (Aux.kept gs ++ C ++ Aux.copies gs)) (Aux.kept gs ++ C ++ Aux.copies gs)
  = map (fun g => Aux.collapse (snd (fst g)) (snd g)) gs
    ++ unexpand_loop (length (C ++ map consumed (Aux.copies gs))) (C ++ map consumed (Aux.copies gs)).
Proof.
  induction gs as [|[[t t0] cs] gs IH]; intros C Hok Hnd HC.
  - reflexivity.
  - apply Forall_cons in Hok as [Hg Hok]. apply NoDup_cons in Hnd as [Hnotin Hnd].
    pose proof Hg as (Hk & Hcs & Hcase).
    assert (Forall (fun x => Aux.key x <> Aux.key t0) (Aux.kept gs)) as Hkept.
    { eapply List.Forall_impl; [|exact (group_kept_key thr gs Hok)].
      intros x Hx Heq. apply Hnotin. cbn. rewrite <- Hk, <- Heq. exact Hx. }
    assert (Forall (fun x => Aux.key x <> Aux.key t0) (Aux.copies gs)) as Hcopies.
    { eapply List.Forall_impl; [|exact (group_copies_key thr gs Hok)].
      intros x Hx Heq. apply Hnotin. cbn. rewrite <- Hk, <- Heq. exact Hx. }
    assert (Forall (fun x => Aux.key x <> Aux.key t0) C) as HC0.
    { eapply List.Forall_impl; [|exact HC]. intros x Hx Heq. apply Hx. cbn.
      rewrite Heq, Hk. apply list_elem_of_here. }
    assert (Forall (fun x => Aux.key x ∉ Aux.keys gs) C) as HC'.
    { eapply List.Forall_impl; [|exact HC]. intros x Hx Hin. apply Hx.
      apply list_elem_of_further. exact Hin. }
    change (Aux.kept ((t, t0, cs) :: gs)) with (t0 :: Aux.kept gs).
    change (Aux.copies ((t, t0, cs) :: gs)) with (cs ++ Aux.copies gs).
    cbn [map fst snd app length].
    destruct Hcase as [(Hid & -> & ->) | (Hid & Ht0 & Hsum)].
    + rewrite unexpand_loop_zero by exact Hid.
      unfold Aux.collapse. rewrite Hid. cbn [Z.ltb Z.compare app].
      rewrite (IH C Hok Hnd HC'). reflexivity.
    + rewrite unexpand_loop_pos by exact Hid.
      assert (Forall (fun x => same_group (weigh t0) x = true) cs) as Hsg
        by exact (same_group_copies t t0 cs Hk Hcs).
      rewrite absorb_spec. cbn [fst snd].
      rewrite !List.filter_app, !map_app.
      rewrite (filter_none _ _ (same_group_other_key (weigh t0) _ Hkept)).
      rewrite (filter_none _ _ (same_group_other_key (weigh t0) _ HC0)).
      rewrite (filter_none _ _ (same_group_other_key (weigh t0) _ Hcopies)).
      rewrite (filter_all _ _ Hsg).
      rewrite (map_mark_none _ _ _ (same_group_other_key (weigh t0) _ Hkept)).
      rewrite (map_mark_none _ _ _ (same_group_other_key (weigh t0) _ HC0)).
      rewrite (map_mark_none _ _ _ (same_group_other_key (weigh t0) _ Hcopies)).
      rewrite (map_mark_all _ _ _ Hsg).
      cbn [app]. rewrite app_nil_r.
      unfold Aux.collapse. apply Z.ltb_lt in Hid. rewrite Hid. f_equal.
      specialize (IH (C ++ map consumed cs) Hok Hnd).
      rewrite <- !app_assoc in IH.
      assert (length (Aux.kept gs ++ C ++ cs ++ Aux.copies gs)
              = length (Aux.kept gs ++ C ++ map consumed cs ++ Aux.copies gs)) as ->
        by (rewrite !length_app, length_map; reflexivity).
      rewrite IH; [reflexivity|].
      apply Forall_app. split; [exact HC'|].
      apply Forall_forall. intros x Hx. apply list_elem_of_In, in_map_iff in Hx as (c & <- & Hc).
      rewrite Forall_forall in Hcs. apply list_elem_of_In in Hc.
      destruct (Hcs c Hc) as (Hkc & _).
      change (Aux.key (consumed c)) with (Aux.key c). rewrite Hkc. exact Hnotin.
Qed.

(** Consumed records stay at zero density to the end of the loop. *)
Lemma unexpand_loop_consumed (C : list Tree.TREE) :
  Forall (fun x => Tree.expand_tree_id x = to_ulong (-1) /\ Tree.tph x = 0) C ->
  Forall (fun x => Tree.tph x == 0) (unexpand_loop (length C) C).
Proof.
  induction 1 as [|x C [Hid Htph] HC IH]; cbn [length].
  - constructor.
  - rewrite unexpand_loop_pos by (rewrite Hid; reflexivity).
    assert (Forall (fun y => same_group (weigh x) y = false) C) as Hnone.
    { eapply List.Forall_impl; [|exact HC]. intros y [Hy _]. unfold same_group.
      change (Tree.expand_tree_id (weigh x)) with (Tree.expand_tree_id x).
      rewrite Hy, Hid, Z.eqb_refl. cbn. apply andb_false_r. }
    rewrite absorb_spec. cbn [fst snd].
    rewrite (filter_none _ _ Hnone), (map_mark_none _ _ _ Hnone). cbn [foldl].
    constructor; [|exact IH].
    unfold average. change (Tree.tph (weigh x)) with (Tree.tph x). rewrite Htph.
    change (Qltb 0 0) with false. cbv iota.
    change (Tree.tph (weigh x)) with (Tree.tph x). rewrite Htph. reflexivity.
Qed.

(** *** The collapsed record *)

Lemma foldl_accumulate_fields cs : forall acc,
  Tree.tph (foldl accumulate acc cs) == Tree.tph acc + Qsum (map Tree.tph cs)
  /\ Tree.dbh (foldl accumulate acc cs)
     == Tree.dbh acc + Qsum (map (fun c => Tree.dbh c * Tree.tph c) cs)
  /\ Tree.ht (foldl accumulate acc cs)
     == Tree.ht acc + Qsum (map (fun c => Tree.ht c * Tree.tph c) cs)
  /\ Tree.hcb (foldl accumulate acc cs)
     == Tree.hcb acc + Qsum (map (fun c => Tree.hcb c * Tree.tph c) cs)
  /\ Tree.cr (foldl accumulate acc cs)
     == Tree.cr acc + Qsum (map (fun c => Tree.cr c * Tree.tph c) cs)
  /\ Aux.key (foldl accumulate acc cs) = Aux.key acc
  /\ Tree.spp (foldl accumulate acc cs) = Tree.spp acc.
Proof.
  induction cs as [|c cs IH]; intros acc; cbn [foldl map].
  - rewrite !Qsum_nil. repeat split; lra.
  - destruct (IH (accumulate acc c)) as (I1 & I2 & I3 & I4 & I5 & I6 & I7).
    rewrite !Qsum_cons. rewrite I1, I2, I3, I4, I5, I6, I7. cbn.
    repeat split; lra.
Qed.

(** The density-weighted sum of a quantity that every copy carries within
    [delta] of the value [b]. *)
Lemma weighted_sum_bound (f : Tree.TREE -> Q) b cs :
  Forall (fun c => 0 < Tree.tph c /\ - delta <= f c - b /\ f c - b <= delta) cs ->
  - delta * Qsum (map Tree.tph cs)
    <= Qsum (map (fun c => f c * Tree.tph c) cs) - b * Qsum (map Tree.tph cs)
  /\ Qsum (map (fun c => f c * Tree.tph c) cs) - b * Qsum (map Tree.tph cs)
     <= delta * Qsum (map Tree.tph cs)
  /\ 0 <= Qsum (map Tree.tph cs).
Proof.
  induction 1 as [|c cs (Hc & Hlo & Hhi) Hcs IH]; cbn [map].
  - rewrite !Qsum_nil. repeat split; lra.
  - rewrite !Qsum_cons. destruct IH as (I1 & I2 & I3).
    assert (0 <= (f c - b + delta) * Tree.tph c) as H1 by (apply Qmult_le_0_compat; lra).
    assert (0 <= (delta - (f c - b)) * Tree.tph c) as H2 by (apply Qmult_le_0_compat; lra).
    repeat split; lra.
Qed.

Lemma average_bound X T b e :
  0 < T -> - e * T <= X - b * T -> X - b * T <= e * T ->
  - e <= X / T - b /\ X / T - b <= e.
Proof.
  intros HT Hlo Hhi.
  assert (X / T - b == (X - b * T) / T) as -> by (field; lra).
  split.
  - apply Qle_shift_div_l; [exact HT | lra].
  - apply Qle_shift_div_r; [exact HT | lra].
Qed.

Lemma average_exact X T b : 0 < T -> X == b * T -> X / T == b.
Proof. intros HT ->. field. lra. Qed.

(** The collapsed record against the original one. *)
Lemma collapse_spec thr t t0 cs :
  0 < thr -> Tree.expand_tree_id t = 0%Z -> 0 < Tree.tph t ->
  Aux.group_ok delta thr (t, t0, cs) ->
  Aux.round_trip delta t (Aux.collapse t0 cs).
Proof.
  intros Hthr Hid Htph (Hk & Hcs & Hcase). pose proof delta_nonneg as Hd.
  unfold Aux.collapse.
  destruct Hcase as [(Hid0 & -> & ->) | (Hid0 & Ht0 & Hsum)].
  - rewrite Hid0. cbn [Z.ltb Z.compare]. unfold Aux.round_trip. repeat split; try lra; auto.
  - apply Z.ltb_lt in Hid0. rewrite Hid0.
    destruct (foldl_accumulate_fields cs (weigh t0)) as (F1 & F2 & F3 & F4 & F5 & F6 & F7).
    assert (Tree.tph t0 = thr /\ Tree.dbh t0 = Tree.dbh t /\ Tree.ht t0 = Tree.ht t
            /\ Tree.hcb t0 = Tree.hcb t /\ Tree.cr t0 = Tree.cr t /\ Tree.spp t0 = Tree.spp t)
      as (T1 & T2 & T3 & T4 & T5 & T6) by (rewrite Ht0; repeat split; reflexivity).
    cbn [weigh Tree.tph Tree.dbh Tree.ht Tree.hcb Tree.cr Tree.spp Tree.set_dbh Tree.set_ht
         Tree.set_hcb Tree.set_cr] in F1, F2, F3, F4, F5, F7.
    change (Aux.key (weigh t0)) with (Aux.key t0) in F6.
    rewrite T1 in F1, F2, F3, F4, F5. rewrite T2 in F2. rewrite T3 in F3. rewrite T4 in F4.
    rewrite T5 in F5. rewrite T6 in F7.
    set (A := foldl accumulate (weigh t0) cs) in *.
    assert (0 < Tree.tph A) as HT by lra.
    unfold average. apply Qltb_true in HT. rewrite HT. apply Qltb_true in HT.
    (* the Aux.copies against the original *)
    destruct (weighted_sum_bound Tree.dbh (Tree.dbh t) cs) as (D1 & D2 & D3).
    { eapply List.Forall_impl; [|exact Hcs]. intros c Hc. unfold Aux.copy_of in Hc. tauto. }
    destruct (weighted_sum_bound Tree.ht (Tree.ht t) cs) as (E1 & E2 & _).
    { eapply List.Forall_impl; [|exact Hcs]. intros c Hc. unfold Aux.copy_of in Hc. tauto. }
    assert (Qsum (map (fun c => Tree.cr c * Tree.tph c) cs)
            == Tree.cr t * Qsum (map Tree.tph cs)) as Hcr.
    { clear - Hcs. induction Hcs as [|c cs Hc _ IH]; cbn [map].
      - rewrite !Qsum_nil. ring.
      - rewrite !Qsum_cons, IH. destruct Hc as (_ & _ & _ & -> & _). ring. }
    assert (Qsum (map (fun c => Tree.hcb c * Tree.tph c) cs)
            == Tree.hcb t * Qsum (map Tree.tph cs)) as Hhcb.
    { clear - Hcs. induction Hcs as [|c cs Hc _ IH]; cbn [map].
      - rewrite !Qsum_nil. ring.
      - rewrite !Qsum_cons, IH. destruct Hc as (_ & _ & _ & _ & -> & _). ring. }
    assert (0 <= delta * thr) as Hdt by (apply Qmult_le_0_compat; lra).
    unfold Aux.round_trip.
    cbn [Tree.compute_attributes Tree.compute_mca Tree.compute_lcw Tree.compute_mcw
         Tree.set_mca Tree.set_lcw Tree.set_mcw Tree.set_ba Tree.set_expand_tree_id
         Tree.set_cr Tree.set_hcb Tree.set_ht Tree.set_dbh
         Tree.tph Tree.dbh Tree.ht Tree.hcb Tree.cr Tree.spp Tree.expand_tree_id].
    split; [rewrite <- Hk, <- F6; reflexivity|].
    split; [exact F7|]. split; [reflexivity|]. split; [lra|].
    split; [apply average_exact; [exact HT | rewrite F5, F1, Hcr; ring]|].
    split; [apply average_exact; [exact HT | rewrite F4, F1, Hhcb; ring]|].
    assert (forall X b S,
              X == b * thr + S ->
              - delta * Qsum (map Tree.tph cs) <= S - b * Qsum (map Tree.tph cs) ->
              S - b * Qsum (map Tree.tph cs) <= delta * Qsum (map Tree.tph cs) ->
              - delta <= X / Tree.tph A - b /\ X / Tree.tph A - b <= delta) as Hbound.
    { intros X b S HX Hlo Hhi. apply average_bound; [exact HT | |].
      - rewrite F1, HX.
        assert (- delta * (thr + Qsum (map Tree.tph cs))
                == - delta * Qsum (map Tree.tph cs) - delta * thr) as -> by ring.
        assert (b * thr + S - b * (thr + Qsum (map Tree.tph cs))
                == S - b * Qsum (map Tree.tph cs)) as -> by ring.
        lra.
      - rewrite F1, HX.
        assert (delta * (thr + Qsum (map Tree.tph cs))
                == delta * Qsum (map Tree.tph cs) + delta * thr) as -> by ring.
        assert (b * thr + S - b * (thr + Qsum (map Tree.tph cs))
                == S - b * Qsum (map Tree.tph cs)) as -> by ring.
        lra. }
    destruct (Hbound _ _ _ F2 D1 D2) as [B1 B2].
    destruct (Hbound _ _ _ F3 E1 E2) as [B3 B4].
    repeat split; assumption.
Qed.

Lemma expand_groups_ok thr orig : forall k,
  0 < thr -> Forall (fun t => Tree.expand_tree_id t = 0%Z) orig ->
  Forall (Aux.group_ok delta thr) (Aux.expand_groups jitter thr orig k).
Proof.
  induction orig as [|t rest IH]; intros k Hthr Hid; cbn [Aux.expand_groups].
  - constructor.
  - apply Forall_cons in Hid as [Ht Hrest].
    pose proof (expand_record_ok thr t k Hthr Ht) as Hg.
    destruct (expand_record jitter thr t k) as [[t' added] k']. cbn [fst snd] in Hg.
    constructor; [exact Hg | apply IH; assumption].
Qed.

Lemma keys_expand_groups thr orig k :
  Aux.keys (Aux.expand_groups jitter thr orig k) = map Aux.key orig.
Proof.
  unfold Aux.keys. rewrite <- (expand_groups_orig thr orig k) at 2.
  rewrite map_map. reflexivity.
Qed.

(** C5 (as amended).  Let the records of the list carry expand id 0,
    pairwise distinct (plot, tree) ids and positive densities, and let every
    draw of the jitter lie within [delta] of zero.  Expanding the list with a
    positive threshold and collapsing it at once yields as many records, in
    the same order; each has the identity, species, density, crown ratio and
    crown base of the original record, and a diameter and a height within
    [delta] of the original ones. *)
Theorem expand_unexpand_round_trip (thr : Q) (s : STAND) :
  0 < thr ->
  Forall (fun t => Tree.expand_tree_id t = 0%Z) (trees s) ->
  NoDup (map Aux.key (trees s)) ->
  Forall (fun t => 0 < Tree.tph t) (trees s) ->
  Forall2 (Aux.round_trip delta) (trees s)
    (trees (snd (unexpand_tree_list (snd (expand_tree_list jitter thr s))))).
Proof.
  intros Hthr Hid Hnd Htph.
  destruct (trees s) as [|t0 ts] eqn:Htrees.
  - unfold expand_tree_list. rewrite Htrees. cbn. rewrite Htrees. cbn. constructor.
  - rewrite <- Htrees in *.
    set (gs := Aux.expand_groups jitter thr (trees s) 0%nat).
    assert (trees (snd (expand_tree_list jitter thr s)) = Aux.kept gs ++ [] ++ Aux.copies gs) as Hexp.
    { unfold expand_tree_list. rewrite Htrees. rewrite <- Htrees.
      pose proof (expand_loop_groups thr (trees s) 0%nat) as Hl.
      destruct (expand_loop jitter thr (trees s) 0) as [[kp ad] k']. cbn [fst] in Hl.
      inversion Hl; subst. reflexivity. }
    pose proof (expand_groups_ok thr (trees s) 0%nat Hthr Hid) as Hok. fold gs in Hok.
    pose proof (keys_expand_groups thr (trees s) 0%nat) as Hkeys. fold gs in Hkeys.
    pose proof (expand_groups_orig thr (trees s) 0%nat) as Horig. fold gs in Horig.
    unfold unexpand_tree_list. cbn [snd trees set_trees]. rewrite Hexp.
    rewrite (unexpand_loop_groups thr gs [] Hok); [|rewrite Hkeys; exact Hnd | constructor].
    cbn [app].
    (* the collapsed records, group by group *)
    assert (Forall2 (Aux.round_trip delta) (trees s)
              (map (fun g => Aux.collapse (snd (fst g)) (snd g)) gs)) as Hrt.
    { rewrite <- Horig in Hid, Htph |- *. clear - Hok Hid Htph Hthr jitter_bound.
      induction Hok as [|[[t t1] cs] gs Hg Hgs IH]; cbn [map fst snd] in *.
      - constructor.
      - apply Forall_cons in Hid as [Hid1 Hid]. apply Forall_cons in Htph as [Ht1 Htph].
        constructor; [apply (collapse_spec thr); assumption | apply IH; assumption]. }
    assert (Forall (fun x => negb (Qeqb (Tree.tph x) 0) = true)
              (map (fun g => Aux.collapse (snd (fst g)) (snd g)) gs)) as Hlive.
    { apply Forall_forall. intros r Hr.
      apply list_elem_of_lookup in Hr as [i Hi].
      destruct (Forall2_lookup_r _ _ _ _ _ Hrt Hi) as (t & Ht & Hround).
      rewrite Forall_forall in Htph. specialize (Htph t (list_elem_of_lookup_2 _ _ _ Ht)).
      destruct Hround as (_ & _ & _ & Hsame & _).
      apply negb_true_iff, Qeqb_false. lra. }
    assert (Forall (fun x => negb (Qeqb (Tree.tph x) 0) = false)
              (unexpand_loop (length (map consumed (Aux.copies gs))) (map consumed (Aux.copies gs))))
      as Hdead.
    { eapply List.Forall_impl; [|apply unexpand_loop_consumed].
      - intros x Hx. apply negb_false_iff, Qeqb_true. exact Hx.
      - apply Forall_forall. intros x Hx. apply list_elem_of_In, in_map_iff in Hx as (c & <- & _).
        split; reflexivity. }
    rewrite List.filter_app, (filter_all _ _ Hlive), (filter_none _ _ Hdead), app_nil_r.
    exact Hrt.
Qed.

End Expand.

Lemma jitter_q_bound k : - 0.005 <= Examples.jitter_q k /\ Examples.jitter_q k <= 0.005.
Proof. unfold Examples.jitter_q. destruct (Nat.even k); split; lra. Qed.

Lemma expand_unexpand_round_trip_witness :
  Forall2 (Aux.round_trip 0.005) (trees (Examples.stand_q false 0 Examples.mixed))
    (trees (snd (unexpand_tree_list (H := libm_q)
                   (snd (expand_tree_list (H := libm_q) Examples.jitter_q 50
                           (Examples.stand_q false 0 Examples.mixed)))))).
Proof.
  apply (@expand_unexpand_round_trip libm_q Examples.jitter_q 0.005 jitter_q_bound 50
           (Examples.stand_q false 0 Examples.mixed)).
  - reflexivity.
  - repeat constructor.
  - apply NoDup_ListNoDup. vm_compute. repeat constructor; cbn; intuition discriminate.
  - repeat constructor.
Defined.

(** C5 as stated fails: a red spruce of 20 cm standing for 80 trees/ha is
    expanded into a record of 50 and a copy of 30 whose diameter is moved by
    the jitter; the collapsed record is thicker than the original one. *)
Lemma expand_unexpand_moves_diameter :
  ~ (forall (L : Libm) (jitter : nat -> Q),
       (forall k, - 0.005 <= jitter k /\ jitter k <= 0.005) ->
       forall s,
         Forall2 (Aux.round_trip 0) (trees s)
           (trees (snd (unexpand_tree_list (snd (expand_tree_list jitter 50 s)))))).
Proof.
  intros Hall.
  specialize (Hall libm_q Examples.jitter_q jitter_q_bound
                (Examples.stand_q false 0 [Examples.spruce])).
  destruct (Forall2_lookup_l _ _ _ 0%nat Examples.spruce Hall eq_refl) as (r & Hr & Hround).
  vm_compute in Hr. inversion Hr; subst; clear Hr.
  destruct Hround as (_ & _ & _ & _ & _ & _ & _ & Hhi & _).
  vm_compute in Hhi. apply Hhi. reflexivity.
Qed.

(** ** Ingrowth allocation *)

(** *** Association lists *)






Lemma existsb_eqb_false k (l : list Z) : existsb (Z.eqb k) l = false -> k ∉ l.
Proof.
  intros He Hin. apply list_elem_of_In in Hin.
  assert (existsb (Z.eqb k) l = true) by (apply existsb_exists; exists k; split; [exact Hin | apply Z.eqb_refl]).
  congruence.
Qed.




(** *** The basal-area maps *)






(** The fields outside the three maps are left as they were. *)
Lemma build_fold_frame T : forall s,
  trees (foldl build_ba_spp_step s T) = trees s
  /\ ba (foldl build_ba_spp_step s T) = ba s
  /\ csi (foldl build_ba_spp_step s T) = csi s
  /\ MinDBH (foldl build_ba_spp_step s T) = MinDBH s
  /\ max_tree_id (foldl build_ba_spp_step s T) = max_tree_id s.
Proof.
  induction T as [|t T IH]; intros s; cbn [foldl].
  - repeat split.
  - destruct (IH (build_ba_spp_step s t)) as (-> & -> & -> & -> & ->). repeat split.
Qed.




(** *** Shares of the groups *)



Section Composition.
Context `{Libm}.
Hypothesis exp_pos : Aux.exp_positive.







(** *** Allocation to species and plots *)




(** *** The new records *)

Section NewTrees.
Variable resolve : Z -> option Tree.SPECIES.



End NewTrees.

(** *** Conservation *)



End Composition.





End StandFacts.

(** * Facts about the increments, the imputation, form and risk *)

Module GrowthFacts.
Import Tree Growth.

Lemma fmax_cases (a b : Q) : (a < b /\ fmax a b = b) \/ (b <= a /\ fmax a b = a).
Proof.
  unfold fmax. destruct (a ?= b) eqn:E.
  - apply Qeq_alt in E. right. split; [lra | reflexivity].
  - apply Qlt_alt in E. left. split; [exact E | reflexivity].
  - apply Qgt_alt in E. right. split; [lra | reflexivity].
Qed.

Lemma fmin_cases (a b : Q) : (b < a /\ fmin a b = b) \/ (a <= b /\ fmin a b = a).
Proof.
  unfold fmin. destruct (b ?= a) eqn:E.
  - apply Qeq_alt in E. right. split; [lra | reflexivity].
  - apply Qlt_alt in E. left. split; [exact E | reflexivity].
  - apply Qgt_alt in E. right. split; [lra | reflexivity].
Qed.

Lemma fabs_cases (a : Q) : (a < 0 /\ fabs a = - a) \/ (0 <= a /\ fabs a = a).
Proof.
  unfold fabs. qcases; [left | right]; split; auto.
Qed.

(** The clamp [max(lo, min(x, hi))]. *)
Lemma clamp_range (lo hi x : Q) :
  lo <= hi -> lo <= fmax lo (fmin x hi) /\ fmax lo (fmin x hi) <= hi.
Proof.
  intros Hlh.
  destruct (fmin_cases x hi) as [[? ->] | [? ->]];
    match goal with |- context [fmax ?a ?b] =>
      destruct (fmax_cases a b) as [[? ->] | [? ->]] end; split; lra.
Qed.

Lemma clamp_inside (lo hi x : Q) : lo <= x -> x <= hi -> fmax lo (fmin x hi) == x.
Proof.
  intros Hl Hh.
  destruct (fmin_cases x hi) as [[? E1] | [? E1]]; rewrite E1;
    match goal with |- context [fmax ?a ?b] =>
      destruct (fmax_cases a b) as [[? ->] | [? ->]] end; lra.
Qed.

Lemma exp_q_monotone : @Math.exp_monotone libm_q.
Proof.
  intros x y Hxy. simpl. unfold exp_q. qcases.
  - apply Qle_shift_div_l; [lra|].
    assert (1 / (1 - x) * (1 - y) == (1 - y) / (1 - x)) as -> by (field; lra).
    apply Qle_shift_div_r; lra.
  - apply Qle_shift_div_r; [lra|]. nra.
  - lra.
  - lra.
Qed.

Lemma pow_q_nonneg : @Math.pow_nonneg libm_q.
Proof.
  intros b e Hb. simpl. unfold pow_q. qcases; [|lra].
  apply Qlt_le_weak. apply Qpower_0_lt. exact E.
Qed.

Section Modifiers.
Context `{Libm}.
Hypothesis exp_pos : Aux.exp_positive.

(** The ratio of two values of [exp] at ordered arguments. *)
Lemma exp_ratio_le (x y : Q) :
  Math.exp_monotone -> y <= x -> 0 < exp y / exp x /\ exp y / exp x <= 1.
Proof.
  intros Hmono Hyx. pose proof (exp_pos x) as Hx. pose proof (exp_pos y) as Hy.
  pose proof (Hmono y x Hyx) as Hle. split.
  - apply Qdiv_pos; assumption.
  - apply Qle_shift_div_r; [exact Hx | lra].
Qed.


Lemma exp_ratio_same (x y : Q) : Math.exp_monotone -> x == y -> exp y / exp x == 1.
Proof.
  intros Hmono Hxy. pose proof (exp_pos x) as Hx.
  assert (exp x <= exp y) by (apply Hmono; lra).
  assert (exp y <= exp x) by (apply Hmono; lra).
  assert (exp y == exp x) as -> by lra. field. lra.
Qed.

(** The product that the thinning modifiers add to or take from 1. *)
Lemma thin_term_nonneg (x y2 y3 : Q) (thin_year year : Z) :
  Math.pow_nonneg -> 0 <= y2 -> (thin_year <= year)%Z ->
  0 <= exp x * pow y2 (inject_Z (year - thin_year)) * pow (inject_Z (year - thin_year)) y3.
Proof.
  intros Hpow Hy2 Hle.
  assert (0 <= inject_Z (year - thin_year)) as Ht.
  { change 0 with (inject_Z 0). rewrite <- Zle_Qle. lia. }
  pose proof (exp_pos x) as Hx.
  pose proof (Hpow y2 (inject_Z (year - thin_year)) Hy2) as H1.
  pose proof (Hpow (inject_Z (year - thin_year)) y3 Ht) as H2.
  apply Qmult_le_0_compat; [apply Qmult_le_0_compat; lra | exact H2].
Qed.

Lemma thinned_le pbr bpt qr thin_year year :
  thinned pbr bpt qr thin_year year = true -> (thin_year <= year)%Z.
Proof.
  unfold thinned. intros Hth.
  repeat (apply andb_prop in Hth as [Hth ?]). apply Z.leb_le. assumption.
Qed.

Lemma dDBH_thin_bounds pbr bpt qr (thin_year year : Z) (t : TREE) :
  Math.pow_nonneg ->
  (1 <= dDBH_thin pbr bpt qr thin_year year t
   /\ dDBH_thin pbr bpt qr thin_year year t <= 1.25)
  /\ (thinned pbr bpt qr thin_year year = false \/ (spp t <> 12%Z /\ spp t <> 97%Z) ->
      dDBH_thin pbr bpt qr thin_year year t == 1).
Proof.
  intros Hpow. unfold dDBH_thin.
  destruct (thinned pbr bpt qr thin_year year) eqn:Hth; [|split; [lra | reflexivity]].
  pose proof (thinned_le _ _ _ _ _ Hth) as Hle.
  destruct (Z.eqb_spec (spp t) 12) as [E12|N12]; [|destruct (Z.eqb_spec (spp t) 97) as [E97|N97]].
  - cbv zeta. 
    match goal with |- context [fmin (1 + ?p) _] =>
      assert (0 <= p) as Hp by (apply thin_term_nonneg; [exact Hpow | lra | exact Hle]);
      set (q := p) in * end.
    split; [|intros [? | [? _]]; congruence].
    destruct (fmin_cases (1 + q) 1.25) as [[? ->] | [? ->]];
      match goal with |- context [fmax ?a ?b] =>
        destruct (fmax_cases a b) as [[? ->] | [? ->]] end; split; lra.
  - cbv zeta.
    match goal with |- context [fmin (1 + ?p) _] =>
      assert (0 <= p) as Hp by (apply thin_term_nonneg; [exact Hpow | lra | exact Hle]);
      set (q := p) in * end.
    split; [|intros [? | [_ ?]]; congruence].
    destruct (fmin_cases (1 + q) 1.25) as [[? ->] | [? ->]];
      match goal with |- context [fmax ?a ?b] =>
        destruct (fmax_cases a b) as [[? ->] | [? ->]] end; split; lra.
  - assert (fmax 0.75 (fmin 1 1.25) = 1) as -> by reflexivity.
    split; [lra | reflexivity].
Qed.

Lemma dHT_thin_bounds pbr bpt qr (thin_year year : Z) (t : TREE) :
  Math.pow_nonneg ->
  0.75 <= dHT_thin pbr bpt qr thin_year year t /\ dHT_thin pbr bpt qr thin_year year t <= 1.
Proof.
  intros Hpow. unfold dHT_thin.
  destruct ((0 <=? thin_year)%Z && (thin_year <=? year)%Z && (year - thin_year <? 5)%Z)
    eqn:Hth; [|lra].
  assert (thin_year <= year)%Z as Hle.
  { apply andb_prop in Hth as [Hth _]. apply andb_prop in Hth as [_ Hth].
    apply Z.leb_le. exact Hth. }
  destruct (Z.eqb_spec (spp t) 12) as [E12|N12]; [|destruct (Z.eqb_spec (spp t) 97) as [E97|N97]].
  - cbv zeta.
    match goal with |- context [fmin (1 - ?p) _] =>
      assert (0 <= p) as Hp by (apply thin_term_nonneg; [exact Hpow | lra | exact Hle]);
      set (q := p) in * end.
    destruct (fmin_cases (1 - q) 1.25) as [[? ->] | [? ->]];
      match goal with |- context [fmax ?a ?b] =>
        destruct (fmax_cases a b) as [[? ->] | [? ->]] end; split; lra.
  - cbv zeta.
    match goal with |- context [fmin (1 - ?p) _] =>
      assert (0 <= p) as Hp by (apply thin_term_nonneg; [exact Hpow | lra | exact Hle]);
      set (q := p) in * end.
    destruct (fmin_cases (1 - q) 1.25) as [[? ->] | [? ->]];
      match goal with |- context [fmax ?a ?b] =>
        destruct (fmax_cases a b) as [[? ->] | [? ->]] end; split; lra.
  - assert (fmax 0.75 (fmin 1 1.25) = 1) as -> by reflexivity. lra.
Qed.

Lemma dHT_sbw_off topht average_dbh_sw CDEF (t : TREE) :
  sbw_host (spp t) = false \/ CDEF < 0 -> dHT_sbw topht average_dbh_sw CDEF t = 1.
Proof.
  intros Hno. unfold dHT_sbw. cbv zeta.
  destruct Hno as [-> | HC]; [reflexivity|].
  assert (Qleb 0 CDEF = false) as -> by (apply Qleb_false; exact HC).
  rewrite andb_false_r. reflexivity.
Qed.

(** X2.  The thinning modifier of the height increment lies between 0.75
    and 1.  For a tree that is no budworm host, or without a recorded
    defoliation, the height increment that [dHT] stores therefore lies
    between 0.75 times the increment before the modifiers and that
    increment, when the latter is not negative: thinning never raises the
    height increment. *)
Theorem dHT_thin_range (Region : string) csi pbr bpt qr (thin_year year : Z)
    average_dbh_sw topht CDEF (m : MEMBERS) (t : TREE) :
  Math.pow_nonneg ->
  (0.75 <= dHT_thin pbr bpt qr thin_year year t /\ dHT_thin pbr bpt qr thin_year year t <= 1)
  /\ (sbw_host (spp t) = false \/ CDEF < 0 -> 0 <= dHT_base csi m t ->
      0.75 * dHT_base csi m t
      <= _dht (dHT Region csi pbr bpt qr thin_year year average_dbh_sw topht CDEF m t)
      /\ _dht (dHT Region csi pbr bpt qr thin_year year average_dbh_sw topht CDEF m t)
         <= dHT_base csi m t).
Proof.
  intros Hpow. pose proof (dHT_thin_bounds pbr bpt qr thin_year year t Hpow) as [H0 H1].
  split; [split; assumption|]. intros Hno Hb.
  unfold dHT. cbn [_dht set__dht]. rewrite (dHT_sbw_off _ _ _ _ Hno).
  set (b := dHT_base csi m t) in *. set (x := dHT_thin pbr bpt qr thin_year year t) in *.
  split; nra.
Qed.

Lemma dHCB_thin_unit pbr bpt qr (thin_year year : Z) (t : TREE) :
  0 <= dHCB_thin pbr bpt qr thin_year year t /\ dHCB_thin pbr bpt qr thin_year year t <= 1.
Proof.
  unfold dHCB_thin.
  destruct ((0 <=? thin_year)%Z && (thin_year <=? year)%Z
            && ((spp t =? 12)%Z || (spp t =? 97)%Z)); [|lra].
  match goal with |- context [fmin (fabs ?x) 1] => generalize x end. intros x.
  destruct (fabs_cases x) as [[? ->] | [? ->]];
    match goal with |- context [fmin ?a ?b] =>
      destruct (fmin_cases a b) as [[? ->] | [? ->]] end; split; lra.
Qed.

End Modifiers.

(** X3.  The thinning modifier of the crown recession lies between 0 and 1
    whatever [exp] and [pow] return, so a recession that is not negative is
    never raised and never made negative by it. *)
Theorem dHCB_thin_slows `{Libm} ccf pbr bpt qr (thin_year year : Z) (t : TREE) :
  (0 <= dHCB_thin pbr bpt qr thin_year year t /\ dHCB_thin pbr bpt qr thin_year year t <= 1)
  /\ (0 <= dHCB_base ccf t ->
      0 <= _dhcb (dHCB ccf pbr bpt qr thin_year year t)
      /\ _dhcb (dHCB ccf pbr bpt qr thin_year year t) <= dHCB_base ccf t).
Proof.
  pose proof (dHCB_thin_unit pbr bpt qr thin_year year t) as [H0 H1].
  split; [split; assumption|]. intros Hb.
  unfold dHCB. cbn [_dhcb set__dhcb].
  set (b := dHCB_base ccf t) in *. set (m := dHCB_thin pbr bpt qr thin_year year t) in *.
  split; [apply Qmult_le_0_compat; assumption|].
  assert (0 <= b * (1 - m)) by (apply Qmult_le_0_compat; lra).
  assert (b * (1 - m) == b - b * m) as E by ring. lra.
Qed.

Section Modifiers2.
Context `{Libm}.
Hypothesis exp_pos : Aux.exp_positive.






Lemma decode_form_and_risk_good (t : TREE) :
  Form t = 1%Z \/ Form t = 3%Z \/ Form t = 4%Z \/ Form t = 7%Z ->
  Risk t = 1%Z \/ Risk t = 2%Z ->
  decode_form_and_risk t = (false, true).
Proof.
  unfold decode_form_and_risk.
  intros [-> | [-> | [-> | ->]]] [-> | ->]; reflexivity.
Qed.

Lemma dDBH_hw_form_risk_bounds (m : MEMBERS) (t : TREE) :
  Math.exp_monotone ->
  (0 < dDBH_hw_form_risk m t /\ dDBH_hw_form_risk m t <= 1)
  /\ (_formB m = false -> _low_risk m = true -> dDBH_hw_form_risk m t == 1).
Proof.
  intros Hmono. unfold dDBH_hw_form_risk.
  match goal with |- context [if ?c then _ else _] => destruct c end;
    [|split; [lra | reflexivity]].
  cbv zeta.
  match goal with |- context [exp (?a + 0.2176)] => generalize a end. intros a.
  split.
  - apply (exp_ratio_le exp_pos); [exact Hmono|].
    destruct (_formB m), (_low_risk m); unfold of_bool; lra.
  - intros -> ->. apply (exp_ratio_same exp_pos); [exact Hmono|]. unfold of_bool. lra.
Qed.


Lemma logistic_range (e : Q) : 0 < e -> 0 < e / (1 + e) /\ e / (1 + e) < 1.
Proof.
  intros He. split.
  - apply Qdiv_pos; lra.
  - apply Qlt_shift_div_r; lra.
Qed.

End Modifiers2.

(** X1.  The thinning modifier of the diameter increment lies between 1 and
    1.25: the lower limit 0.75 of the clamp is never reached, since what is
    added to 1 is a product of values of [exp] and [pow] that are not
    negative.  It is 1 when no thinning is on record and for every species
    but balsam fir (12) and red spruce (97). *)
Theorem dDBH_thin_range `{Libm} pbr bpt qr (thin_year year : Z) (t : TREE) :
  Aux.exp_positive -> Math.pow_nonneg ->
  (1 <= dDBH_thin pbr bpt qr thin_year year t
   /\ dDBH_thin pbr bpt qr thin_year year t <= 1.25)
  /\ (thinned pbr bpt qr thin_year year = false \/ (spp t <> 12%Z /\ spp t <> 97%Z) ->
      dDBH_thin pbr bpt qr thin_year year t == 1).
Proof.
  intros Hexp Hpow. exact (dDBH_thin_bounds Hexp pbr bpt qr thin_year year t Hpow).
Qed.


(** X6.  On a tree of positive diameter (the function takes its logarithm)
    the form and risk modifier of the diameter increment lies in (0, 1].  It
    is 1 for a tree of form A and low risk; the members as the constructor
    decodes them give form A for the form codes 1, 3, 4 and 7 and low risk
    for the risk codes 1 and 2. *)
Theorem dDBH_hw_form_risk_range `{Libm} (m : MEMBERS) (t : TREE) :
  Aux.exp_positive -> Math.exp_monotone -> 0 < dbh t ->
  (0 < dDBH_hw_form_risk m t /\ dDBH_hw_form_risk m t <= 1)
  /\ ((_formB m, _low_risk m) = decode_form_and_risk t ->
      Form t = 1%Z \/ Form t = 3%Z \/ Form t = 4%Z \/ Form t = 7%Z ->
      Risk t = 1%Z \/ Risk t = 2%Z ->
      dDBH_hw_form_risk m t == 1).
Proof.
  intros Hexp Hmono _.
  destruct (dDBH_hw_form_risk_bounds Hexp m t Hmono) as [Hr H1].
  split; [exact Hr|]. intros Hdec HF HR.
  rewrite (decode_form_and_risk_good t HF HR) in Hdec.
  apply H1; congruence.
Qed.


(** X8.  The probability of a tree being high risk lies in [0, 1): it is
    strictly between 0 and 1 for red maple, red oak, sugar maple and yellow
    birch, and 0 for every other species. *)
Theorem risk_probability_range `{Libm} (t : TREE) :
  Aux.exp_positive ->
  (0 <= risk_probability t /\ risk_probability t < 1)
  /\ (spp t = 316%Z \/ spp t = 833%Z \/ spp t = 318%Z \/ spp t = 371%Z <->
      0 < risk_probability t).
Proof.
  intros Hexp. unfold risk_probability. cbv zeta.
  destruct ((spp t =? 316)%Z || (spp t =? 833)%Z || (spp t =? 318)%Z || (spp t =? 371)%Z)
    eqn:Hs.
  - match goal with |- context [let '(_, _) := ?c in _] => destruct c as [b2 b3] end.
    match goal with |- context [exp ?x / _] =>
      destruct (logistic_range (exp x) (Hexp x)) as [H0 H1] end.
    split; [split; [apply Qlt_le_weak|]; assumption|]. split; [intros _; exact H0|].
    intros _.
    destruct (Z.eqb_spec (spp t) 316); [auto|]. destruct (Z.eqb_spec (spp t) 833); [auto|].
    destruct (Z.eqb_spec (spp t) 318); [auto|]. destruct (Z.eqb_spec (spp t) 371); [auto|].
    discriminate.
  - split; [lra|]. split; [|intros; lra].
    intros [E | [E | [E | E]]]; rewrite E in Hs; discriminate.
Qed.

(** X9.  For red maple, red oak, sugar maple and yellow birch the four form
    probabilities are positive and add up to 1; for every other species they
    are all 0. *)
Theorem form_probability_total `{Libm} (t : TREE) :
  Aux.exp_positive ->
  (spp t = 316%Z \/ spp t = 833%Z \/ spp t = 318%Z \/ spp t = 371%Z ->
   0 < STM (form_probability t) /\ 0 < LSW (form_probability t)
   /\ 0 < MST (form_probability t) /\ 0 < LF (form_probability t)
   /\ STM (form_probability t) + LSW (form_probability t) + MST (form_probability t)
      + LF (form_probability t) == 1)
  /\ (~ (spp t = 316%Z \/ spp t = 833%Z \/ spp t = 318%Z \/ spp t = 371%Z) ->
      form_probability t = mkFORM_CLASS 0 0 0 0).
Proof.
  intros Hexp. unfold form_probability. cbv zeta.
  destruct ((spp t =? 316)%Z || (spp t =? 833)%Z || (spp t =? 318)%Z || (spp t =? 371)%Z)
    eqn:Hs.
  - split.
    + intros _.
      match goal with |- context [if (spp t =? 833)%Z then ?a else ?b] =>
        destruct (if (spp t =? 833)%Z then a else b) as [[[b1 b2] b3] b4] end.
      cbn [STM LSW MST LF].
      repeat match goal with |- context [exp ?x / (1 + exp ?x)] =>
        let a := fresh "p" in let Ha := fresh "Hp" in
        pose proof (logistic_range (exp x) (Hexp x)) as [Ha _];
        set (a := exp x / (1 + exp x)) in * end.
      assert (0 < p + p0 + p1 + p2) as Hsum by lra.
      assert (0 < 1 / (p + p0 + p1 + p2)) as Hxx by (apply Qdiv_pos; lra).
      repeat split; try (apply Qmult_lt_0_compat; assumption).
      field. lra.
    + intros Hn. exfalso. apply Hn.
      destruct (Z.eqb_spec (spp t) 316); [auto|]. destruct (Z.eqb_spec (spp t) 833); [auto|].
      destruct (Z.eqb_spec (spp t) 318); [auto|]. destruct (Z.eqb_spec (spp t) 371); [auto|].
      discriminate.
  - split.
    + intros [E | [E | [E | E]]]; rewrite E in Hs; discriminate.
    + intros _.
      match goal with |- context [if (spp t =? 833)%Z then ?a else ?b] =>
        destruct (if (spp t =? 833)%Z then a else b) as [[[b1 b2] b3] b4] end.
      reflexivity.
Qed.

Lemma hcb_pred_fields `{Libm} (Hexp : Aux.exp_positive) (hcb_fixed_parms : list Q) ccf
    (m : MEMBERS) (t : TREE) :
  0 < ht t ->
  ht (hcb_pred hcb_fixed_parms ccf m t) = ht t
  /\ 0 < hcb (hcb_pred hcb_fixed_parms ccf m t)
  /\ hcb (hcb_pred hcb_fixed_parms ccf m t) < ht t.
Proof.
  intros Hht. unfold hcb_pred. cbv zeta. cbn [ht hcb cr set_hcb set_cr].
  match goal with |- context [ht t / (1 + exp ?x)] =>
    pose proof (Hexp x) as He; set (e := exp x) in * end.
  split; [reflexivity|]. split.
  - apply Qdiv_pos; lra.
  - apply Qlt_shift_div_r; nra.
Qed.

(** X10.  On a tree of positive height, [hcb_pred] leaves the height as it
    is, puts the crown base strictly between the ground and the top, and
    stores the crown ratio [(ht - hcb) / ht], strictly between 0 and 1. *)
Theorem hcb_pred_crown `{Libm} (hcb_fixed_parms : list Q) ccf (m : MEMBERS) (t : TREE) :
  Aux.exp_positive -> 0 < ht t ->
  ht (hcb_pred hcb_fixed_parms ccf m t) = ht t
  /\ 0 < hcb (hcb_pred hcb_fixed_parms ccf m t)
  /\ hcb (hcb_pred hcb_fixed_parms ccf m t) < ht t
  /\ cr (hcb_pred hcb_fixed_parms ccf m t)
     = (ht t - hcb (hcb_pred hcb_fixed_parms ccf m t)) / ht t
  /\ 0 < cr (hcb_pred hcb_fixed_parms ccf m t)
  /\ cr (hcb_pred hcb_fixed_parms ccf m t) < 1.
Proof.
  intros Hexp Hht. unfold hcb_pred. cbv zeta. cbn [ht hcb cr set_hcb set_cr].
  match goal with |- context [ht t / (1 + exp ?x)] =>
    pose proof (Hexp x) as He; set (e := exp x) in * end.
  assert (0 < ht t / (1 + e)) as H0 by (apply Qdiv_pos; lra).
  assert (ht t / (1 + e) < ht t) as H1 by (apply Qlt_shift_div_r; nra).
  split; [reflexivity|]. split; [exact H0|]. split; [exact H1|]. split; [reflexivity|].
  split.
  - apply Qdiv_pos; lra.
  - apply Qlt_shift_div_r; lra.
Qed.

(** ** The statements at sample records *)

Lemma dDBH_thin_range_witness :
  (1 <= dDBH_thin (H := libm_q) 0.3 30 1.1 2020 2021 Examples.fir
   /\ dDBH_thin (H := libm_q) 0.3 30 1.1 2020 2021 Examples.fir <= 1.25)
  /\ (thinned 0.3 30 1.1 2020 2021 = false
      \/ (spp Examples.fir <> 12%Z /\ spp Examples.fir <> 97%Z) ->
      dDBH_thin (H := libm_q) 0.3 30 1.1 2020 2021 Examples.fir == 1).
Proof.
  exact (@dDBH_thin_range libm_q 0.3 30 1.1 2020%Z 2021%Z Examples.fir
           TreeFacts.exp_q_positive pow_q_nonneg).
Defined.

Lemma dHT_thin_range_witness :
  0.75 * dHT_base (H := libm_q) 16 (Samples.members_q Examples.spruce) Examples.spruce
  <= _dht (dHT (H := libm_q) "ME" 16 0.3 30 1.1 2020 2021 12 15 (-1)
             (Samples.members_q Examples.spruce) Examples.spruce)
  /\ _dht (dHT (H := libm_q) "ME" 16 0.3 30 1.1 2020 2021 12 15 (-1)
             (Samples.members_q Examples.spruce) Examples.spruce)
     <= dHT_base (H := libm_q) 16 (Samples.members_q Examples.spruce) Examples.spruce.
Proof.
  apply (@dHT_thin_range libm_q TreeFacts.exp_q_positive "ME" 16 0.3 30 1.1 2020%Z 2021%Z
           12 15 (-1) (Samples.members_q Examples.spruce) Examples.spruce pow_q_nonneg).
  - right. reflexivity.
  - vm_compute; discriminate.
Defined.

Lemma dHCB_thin_slows_witness :
  0 <= _dhcb (dHCB (H := libm_q) 120 0.3 30 1.1 2020 2021 Examples.fir)
  /\ _dhcb (dHCB (H := libm_q) 120 0.3 30 1.1 2020 2021 Examples.fir)
     <= dHCB_base (H := libm_q) 120 Examples.fir.
Proof.
  apply (@dHCB_thin_slows libm_q 120 0.3 30 1.1 2020%Z 2021%Z Examples.fir).
  vm_compute; discriminate.
Defined.



Lemma dDBH_hw_form_risk_range_witness :
  dDBH_hw_form_risk (H := libm_q) (Samples.members_q Examples.maple) Examples.maple == 1.
Proof.
  apply (@dDBH_hw_form_risk_range libm_q (Samples.members_q Examples.maple) Examples.maple
           TreeFacts.exp_q_positive exp_q_monotone).
  - vm_compute; reflexivity.
  - reflexivity.
  - left; reflexivity.
  - left; reflexivity.
Defined.


Lemma risk_probability_range_witness :
  (0 <= risk_probability (H := libm_q) Examples.maple
   /\ risk_probability (H := libm_q) Examples.maple < 1)
  /\ (spp Examples.maple = 316%Z \/ spp Examples.maple = 833%Z
      \/ spp Examples.maple = 318%Z \/ spp Examples.maple = 371%Z <->
      0 < risk_probability (H := libm_q) Examples.maple).
Proof.
  exact (@risk_probability_range libm_q Examples.maple TreeFacts.exp_q_positive).
Defined.

Lemma form_probability_total_witness :
  STM (form_probability (H := libm_q) Examples.maple)
  + LSW (form_probability (H := libm_q) Examples.maple)
  + MST (form_probability (H := libm_q) Examples.maple)
  + LF (form_probability (H := libm_q) Examples.maple) == 1.
Proof.
  apply (@form_probability_total libm_q Examples.maple TreeFacts.exp_q_positive).
  left; reflexivity.
Defined.

Lemma hcb_pred_crown_witness :
  0 < cr (hcb_pred (H := libm_q) Samples.hcb_fixed_q 120
            (Samples.members_q Samples.bare_fir) Samples.bare_fir)
  /\ cr (hcb_pred (H := libm_q) Samples.hcb_fixed_q 120
            (Samples.members_q Samples.bare_fir) Samples.bare_fir) < 1.
Proof.
  apply (@hcb_pred_crown libm_q Samples.hcb_fixed_q 120
           (Samples.members_q Samples.bare_fir) Samples.bare_fir TreeFacts.exp_q_positive).
  vm_compute; reflexivity.
Defined.

End GrowthFacts.

(** * Facts about construction followed by a growth step *)

Module ApplyFacts.
Import Tree.

Section Apply.
Context `{Libm}.

Lemma apply_growth_mortality_fields (t : TREE) :
  dbh (apply_growth_mortality t) = dbh t + _ddbh t
  /\ ht (apply_growth_mortality t) = ht t + _dht t
  /\ hcb (apply_growth_mortality t)
     = (if Qltb (ht t + _dht t) (hcb t + _dhcb t) then ht t + _dht t else hcb t + _dhcb t)
  /\ tph (apply_growth_mortality t)
     = tph t - (if Qleb (_dtph t) (tph t) then _dtph t else tph t)
  /\ cr (apply_growth_mortality t)
     = (ht (apply_growth_mortality t) - hcb (apply_growth_mortality t))
       / ht (apply_growth_mortality t)
  /\ _ddbh (apply_growth_mortality t) = 0 /\ _dht (apply_growth_mortality t) = 0
  /\ _dhcb (apply_growth_mortality t) = 0 /\ _dtph (apply_growth_mortality t) = 0
  /\ _p_survival (apply_growth_mortality t) = 1.
Proof.
  unfold apply_growth_mortality. simpl. destruct (Qltb _ _); repeat split; reflexivity.
Qed.

(** X11.  After [apply_growth_mortality] the density of a record is
    [max (tph - _dtph, 0)], never negative whatever the loss and the density
    were before.  The call consumes the increments (it ends with [reset]):
    applying it a second time without new increments leaves the diameter,
    the height, the crown base, the crown ratio and the density as the first
    application left them. *)
Theorem apply_growth_mortality_twice (t : TREE) :
  tph (apply_growth_mortality t) == fmax (tph t - _dtph t) 0
  /\ 0 <= tph (apply_growth_mortality t)
  /\ dbh (apply_growth_mortality (apply_growth_mortality t)) == dbh (apply_growth_mortality t)
  /\ ht (apply_growth_mortality (apply_growth_mortality t)) == ht (apply_growth_mortality t)
  /\ hcb (apply_growth_mortality (apply_growth_mortality t))
     == hcb (apply_growth_mortality t)
  /\ cr (apply_growth_mortality (apply_growth_mortality t)) == cr (apply_growth_mortality t)
  /\ tph (apply_growth_mortality (apply_growth_mortality t))
     == tph (apply_growth_mortality t).
Proof.
  assert (tph (apply_growth_mortality t) == fmax (tph t - _dtph t) 0
          /\ 0 <= tph (apply_growth_mortality t)) as [Hmax Hnonneg].
  { destruct (apply_growth_mortality_fields t) as (_ & _ & _ & -> & _).
    destruct (GrowthFacts.fmax_cases (tph t - _dtph t) 0) as [[? ->] | [? ->]]; qcases;
      split; lra. }
  split; [exact Hmax|]. split; [exact Hnonneg|]. clear Hmax Hnonneg.
  set (t1 := apply_growth_mortality t).
  destruct (apply_growth_mortality_fields t1) as (Hd & Hh & Hc & Hn & Hr & _).
  destruct (apply_growth_mortality_fields t) as (_ & _ & _ & _ & _ & E1 & E2 & E3 & E4 & _).
  fold t1 in E1, E2, E3, E4.
  rewrite E1 in Hd. rewrite E2 in Hh, Hc. rewrite E3 in Hc. rewrite E4 in Hn.
  assert (hcb t1 <= ht t1) as Hle.
  { unfold t1. destruct (apply_growth_mortality_fields t) as (_ & -> & -> & _).
    qcases; lra. }
  assert (0 <= tph t1) as Hpos.
  { unfold t1. destruct (apply_growth_mortality_fields t) as (_ & _ & _ & -> & _).
    qcases; lra. }
  assert (ht (apply_growth_mortality t1) == ht t1) as Eh by (rewrite Hh; lra).
  assert (hcb (apply_growth_mortality t1) == hcb t1) as Ec.
  { rewrite Hc. qcases; lra. }
  split; [rewrite Hd; lra|]. split; [exact Eh|]. split; [exact Ec|]. split.
  - rewrite Hr. unfold t1 at 4.
    destruct (apply_growth_mortality_fields t) as (_ & _ & _ & _ & -> & _).
    fold t1. rewrite Eh, Ec. reflexivity.
  - rewrite Hn. qcases; lra.
Qed.

(** X13.  A record constructed with a positive crown ratio, a positive
    height and a density that is not negative comes out of a growth step
    without increments as it was entered: the crown base the constructor
    derives from the crown ratio gives back that crown ratio. *)
Theorem TREE_new_apply_round_trip (resolve : Z -> option SPECIES) plot_id_t tree_id_t spp_t
    dbh_t ht_t tph_t cr_t form_t risk_t (t : TREE) :
  TREE_new resolve plot_id_t tree_id_t spp_t dbh_t ht_t tph_t cr_t form_t risk_t = Some t ->
  0 < cr_t -> 0 < ht_t -> 0 <= tph_t ->
  hcb t == (1 - cr_t) * ht_t
  /\ dbh (apply_growth_mortality t) == dbh_t
  /\ ht (apply_growth_mortality t) == ht_t
  /\ tph (apply_growth_mortality t) == tph_t
  /\ cr (apply_growth_mortality t) == cr_t.
Proof.
  intros Hnew Hcr Hht Htph. unfold TREE_new in Hnew.
  destruct (resolve spp_t) as [sp|]; [|discriminate].
  assert (Qltb 0 cr_t = true) as Ec by (apply Qltb_true; exact Hcr).
  assert (Qltb 0 ht_t = true) as Eh by (apply Qltb_true; exact Hht).
  rewrite Ec, Eh in Hnew. cbn [andb] in Hnew. injection Hnew as Ht.
  match type of Ht with compute_attributes ?r = _ => set (t0 := r) in * end.
  assert (dbh t = dbh_t /\ ht t = ht_t /\ tph t = tph_t /\ cr t = cr_t
          /\ hcb t = (1 - cr_t) * ht_t /\ _ddbh t = 0 /\ _dht t = 0 /\ _dhcb t = 0
          /\ _dtph t = 0) as (Ed & Eht & Et & Ecr & Ehcb & Z1 & Z2 & Z3 & Z4).
  { rewrite <- Ht. unfold compute_attributes, compute_mca, compute_lcw, compute_mcw.
    repeat split; reflexivity. }
  destruct (apply_growth_mortality_fields t) as (Hd & Hh & Hc & Hn & Hr & _).
  rewrite Z2, Z3, Eht, Ehcb in Hc. rewrite Z1, Ed in Hd. rewrite Z2, Eht in Hh.
  rewrite Z4, Et in Hn.
  assert (hcb (apply_growth_mortality t) == (1 - cr_t) * ht_t) as Hc'.
  { rewrite Hc. qcases; [nra | lra]. }
  split; [rewrite Ehcb; reflexivity|].
  split; [rewrite Hd; lra|]. split; [rewrite Hh; lra|]. split; [rewrite Hn; qcases; lra|].
  rewrite Hr, Hc', Hh. field. lra.
Qed.

End Apply.

Lemma TREE_new_apply_round_trip_witness :
  cr (apply_growth_mortality (H := libm_q) Examples.fir) == 0.6.
Proof.
  apply (@TREE_new_apply_round_trip libm_q Examples.resolve_q 1%Z 1%Z 12%Z 10 8 40 0.6
           1%Z 1%Z Examples.fir).
  - reflexivity.
  - reflexivity.
  - reflexivity.
  - vm_compute; discriminate.
Defined.

End ApplyFacts.

(** * Facts about the species count, the largest tree id and the tree statistics *)

Module StatisticsFacts.
Import Statistics.

Lemma emplace_spec (k : Z) (species : list Z) :
  NoDup species ->
  NoDup (emplace k species) /\ forall j, j ∈ emplace k species <-> j = k \/ j ∈ species.
Proof.
  intros Hnd. unfold emplace. destruct (existsb (Z.eqb k) species) eqn:E.
  - split; [exact Hnd|]. intros j. split; [auto|]. intros [-> | Hj]; [|exact Hj].
    apply existsb_exists in E as (x & Hx & Hkx). apply Z.eqb_eq in Hkx. subst x.
    apply list_elem_of_In. exact Hx.
  - split.
    + apply NoDup_cons. split; [|exact Hnd]. apply StandFacts.existsb_eqb_false. exact E.
    + intros j. rewrite elem_of_cons. reflexivity.
Qed.

Lemma emplace_fold (l : list Tree.TREE) : forall acc,
  NoDup acc ->
  NoDup (foldl (fun acc t => emplace (Tree.spp t) acc) acc l)
  /\ forall j, j ∈ foldl (fun acc t => emplace (Tree.spp t) acc) acc l
               <-> j ∈ acc \/ exists t, t ∈ l /\ Tree.spp t = j.
Proof.
  induction l as [|t l IH]; intros acc Hnd; cbn [foldl].
  - split; [exact Hnd|]. intros j. split; [auto|].
    intros [Hj | (t & Ht & _)]; [exact Hj|]. inversion Ht.
  - destruct (emplace_spec (Tree.spp t) acc Hnd) as [Hnd1 Hin1].
    destruct (IH _ Hnd1) as [Hnd2 Hin2]. split; [exact Hnd2|].
    intros j. rewrite Hin2, Hin1. split.
    + intros [[-> | Hj] | (x & Hx & Hxj)].
      * right. exists t. split; [left | reflexivity].
      * left. exact Hj.
      * right. exists x. split; [right; exact Hx | exact Hxj].
    + intros [Hj | (x & Hx & Hxj)]; [auto|].
      apply elem_of_cons in Hx as [-> | Hx]; [left; left; congruence|].
      right. exists x. split; assumption.
Qed.

(** The species met in a list of trees, each once. *)
Lemma species_of (l : list Tree.TREE) :
  NoDup (foldl (fun acc t => emplace (Tree.spp t) acc) [] l)
  /\ forall j, j ∈ foldl (fun acc t => emplace (Tree.spp t) acc) [] l
               <-> exists t, t ∈ l /\ Tree.spp t = j.
Proof.
  destruct (emplace_fold l [] (NoDup_nil_2)) as [Hnd Hin]. split; [exact Hnd|].
  intros j. rewrite Hin. split; [|auto]. intros [Hj | Hj]; [inversion Hj | exact Hj].
Qed.

(** X14.  [compute_n_species] stores the number of distinct species codes of
    the tree list: the length of a duplicate-free list holding exactly the
    codes that occur.  The count does not exceed the number of records and
    does not depend on the order of the records; the tree list is left as it
    is. *)
Theorem compute_n_species_counts (s : Stand.STAND) :
  (exists species : list Z,
     NoDup species
     /\ (forall j, j ∈ species <-> exists t, t ∈ Stand.trees s /\ Tree.spp t = j)
     /\ (length species <= length (Stand.trees s))%nat
     /\ Stand.n_species (compute_n_species s) = to_int (Z.of_nat (length species)))
  /\ Stand.trees (compute_n_species s) = Stand.trees s
  /\ forall s', Permutation (Stand.trees s) (Stand.trees s') ->
       Stand.n_species (compute_n_species s') = Stand.n_species (compute_n_species s).
Proof.
  split; [|split; [reflexivity|]].
  - destruct (species_of (Stand.trees s)) as [Hnd Hin].
    eexists. split; [exact Hnd|]. split; [exact Hin|]. split; [|reflexivity].
    assert (foldl (fun acc t => emplace (Tree.spp t) acc) [] (Stand.trees s)
            ⊆+ map Tree.spp (Stand.trees s)) as Hsub.
    { apply NoDup_submseteq; [exact Hnd|]. intros j Hj. apply Hin in Hj as (t & Ht & <-).
      apply (list_elem_of_fmap_2 Tree.spp). exact Ht. }
    apply submseteq_length in Hsub. rewrite length_map in Hsub. exact Hsub.
  - intros s' Hperm. unfold compute_n_species. cbn [Stand.n_species set_n_species].
    do 2 f_equal. apply Permutation_length. apply NoDup_Permutation.
    + apply species_of.
    + apply species_of.
    + intros j. rewrite !(proj2 (species_of _)). split; intros (t & Ht & Hj); exists t;
        (split; [|exact Hj]); [rewrite Hperm | rewrite <- Hperm]; exact Ht.
Qed.

Lemma find_max_fold (l : list Tree.TREE) : forall m0,
  let m := foldl (fun m t => if (m <? Tree.tree_id t)%Z then Tree.tree_id t else m) m0 l in
  (m0 <= m)%Z /\ Forall (fun t => (Tree.tree_id t <= m)%Z) l
  /\ (m = m0 \/ exists t, t ∈ l /\ Tree.tree_id t = m).
Proof.
  induction l as [|t l IH]; intros m0; cbn [foldl].
  - split; [lia|]. split; [constructor | left; reflexivity].
  - cbv zeta in IH |- *.
    destruct (IH (if (m0 <? Tree.tree_id t)%Z then Tree.tree_id t else m0)) as (H1 & H2 & H3).
    destruct (Z.ltb_spec m0 (Tree.tree_id t)) as [Hlt|Hge].
    + split; [lia|]. split; [constructor; [lia | exact H2]|].
      destruct H3 as [-> | (x & Hx & Hm)].
      * right. exists t. split; [left | reflexivity].
      * right. exists x. split; [right; exact Hx | exact Hm].
    + split; [lia|]. split; [constructor; [lia | exact H2]|].
      destruct H3 as [-> | (x & Hx & Hm)]; [left; reflexivity|].
      right. exists x. split; [right; exact Hx | exact Hm].
Qed.

(** X15.  [find_max_tree_id] returns a value that no tree id of the list
    exceeds, and that is the id of one of the trees unless it is 0, the
    value it returns for an empty list. *)
Theorem find_max_tree_id_bound (s : Stand.STAND) :
  Forall (fun t => (Tree.tree_id t <= find_max_tree_id s)%Z) (Stand.trees s)
  /\ (0 <= find_max_tree_id s)%Z
  /\ (find_max_tree_id s = 0%Z
      \/ exists t, t ∈ Stand.trees s /\ Tree.tree_id t = find_max_tree_id s)
  /\ (Stand.trees s = [] -> find_max_tree_id s = 0%Z).
Proof.
  destruct (find_max_fold (Stand.trees s) 0%Z) as (H1 & H2 & H3). cbv zeta in *.
  unfold find_max_tree_id.
  split; [exact H2|]. split; [exact H1|]. split; [exact H3|].
  intros ->. reflexivity.
Qed.

(** ** Tree statistics *)

Lemma Qsum_filter {A} (p : A -> bool) (f : A -> Q) (l : list A) :
  Qsum (map f (List.filter p l)) == Qsum (map (fun x => if p x then f x else 0) l).
Proof.
  induction l as [|x l IH]; [reflexivity|].
  cbn [List.filter map]. destruct (p x); cbn [map]; rewrite !Qsum_cons, IH; lra.
Qed.

Lemma Qsum_weighted_le {A} (f w : A -> Q) (M : Q) (l : list A) :
  Forall (fun x => f x <= M /\ 0 <= w x) l ->
  Qsum (map (fun x => f x * w x) l) <= M * Qsum (map w l).
Proof.
  induction 1 as [|x l [Hf Hw] _ IH]; cbn [map]; rewrite ?Qsum_cons, ?Qsum_nil; [lra|].
  assert (0 <= (M - f x) * w x) by (apply Qmult_le_0_compat; lra).
  assert ((M - f x) * w x == M * w x - f x * w x) as E by ring. lra.
Qed.

Lemma Qsum_weighted_ge {A} (f w : A -> Q) (M : Q) (l : list A) :
  Forall (fun x => M <= f x /\ 0 <= w x) l ->
  M * Qsum (map w l) <= Qsum (map (fun x => f x * w x) l).
Proof.
  induction 1 as [|x l [Hf Hw] _ IH]; cbn [map]; rewrite ?Qsum_cons, ?Qsum_nil; [lra|].
  assert (0 <= (f x - M) * w x) by (apply Qmult_le_0_compat; lra).
  assert ((f x - M) * w x == f x * w x - M * w x) as E by ring. lra.
Qed.

Section TreeStatistics.
Context `{Libm}.

(** What the loop accumulates in the members used below. *)
Lemma statistics_fold (l : list Tree.TREE) : forall a0,
  average_dbh (foldl statistics_step a0 l)
    == average_dbh a0 + Qsum (map (fun t => Tree.dbh t * Tree.tph t) l)
  /\ average_dbh_sw (foldl statistics_step a0 l)
     == average_dbh_sw a0
        + Qsum (map (fun t => if Tree.is_softwood t then Tree.dbh t * Tree.tph t else 0) l)
  /\ average_dbh_10_sw (foldl statistics_step a0 l)
     == average_dbh_10_sw a0
        + Qsum (map (fun t => if Tree.is_softwood t && Qleb 10 (Tree.dbh t)
                              then Tree.dbh t * Tree.tph t else 0) l)
  /\ t_tph_sw (foldl statistics_step a0 l)
     == t_tph_sw a0 + Qsum (map (fun t => if Tree.is_softwood t then Tree.tph t else 0) l).
Proof.
  induction l as [|t l IH]; intros a0; cbn [foldl map]; rewrite ?Qsum_nil.
  - repeat split; lra.
  - destruct (IH (statistics_step a0 t)) as (H1 & H2 & H3 & H4).
    rewrite !Qsum_cons.
    cbn [statistics_step average_dbh average_dbh_sw average_dbh_10_sw t_tph_sw] in H1, H2, H3, H4.
    split; [rewrite H1; lra|]. split; [rewrite H2; destruct (Tree.is_softwood t); lra|].
    split; [rewrite H3; destruct (Tree.is_softwood t && Qleb 10 (Tree.dbh t)); lra|].
    rewrite H4; destruct (Tree.is_softwood t); lra.
Qed.

(** The smallest and the largest diameter the loop leaves. *)
Lemma statistics_fold_range (l : list Tree.TREE) : forall a0,
  min_dbh (foldl statistics_step a0 l) <= min_dbh a0
  /\ max_dbh a0 <= max_dbh (foldl statistics_step a0 l)
  /\ Forall (fun t => min_dbh (foldl statistics_step a0 l) <= Tree.dbh t
                      /\ Tree.dbh t <= max_dbh (foldl statistics_step a0 l)) l
  /\ (min_dbh (foldl statistics_step a0 l) = min_dbh a0
      \/ exists t, t ∈ l /\ min_dbh (foldl statistics_step a0 l) = Tree.dbh t)
  /\ (max_dbh (foldl statistics_step a0 l) = max_dbh a0
      \/ exists t, t ∈ l /\ max_dbh (foldl statistics_step a0 l) = Tree.dbh t).
Proof.
  induction l as [|t l IH]; intros a0; cbn [foldl].
  - split; [lra|]. split; [lra|]. split; [constructor|]. split; left; reflexivity.
  - destruct (IH (statistics_step a0 t)) as (H1 & H2 & H3 & H4 & H5).
    cbn [statistics_step min_dbh max_dbh] in H1, H2, H4, H5.
    set (a := foldl statistics_step (statistics_step a0 t) l) in *.
    assert (min_dbh a <= min_dbh a0 /\ min_dbh a <= Tree.dbh t) as [Hm0 Hmt].
    { revert H1. qcases; intros; split; lra. }
    assert (max_dbh a0 <= max_dbh a /\ Tree.dbh t <= max_dbh a) as [HM0 HMt].
    { revert H2. qcases; intros; split; lra. }
    split; [exact Hm0|]. split; [exact HM0|].
    split; [constructor; [split; assumption | exact H3]|]. split.
    + destruct H4 as [E | (x & Hx & E)].
      * rewrite E. destruct (Qltb (Tree.dbh t) (min_dbh a0)); [right | left; reflexivity].
        exists t. split; [left | reflexivity].
      * right. exists x. split; [right; exact Hx | exact E].
    + destruct H5 as [E | (x & Hx & E)].
      * rewrite E. destruct (Qltb (max_dbh a0) (Tree.dbh t)); [right | left; reflexivity].
        exists t. split; [left | reflexivity].
      * right. exists x. split; [right; exact Hx | exact E].
Qed.

(** The members used below through each of the four conditional blocks. *)
Lemma statistics_all_fields (tph : Q) (a : STATISTICS) :
  average_dbh (statistics_all tph a)
  = (if Qltb 0 tph then average_dbh a / tph else average_dbh a)
  /\ average_dbh_sw (statistics_all tph a) = average_dbh_sw a
  /\ average_dbh_10_sw (statistics_all tph a) = average_dbh_10_sw a
  /\ t_tph_sw (statistics_all tph a) = t_tph_sw a
  /\ min_dbh (statistics_all tph a) = min_dbh a
  /\ max_dbh (statistics_all tph a) = max_dbh a.
Proof. unfold statistics_all. destruct (Qltb 0 tph); repeat split; reflexivity. Qed.

Lemma statistics_10_fields (a : STATISTICS) :
  average_dbh (statistics_10 a) = average_dbh a
  /\ average_dbh_sw (statistics_10 a) = average_dbh_sw a
  /\ average_dbh_10_sw (statistics_10 a) = average_dbh_10_sw a
  /\ t_tph_sw (statistics_10 a) = t_tph_sw a
  /\ min_dbh (statistics_10 a) = min_dbh a
  /\ max_dbh (statistics_10 a) = max_dbh a.
Proof. unfold statistics_10. destruct (Qltb 0 (t_tph_10 a)); repeat split; reflexivity. Qed.

Lemma statistics_sw_fields (a : STATISTICS) :
  average_dbh (statistics_sw a) = average_dbh a
  /\ average_dbh_sw (statistics_sw a)
     = (if Qltb 0 (t_tph_sw a) then average_dbh_sw a / t_tph_sw a else average_dbh_sw a)
  /\ average_dbh_10_sw (statistics_sw a)
     = (if Qltb 0 (t_tph_sw a) then average_dbh_10_sw a / t_tph_sw a
        else average_dbh_10_sw a)
  /\ min_dbh (statistics_sw a) = min_dbh a
  /\ max_dbh (statistics_sw a) = max_dbh a.
Proof. unfold statistics_sw. destruct (Qltb 0 (t_tph_sw a)); repeat split; reflexivity. Qed.

Lemma statistics_hw_fields (a : STATISTICS) :
  average_dbh (statistics_hw a) = average_dbh a
  /\ average_dbh_sw (statistics_hw a) = average_dbh_sw a
  /\ average_dbh_10_sw (statistics_hw a) = average_dbh_10_sw a
  /\ min_dbh (statistics_hw a) = min_dbh a
  /\ max_dbh (statistics_hw a) = max_dbh a.
Proof. unfold statistics_hw. destruct (Qltb 0 (t_tph_hw a)); repeat split; reflexivity. Qed.

Lemma statistics_blocks (tph : Q) (a : STATISTICS) :
  let f := statistics_hw (statistics_sw (statistics_10 (statistics_all tph a))) in
  average_dbh f = (if Qltb 0 tph then average_dbh a / tph else average_dbh a)
  /\ average_dbh_sw f
     = (if Qltb 0 (t_tph_sw a) then average_dbh_sw a / t_tph_sw a else average_dbh_sw a)
  /\ average_dbh_10_sw f
     = (if Qltb 0 (t_tph_sw a) then average_dbh_10_sw a / t_tph_sw a
        else average_dbh_10_sw a)
  /\ min_dbh f = min_dbh a /\ max_dbh f = max_dbh a.
Proof.
  cbv zeta.
  destruct (statistics_all_fields tph a) as (A1 & A2 & A3 & A4 & A5 & A6).
  destruct (statistics_10_fields (statistics_all tph a)) as (B1 & B2 & B3 & B4 & B5 & B6).
  destruct (statistics_sw_fields (statistics_10 (statistics_all tph a)))
    as (C1 & C2 & C3 & C5 & C6).
  destruct (statistics_hw_fields (statistics_sw (statistics_10 (statistics_all tph a))))
    as (D1 & D2 & D3 & D5 & D6).
  rewrite D1, D2, D3, D5, D6, C1, C2, C3, C5, C6, B1, B2, B3, B4, B5, B6, A1, A2, A3, A4, A5, A6.
  repeat split; reflexivity.
Qed.

(** X16.  [compute_tree_statistics] leaves in [min_dbh] and [max_dbh] two
    values that bracket the diameter of every tree.  [min_dbh] is the
    diameter of one of the trees or the initial 9999, [max_dbh] the diameter
    of one of the trees or the initial 0; so an empty list leaves 9999 and
    0. *)
Theorem compute_tree_statistics_dbh_range (d : STATISTICS) (s : Stand.STAND) :
  Forall (fun t => Stand.min_dbh (snd (compute_tree_statistics d s)) <= Tree.dbh t
                   /\ Tree.dbh t <= Stand.max_dbh (snd (compute_tree_statistics d s)))
         (Stand.trees s)
  /\ Stand.min_dbh (snd (compute_tree_statistics d s)) <= 9999
  /\ 0 <= Stand.max_dbh (snd (compute_tree_statistics d s))
  /\ (Stand.min_dbh (snd (compute_tree_statistics d s)) = 9999
      \/ exists t, t ∈ Stand.trees s
           /\ Stand.min_dbh (snd (compute_tree_statistics d s)) = Tree.dbh t)
  /\ (Stand.max_dbh (snd (compute_tree_statistics d s)) = 0
      \/ exists t, t ∈ Stand.trees s
           /\ Stand.max_dbh (snd (compute_tree_statistics d s)) = Tree.dbh t).
Proof.
  unfold compute_tree_statistics. cbn [snd store Stand.min_dbh Stand.max_dbh].
  destruct (statistics_blocks (Stand.tph s)
              (foldl statistics_step (statistics_init d) (Stand.trees s)))
    as (_ & _ & _ & -> & ->).
  destruct (statistics_fold_range (Stand.trees s) (statistics_init d))
    as (H1 & H2 & H3 & H4 & H5).
  cbn [statistics_init min_dbh max_dbh] in H1, H2, H4, H5.
  repeat split; assumption.
Qed.

(** X17.  With softwoods of positive total density, [average_dbh_sw] is the
    density-weighted mean diameter of the softwoods, and
    [average_dbh_10_sw] is the sum of diameter times density over the
    softwoods of 10 cm and more divided by the density of all softwoods, not
    by that of the softwoods of 10 cm and more.  With diameters and
    densities that are not negative it is therefore at most
    [average_dbh_sw]. *)
Theorem compute_tree_statistics_softwood_10 (d : STATISTICS) (s : Stand.STAND) :
  0 < Qsum (map Tree.tph (List.filter Tree.is_softwood (Stand.trees s))) ->
  average_dbh_sw (fst (compute_tree_statistics d s))
  == Qsum (map (fun t => Tree.dbh t * Tree.tph t)
             (List.filter Tree.is_softwood (Stand.trees s)))
     / Qsum (map Tree.tph (List.filter Tree.is_softwood (Stand.trees s)))
  /\ average_dbh_10_sw (fst (compute_tree_statistics d s))
     == Qsum (map (fun t => Tree.dbh t * Tree.tph t)
                (List.filter (fun t => Tree.is_softwood t && Qleb 10 (Tree.dbh t))
                   (Stand.trees s)))
        / Qsum (map Tree.tph (List.filter Tree.is_softwood (Stand.trees s)))
  /\ (Forall (fun t => 0 <= Tree.dbh t /\ 0 <= Tree.tph t) (Stand.trees s) ->
      average_dbh_10_sw (fst (compute_tree_statistics d s))
      <= average_dbh_sw (fst (compute_tree_statistics d s))).
Proof.
  intros Hpos. unfold compute_tree_statistics. cbn [fst].
  set (a := foldl statistics_step (statistics_init d) (Stand.trees s)).
  destruct (statistics_blocks (Stand.tph s) a) as (_ & -> & -> & _).
  destruct (statistics_fold (Stand.trees s) (statistics_init d)) as (_ & H2 & H3 & H4).
  fold a in H2, H3, H4. cbn [statistics_init average_dbh_sw average_dbh_10_sw t_tph_sw] in H2, H3, H4.
  rewrite !Qsum_filter in *.
  set (W := Qsum (map (fun t => if Tree.is_softwood t then Tree.tph t else 0)
                    (Stand.trees s))) in *.
  set (S1 := Qsum (map (fun t => if Tree.is_softwood t then Tree.dbh t * Tree.tph t else 0)
                     (Stand.trees s))) in *.
  set (S10 := Qsum (map (fun t => if Tree.is_softwood t && Qleb 10 (Tree.dbh t)
                                  then Tree.dbh t * Tree.tph t else 0) (Stand.trees s))) in *.
  assert (t_tph_sw a == W) as EW by lra.
  assert (Qltb 0 (t_tph_sw a) = true) as -> by (apply Qltb_true; lra).
  assert (average_dbh_sw a / t_tph_sw a == S1 / W) as E1.
  { rewrite EW. assert (average_dbh_sw a == S1) as -> by lra. reflexivity. }
  assert (average_dbh_10_sw a / t_tph_sw a == S10 / W) as E10.
  { rewrite EW. assert (average_dbh_10_sw a == S10) as -> by lra. reflexivity. }
  split; [exact E1|]. split; [exact E10|].
  intros Hnn. rewrite E1, E10.
  assert (S10 <= S1) as Hle.
  { unfold S10, S1. clear -Hnn. induction Hnn as [|t l [Hd Ht] _ IH]; [cbn; lra|].
    cbn [map]. rewrite !Qsum_cons.
    assert (0 <= Tree.dbh t * Tree.tph t) by (apply Qmult_le_0_compat; assumption).
    destruct (Tree.is_softwood t), (Qleb 10 (Tree.dbh t)); cbn [andb]; lra. }
  apply Qle_shift_div_l; [exact Hpos|].
  assert (S10 / W * W == S10) as -> by (field; lra). exact Hle.
Qed.

(** X18.  When the density of the stand is the sum of the densities of its
    trees, none of them negative, and is positive, [average_dbh] is the
    density-weighted mean diameter and lies between the [min_dbh] and the
    [max_dbh] the same call leaves. *)
Theorem compute_tree_statistics_mean_dbh (d : STATISTICS) (s : Stand.STAND) :
  Forall (fun t => 0 <= Tree.tph t) (Stand.trees s) ->
  Stand.tph s == Qsum (map Tree.tph (Stand.trees s)) ->
  0 < Stand.tph s ->
  average_dbh (fst (compute_tree_statistics d s))
  == Qsum (map (fun t => Tree.dbh t * Tree.tph t) (Stand.trees s))
     / Qsum (map Tree.tph (Stand.trees s))
  /\ min_dbh (fst (compute_tree_statistics d s))
     <= average_dbh (fst (compute_tree_statistics d s))
  /\ average_dbh (fst (compute_tree_statistics d s))
     <= max_dbh (fst (compute_tree_statistics d s)).
Proof.
  intros Hnn Htph Hpos. unfold compute_tree_statistics. cbn [fst].
  set (a := foldl statistics_step (statistics_init d) (Stand.trees s)).
  destruct (statistics_blocks (Stand.tph s) a) as (-> & _ & _ & -> & ->).
  destruct (statistics_fold (Stand.trees s) (statistics_init d)) as (H1 & _).
  destruct (statistics_fold_range (Stand.trees s) (statistics_init d)) as (_ & _ & H3 & _).
  fold a in H1, H3. cbn [statistics_init average_dbh] in H1.
  assert (Qltb 0 (Stand.tph s) = true) as -> by (apply Qltb_true; exact Hpos).
  set (S1 := Qsum (map (fun t => Tree.dbh t * Tree.tph t) (Stand.trees s))) in *.
  set (W := Qsum (map Tree.tph (Stand.trees s))) in *.
  assert (average_dbh a / Stand.tph s == S1 / W) as E.
  { rewrite Htph. assert (average_dbh a == S1) as -> by lra. reflexivity. }
  assert (0 < W) as HW by lra.
  assert (S1 <= max_dbh a * W) as Hmax.
  { apply Qsum_weighted_le. rewrite Forall_forall in H3, Hnn |- *. intros t Ht.
    split; [apply (H3 t Ht) | apply (Hnn t Ht)]. }
  assert (min_dbh a * W <= S1) as Hmin.
  { apply Qsum_weighted_ge. rewrite Forall_forall in H3, Hnn |- *. intros t Ht.
    split; [apply (H3 t Ht) | apply (Hnn t Ht)]. }
  split; [exact E|]. rewrite E. split.
  - apply Qle_shift_div_l; [exact HW | exact Hmin].
  - apply Qle_shift_div_r; [exact HW | exact Hmax].
Qed.

Lemma predict_hcb_tree_fields (resolve : Z -> option Tree.SPECIES) plot_id_t tree_id_t spp_t
    dbh_t ht_t tph_t cr_t form_t risk_t (t : Tree.TREE) (hcb_fixed_parms : list Q) (ccf : Q)
    (m : Growth.MEMBERS) :
  Aux.exp_positive ->
  Tree.TREE_new resolve plot_id_t tree_id_t spp_t dbh_t ht_t tph_t cr_t form_t risk_t
    = Some t ->
  0 < ht_t -> cr_t <= 1 ->
  Tree.ht (predict_hcb_tree hcb_fixed_parms ccf m t) = ht_t
  /\ 0 <= Tree.hcb (predict_hcb_tree hcb_fixed_parms ccf m t)
  /\ Tree.hcb (predict_hcb_tree hcb_fixed_parms ccf m t) < ht_t
  /\ 0 < Tree.cr (predict_hcb_tree hcb_fixed_parms ccf m t)
  /\ Tree.cr (predict_hcb_tree hcb_fixed_parms ccf m t) <= 1
  /\ Tree.cr (predict_hcb_tree hcb_fixed_parms ccf m t)
     == 1 - Tree.hcb (predict_hcb_tree hcb_fixed_parms ccf m t) / ht_t
  /\ (0 < cr_t -> Tree.cr (predict_hcb_tree hcb_fixed_parms ccf m t) = cr_t).
Proof.
  intros Hexp Hnew Hht Hcr1. unfold Tree.TREE_new in Hnew.
  destruct (resolve spp_t) as [sp|]; [|discriminate]. injection Hnew as Ht.
  assert (Qltb 0 ht_t = true) as Eh by (apply Qltb_true; exact Hht).
  rewrite Eh, andb_true_r in Ht.
  match type of Ht with Tree.compute_attributes ?r = _ => set (t0 := r) in * end.
  assert (Tree.ht t = ht_t /\ Tree.cr t = cr_t
          /\ Tree.hcb t = (if Qltb 0 cr_t then (1 - cr_t) * ht_t else 0))
    as (Eht & Ecr & Ehcb).
  { rewrite <- Ht. repeat split; reflexivity. }
  unfold predict_hcb_tree. rewrite Ecr, Ehcb.
  destruct (Qltb 0 cr_t) eqn:Ec; [apply Qltb_true in Ec | apply Qltb_false in Ec].
  - assert (0 <= (1 - cr_t) * ht_t) as H0 by (apply Qmult_le_0_compat; lra).
    assert ((1 - cr_t) * ht_t < ht_t) as H1 by nra.
    assert (cr_t == 1 - (1 - cr_t) * ht_t / ht_t) as H2 by (field; lra).
    destruct (Qeqb ((1 - cr_t) * ht_t) 0);
      cbn [Tree.ht Tree.hcb Tree.cr Tree.set_hcb]; rewrite ?Eht, ?Ecr, ?Ehcb;
      repeat split; try assumption; try lra; auto.
  - assert (Qeqb 0 0 = true) as -> by reflexivity.
    assert (0 < Tree.ht t) as Hht' by (rewrite Eht; exact Hht).
    destruct (GrowthFacts.hcb_pred_fields Hexp hcb_fixed_parms ccf m t Hht')
      as (Gh & G0 & G1).
    set (t1 := Growth.hcb_pred hcb_fixed_parms ccf m t) in *.
    cbn [Tree.ht Tree.hcb Tree.cr Tree.set_cr]. rewrite Gh, Eht in *.
    assert (0 < Tree.hcb t1 / ht_t) by (apply Qdiv_pos; assumption).
    assert (Tree.hcb t1 / ht_t < 1) by (apply Qlt_shift_div_r; lra).
    repeat split; lra.
Qed.

(** X19.  A record constructed with a positive height and a crown ratio of
    at most 1 comes out of [predict_hcb], at the place it had in the tree
    list, with a crown base in [0, ht), a crown ratio in (0, 1] and the two
    in agreement, [cr = 1 - hcb/ht]: a positive crown ratio is kept and
    gives the crown base, a missing one (zero or negative) is replaced by
    the prediction of [hcb_pred]. *)
Theorem predict_hcb_tree_crown (resolve : Z -> option Tree.SPECIES) plot_id_t tree_id_t spp_t
    dbh_t ht_t tph_t cr_t form_t risk_t (t : Tree.TREE) (hcb_fixed_parms : list Q)
    (ms : list Growth.MEMBERS) (m : Growth.MEMBERS) (s : Stand.STAND) (i : nat) :
  Aux.exp_positive ->
  Tree.TREE_new resolve plot_id_t tree_id_t spp_t dbh_t ht_t tph_t cr_t form_t risk_t
    = Some t ->
  0 < ht_t -> cr_t <= 1 ->
  Stand.trees s !! i = Some t -> ms !! i = Some m ->
  exists t', Stand.trees (predict_hcb hcb_fixed_parms ms s) !! i = Some t'
    /\ Tree.ht t' = ht_t
    /\ 0 <= Tree.hcb t' /\ Tree.hcb t' < ht_t
    /\ 0 < Tree.cr t' /\ Tree.cr t' <= 1
    /\ Tree.cr t' == 1 - Tree.hcb t' / ht_t
    /\ (0 < cr_t -> Tree.cr t' = cr_t).
Proof.
  intros Hexp Hnew Hht Hcr Ht Hm.
  exists (predict_hcb_tree hcb_fixed_parms (Stand.ccf s) m t). split.
  - unfold predict_hcb. cbn [Stand.trees Stand.set_trees].
    rewrite lookup_zip_with, Hm. cbn. rewrite Ht. reflexivity.
  - exact (predict_hcb_tree_fields resolve plot_id_t tree_id_t spp_t dbh_t ht_t tph_t cr_t
             form_t risk_t t hcb_fixed_parms (Stand.ccf s) m Hexp Hnew Hht Hcr).
Qed.

End TreeStatistics.

Lemma compute_tree_statistics_softwood_10_witness :
  average_dbh_10_sw (fst (compute_tree_statistics (H := libm_q) Samples.statistics_q
                            (Examples.stand_q false 0 Examples.mixed)))
  <= average_dbh_sw (fst (compute_tree_statistics (H := libm_q) Samples.statistics_q
                            (Examples.stand_q false 0 Examples.mixed))).
Proof.
  apply (@compute_tree_statistics_softwood_10 libm_q Samples.statistics_q
           (Examples.stand_q false 0 Examples.mixed)).
  - vm_compute; reflexivity.
  - repeat (constructor; [split; vm_compute; discriminate|]). constructor.
Defined.

Lemma compute_tree_statistics_mean_dbh_witness :
  min_dbh (fst (compute_tree_statistics (H := libm_q) Samples.statistics_q
                  (Examples.measured Examples.mixed)))
  <= average_dbh (fst (compute_tree_statistics (H := libm_q) Samples.statistics_q
                         (Examples.measured Examples.mixed)))
  /\ average_dbh (fst (compute_tree_statistics (H := libm_q) Samples.statistics_q
                         (Examples.measured Examples.mixed)))
     <= max_dbh (fst (compute_tree_statistics (H := libm_q) Samples.statistics_q
                        (Examples.measured Examples.mixed))).
Proof.
  apply (@compute_tree_statistics_mean_dbh libm_q Samples.statistics_q
           (Examples.measured Examples.mixed)).
  - repeat (constructor; [vm_compute; discriminate|]). constructor.
  - vm_compute; reflexivity.
  - vm_compute; reflexivity.
Defined.

Lemma predict_hcb_tree_crown_witness :
  exists t',
    Stand.trees (predict_hcb (H := libm_q) Samples.hcb_fixed_q
                   [Samples.members_q Samples.bare_fir]
                   (Examples.stand_q false 0 [Samples.bare_fir])) !! 0%nat = Some t'
    /\ Tree.ht t' = 8
    /\ 0 <= Tree.hcb t' /\ Tree.hcb t' < 8
    /\ 0 < Tree.cr t' /\ Tree.cr t' <= 1
    /\ Tree.cr t' == 1 - Tree.hcb t' / 8
    /\ (0 < 0 -> Tree.cr t' = 0).
Proof.
  apply (@predict_hcb_tree_crown libm_q Examples.resolve_q 1%Z 7%Z 12%Z 10 8 40 0 1%Z 1%Z
           Samples.bare_fir Samples.hcb_fixed_q [Samples.members_q Samples.bare_fir]
           (Samples.members_q Samples.bare_fir)
           (Examples.stand_q false 0 [Samples.bare_fir]) 0%nat TreeFacts.exp_q_positive).
  - reflexivity.
  - reflexivity.
  - vm_compute; discriminate.
  - reflexivity.
  - reflexivity.
Defined.

End StatisticsFacts.

(** * Facts about the stand-level mortality multipliers and the ingrowth rate *)

Module MortalityFacts.
Import Stand.

Lemma exp_q_zero : @Math.exp_zero libm_q.
Proof. reflexivity. Qed.

Lemma trunc_nonneg (q : Q) : 0 <= q -> (0 <= trunc q)%Z.
Proof.
  intros Hq. unfold trunc.
  assert (Qltb q 0 = false) as -> by (apply Qltb_false; exact Hq).
  change 0%Z with (Qfloor 0). apply Qfloor_resp_le. exact Hq.
Qed.

Section Multipliers.
Context `{Libm}.
Hypothesis exp_pos : Aux.exp_positive.

(** The ratio that [mort_sbw] returns, on the two values of [exp]. *)
Lemma sbw_ratio (c ea eb : Q) :
  0 < c -> 0 < eb -> eb <= ea ->
  0 < c * (1 / (1 + ea))
  /\ 1 <= c * (1 / (1 + eb)) / (c * (1 / (1 + ea))).
Proof.
  intros Hc Heb Hle.
  assert (0 < 1 / (1 + ea)) as Ha by (apply Qdiv_pos; lra).
  assert (0 < c * (1 / (1 + ea))) as Haa by (apply Qmult_lt_0_compat; assumption).
  split; [exact Haa|].
  apply Qle_shift_div_l; [exact Haa|].
  assert (1 / (1 + ea) <= 1 / (1 + eb)) as Hinv.
  { apply Qle_shift_div_l; [lra|].
    assert (1 / (1 + ea) * (1 + eb) == (1 + eb) / (1 + ea)) as -> by (field; lra).
    apply Qle_shift_div_r; lra. }
  nra.
Qed.

Lemma mort_sbw_ge_1 (s : STAND) :
  Math.exp_monotone -> 0 <= bf_ba s -> 1 <= mort_sbw s.
Proof.
  intros Hmono Hbf. unfold mort_sbw.
  assert (forall b1 b2 b3 b4 : Q, 0 <= b2 -> 0 <= b4 ->
            1 <= (let VOL := topht s / 2 * ba s in
                  let aa := 1 / (1 + exp (- b1)) * (1 / (1 + exp (- (b3 * VOL)))) in
                  let bb := 1 / (1 + exp (- b1))
                            * (1 / (1 + exp (- (b2 * CDEF s * bf_ba s + b3 * VOL
                                                + b4 * CDEF s)))) in
                  if Qltb (CDEF s) 0 then 1 else if Qltb 0 aa then bb / aa else 1)) as Hgen.
  { intros b1 b2 b3 b4 H2 H4. cbv zeta.
    destruct (Qltb (CDEF s) 0) eqn:EC; [lra|]. apply Qltb_false in EC.
    set (VOL := topht s / 2 * ba s).
    assert (0 < 1 / (1 + exp (- b1))) as Hc by (apply Qdiv_pos; [lra | pose proof (exp_pos (- b1)); lra]).
    assert (exp (- (b2 * CDEF s * bf_ba s + b3 * VOL + b4 * CDEF s)) <= exp (- (b3 * VOL)))
      as Hle.
    { apply Hmono.
      assert (0 <= b2 * CDEF s * bf_ba s)
        by (apply Qmult_le_0_compat; [apply Qmult_le_0_compat|]; assumption).
      assert (0 <= b4 * CDEF s) by (apply Qmult_le_0_compat; assumption).
      lra. }
    destruct (sbw_ratio _ _ _ Hc (exp_pos _) Hle) as [Haa Hr].
    assert (Qltb 0 (1 / (1 + exp (- b1)) * (1 / (1 + exp (- (b3 * VOL))))) = true) as ->
      by (apply Qltb_true; exact Haa).
    exact Hr. }
  destruct (String.eqb (Region s) "ME"); [|destruct (String.eqb (Region s) "NB")];
    apply Hgen; lra.
Qed.

Lemma mort_thin_ge_1 (s : STAND) : Math.pow_nonneg -> 1 <= mort_thin s.
Proof.
  intros Hpow. unfold mort_thin.
  match goal with |- context [if ?c then _ else _] => destruct c eqn:Hth end; [|lra].
  cbv zeta.
  assert (thin_year s <= inject_Z (year s)) as Hle.
  { apply andb_prop in Hth as [Hth _]. apply andb_prop in Hth as [Hth _].
    apply andb_prop in Hth as [Hth _]. apply andb_prop in Hth as [_ Hth].
    apply Qleb_true. exact Hth. }
  assert (0 <= inject_Z (trunc (inject_Z (year s) - thin_year s))) as Ht.
  { change 0 with (inject_Z 0). rewrite <- Zle_Qle. apply trunc_nonneg. lra. }
  set (tt := inject_Z (trunc (inject_Z (year s) - thin_year s))) in *.
  match goal with |- 1 <= 1 + exp ?x * pow ?y tt * pow tt ?z =>
    pose proof (exp_pos x) as H1;
    assert (0 <= pow y tt) as H2 by (apply Hpow; lra);
    pose proof (Hpow tt z Ht) as H3;
    assert (0 <= exp x * pow y tt * pow tt z)
      by (apply Qmult_le_0_compat; [apply Qmult_le_0_compat; lra | exact H3])
  end.
  lra.
Qed.

Lemma base_survival_unit (t : Tree.TREE) :
  Math.exp_monotone -> Math.exp_zero ->
  0 <= Tree.base_survival t /\ Tree.base_survival t < 1.
Proof.
  intros Hmono Hzero. unfold Tree.base_survival. cbv zeta.
  match goal with |- context [exp (- exp ?x)] =>
    pose proof (exp_pos x) as He; set (e := exp x) in * end.
  pose proof (exp_pos (- e)) as H1.
  assert (exp (- e) <= exp 0) as H2 by (apply Hmono; lra).
  unfold Math.exp_zero in Hzero. split; lra.
Qed.

End Multipliers.

(** X20.  With a balsam fir basal area that is not negative, the stand-level
    budworm multiplier of the mortality is at least 1, as its closing
    comment says: cumulative defoliation never lowers the loss. *)
Theorem mort_sbw_at_least_1 `{Libm} (s : STAND) :
  Aux.exp_positive -> Math.exp_monotone -> 0 <= bf_ba s -> 1 <= mort_sbw s.
Proof. intros Hexp Hmono Hbf. exact (mort_sbw_ge_1 Hexp s Hmono Hbf). Qed.

(** X21.  The stand-level thinning multiplier of the mortality is at least
    1, and exactly 1 when no thinning is on record. *)
Theorem mort_thin_at_least_1 `{Libm} (s : STAND) :
  Aux.exp_positive -> Math.pow_nonneg ->
  1 <= mort_thin s /\ (thin_year s < 0 -> mort_thin s = 1).
Proof.
  intros Hexp Hpow. split; [exact (mort_thin_ge_1 Hexp s Hpow)|].
  intros Hneg. unfold mort_thin.
  assert (Qleb 0 (thin_year s) = false) as -> by (apply Qleb_false; exact Hneg).
  reflexivity.
Qed.

(** X22.  With the thinning modifier switched off, a year of mortality
    never raises the density of a record: after [survival] followed by
    [apply_growth_mortality], a record that had a density that is not
    negative has a density between 0 and the one it had. *)
Theorem survival_then_apply_lowers_tph `{Libm} (s : STAND) (i : nat) (t : Tree.TREE) :
  Aux.exp_positive -> Math.exp_monotone -> Math.exp_zero ->
  use_thin_mod s = false -> 0 <= bf_ba s ->
  trees s !! i = Some t -> 0 <= Tree.tph t ->
  exists t', trees (apply_growth_mortality (survival s)) !! i = Some t'
             /\ 0 <= Tree.tph t' /\ Tree.tph t' <= Tree.tph t.
Proof.
  intros Hexp Hmono Hzero Hoff Hbf Ht Htph.
  unfold apply_growth_mortality. cbn [trees set_trees].
  rewrite StandFacts.map_lookup, (StandFacts.survival_lookup s i t Ht).
  cbn [fmap option_fmap option_map]. eexists. split; [reflexivity|].
  rewrite Hoff.
  pose proof (TreeFacts.survival_prob_no_thin_le_base (Region s) (csi s) (ba s) (qmd s)
                (percent_ba_removed s) (ba_pre_thin s) (qmd_ratio s) (trunc (thin_year s))
                (year s) (average_height_hw s) (average_height_sw s) (CDEF s)
                (use_sbw_mod s) (use_hw_mod s) t Hexp) as Hp.
  destruct (base_survival_unit Hexp t Hmono Hzero) as [Hb0 Hb1].
  specialize (Hp Hb0).
  set (t1 := Tree.survival_prob _ _ _ _ _ _ _ _ _ _ _ _ _ _ false t) in *.
  assert (Tree.tph t1 = Tree.tph t) as Etph by reflexivity.
  assert (1 <= (if use_sbw_mod s then mort_sbw s else 1)) as Hm.
  { destruct (use_sbw_mod s); [apply (mort_sbw_ge_1 Hexp s Hmono Hbf) | lra]. }
  set (m := if use_sbw_mod s then mort_sbw s else 1) in *.
  match goal with |- context [Tree.apply_growth_mortality ?x] =>
    destruct (StandFacts.apply_growth_mortality_tph_le x) as [A B] end.
  - cbn [Tree._dtph Tree.set__dtph]. rewrite Etph. unfold Tree.get_survival.
    assert (0 <= Tree.tph t * (1 - Tree._p_survival t1))
      by (apply Qmult_le_0_compat; lra).
    assert (0 <= Tree.tph t * (1 - Tree._p_survival t1) * m)
      by (apply Qmult_le_0_compat; lra).
    lra.
  - cbn [Tree.tph Tree.set__dtph]. rewrite Etph. exact Htph.
  - cbn [Tree.tph Tree.set__dtph] in B. rewrite Etph in B. split; assumption.
Qed.

(** X23.  On a stand whose basal area, by which the function divides, is
    not zero, the ingrowth rate is never negative.  The probability of
    occurrence lies strictly between 0 and 1, so with a cut point of 0 the
    rate is positive in every year, and with a cut point of 1 or more it is
    0 in every year. *)
Theorem ingrowth_range `{Libm} (type : INGROWTH_MODEL_TYPE) (s : STAND) :
  Aux.exp_positive -> ~ ba s == 0 ->
  0 <= ingrowth type s
  /\ (0 < ingrowth_PI type s /\ ingrowth_PI type s < 1)
  /\ (cut_point s == 0 -> 0 < ingrowth type s)
  /\ (1 <= cut_point s -> ingrowth type s = 0).
Proof.
  intros Hexp _.
  assert (0 < ingrowth_PI type s /\ ingrowth_PI type s < 1) as [HP0 HP1].
  { unfold ingrowth_PI. cbv zeta.
    match goal with |- context [exp ?x] => pose proof (Hexp x) as He; set (e := exp x) in * end.
    split; [apply Qdiv_pos; lra | apply Qlt_shift_div_r; lra]. }
  pose proof (Hexp (ingrowth_eta type s)) as HI.
  assert (0 < exp (ingrowth_eta type s) * ingrowth_PI type s) as Hprod
    by (apply Qmult_lt_0_compat; assumption).
  unfold ingrowth. cbv zeta.
  split; [qcases; lra|]. split; [split; assumption|]. split.
  - intros Hc. assert (Qeqb (cut_point s) 0 = true) as -> by (apply Qeqb_true; exact Hc).
    exact Hprod.
  - intros Hc.
    assert (Qeqb (cut_point s) 0 = false) as -> by (apply Qeqb_false; lra).
    assert (Qleb (cut_point s) (ingrowth_PI type s) = false) as ->
      by (apply Qleb_false; lra).
    reflexivity.
Qed.

Lemma mort_sbw_at_least_1_witness :
  1 <= mort_sbw (H := libm_q) (Samples.defoliated Examples.mixed).
Proof.
  apply (@mort_sbw_at_least_1 libm_q (Samples.defoliated Examples.mixed)
           TreeFacts.exp_q_positive GrowthFacts.exp_q_monotone).
  vm_compute; discriminate.
Defined.

Lemma mort_thin_at_least_1_witness :
  1 <= mort_thin (H := libm_q) (Examples.thinned_stand [Examples.fir]).
Proof.
  exact (proj1 (@mort_thin_at_least_1 libm_q (Examples.thinned_stand [Examples.fir])
                  TreeFacts.exp_q_positive GrowthFacts.pow_q_nonneg)).
Defined.

Lemma survival_then_apply_lowers_tph_witness :
  exists t',
    trees (apply_growth_mortality (H := libm_q)
             (survival (H := libm_q) (Samples.defoliated Examples.mixed))) !! 0%nat
    = Some t'
    /\ 0 <= Tree.tph t'
    /\ Tree.tph t' <= Tree.tph (Samples.record 0 (Samples.defoliated Examples.mixed)).
Proof.
  apply (@survival_then_apply_lowers_tph libm_q (Samples.defoliated Examples.mixed) 0%nat
           (Samples.record 0 (Samples.defoliated Examples.mixed))
           TreeFacts.exp_q_positive GrowthFacts.exp_q_monotone exp_q_zero).
  - reflexivity.
  - vm_compute; discriminate.
  - reflexivity.
  - vm_compute; discriminate.
Defined.

Lemma ingrowth_range_witness :
  0 <= ingrowth (H := libm_q) GNLS (Examples.measured Examples.mixed)
  /\ (0 < ingrowth_PI (H := libm_q) GNLS (Examples.measured Examples.mixed)
      /\ ingrowth_PI (H := libm_q) GNLS (Examples.measured Examples.mixed) < 1)
  /\ (cut_point (Examples.measured Examples.mixed) == 0 ->
      0 < ingrowth (H := libm_q) GNLS (Examples.measured Examples.mixed))
  /\ (1 <= cut_point (Examples.measured Examples.mixed) ->
      ingrowth (H := libm_q) GNLS (Examples.measured Examples.mixed) = 0).
Proof.
  apply (@ingrowth_range libm_q GNLS (Examples.measured Examples.mixed)
           TreeFacts.exp_q_positive).
  vm_compute; discriminate.
Defined.

End MortalityFacts.

(** * Facts about the stand totals and the sentinel of [compute_ba_tph_bal] *)

Module TotalsFacts.
Import Stand.

(** What the loop body adds to the stand totals. *)
Lemma bal_totals_fields (t : Tree.TREE) (s : STAND) :
  ba (bal_totals t s) = ba s + Tree.ba t
  /\ tph (bal_totals t s) = tph s + Tree.tph t
  /\ ba_sw (bal_totals t s) = (if Tree.is_softwood t then ba_sw s + Tree.ba t else ba_sw s)
  /\ ba_hw (bal_totals t s) = (if Tree.is_softwood t then ba_hw s else ba_hw s + Tree.ba t)
  /\ bf_ba (bal_totals t s) = (if (Tree.spp t =? 12)%Z then bf_ba s + Tree.ba t else bf_ba s)
  /\ ithw_ba (bal_totals t s)
     = (if negb (Tree.is_softwood t) && Qltb (Tree.get_shade t) 2
        then ithw_ba s + Tree.ba t else ithw_ba s).
Proof.
  unfold bal_totals.
  destruct (Tree.spp t =? 12)%Z; destruct (Tree.is_softwood t);
    destruct (Qltb (Tree.get_shade t) 2); repeat split; reflexivity.
Qed.

Lemma bal_loop_totals (idx : list nat) : forall l s s',
  NoDup idx -> bal_loop idx l s = Some s' ->
  ba s' == ba s + Qsum (map Tree.ba (omap (fun i => trees s !! i) idx))
  /\ tph s' == tph s + Qsum (map Tree.tph (omap (fun i => trees s !! i) idx))
  /\ ba_sw s' == ba_sw s
                 + Qsum (map (fun t => if Tree.is_softwood t then Tree.ba t else 0)
                           (omap (fun i => trees s !! i) idx))
  /\ ba_hw s' == ba_hw s
                 + Qsum (map (fun t => if Tree.is_softwood t then 0 else Tree.ba t)
                           (omap (fun i => trees s !! i) idx))
  /\ bf_ba s' == bf_ba s
                 + Qsum (map (fun t => if (Tree.spp t =? 12)%Z then Tree.ba t else 0)
                           (omap (fun i => trees s !! i) idx))
  /\ ithw_ba s' == ithw_ba s
                   + Qsum (map (fun t => if negb (Tree.is_softwood t)
                                            && Qltb (Tree.get_shade t) 2
                                         then Tree.ba t else 0)
                             (omap (fun i => trees s !! i) idx)).
Proof.
  induction idx as [|i rest IH]; intros l s s' Hnd Hrun; cbn [bal_loop] in Hrun.
  - inversion Hrun; subst. cbn. repeat split; lra.
  - apply NoDup_cons in Hnd as [Hi Hnd].
    destruct (trees s !! i) as [t|] eqn:Ht; [|discriminate].
    destruct (bal_tree l t) as [[l1 t1]|]; [|discriminate].
    set (s1 := set_trees (<[i := t1]> (trees s)) (bal_totals t s)) in *.
    destruct (IH l1 s1 s' Hnd Hrun) as (H1 & H2 & H3 & H4 & H5 & H6).
    assert (trees s1 = <[i := t1]> (trees s)) as Hs1 by reflexivity.
    rewrite Hs1, (StandFacts.omap_lookup_insert_notin _ _ _ _ Hi) in H1, H2, H3, H4, H5, H6.
    destruct (bal_totals_fields t s) as (F1 & F2 & F3 & F4 & F5 & F6).
    change (ba s1) with (ba (bal_totals t s)) in H1.
    change (tph s1) with (tph (bal_totals t s)) in H2.
    change (ba_sw s1) with (ba_sw (bal_totals t s)) in H3.
    change (ba_hw s1) with (ba_hw (bal_totals t s)) in H4.
    change (bf_ba s1) with (bf_ba (bal_totals t s)) in H5.
    change (ithw_ba s1) with (ithw_ba (bal_totals t s)) in H6.
    rewrite F1 in H1. rewrite F2 in H2. rewrite F3 in H3. rewrite F4 in H4.
    rewrite F5 in H5. rewrite F6 in H6.
    cbn [omap list_omap]. rewrite Ht. cbn [map]. rewrite !Qsum_cons.
    split; [lra|]. split; [lra|].
    split; [destruct (Tree.is_softwood t); lra|].
    split; [destruct (Tree.is_softwood t); lra|].
    split; [destruct (Tree.spp t =? 12)%Z; lra|].
    destruct (negb (Tree.is_softwood t) && Qltb (Tree.get_shade t) 2); lra.
Qed.

Lemma Qsum_map_perm {A} (f : A -> Q) (l1 l2 : list A) :
  Permutation l1 l2 -> Qsum (map f l1) == Qsum (map f l2).
Proof. intros Hp. apply Qsum_perm. apply Permutation_map. exact Hp. Qed.

Lemma sentinel_cases (l : list Tree.TREE) :
  Forall (fun t => Tree.dbh t <= 9999) l \/ Exists (fun t => 9999 < Tree.dbh t) l.
Proof.
  induction l as [|t l [IH|IH]].
  - left. constructor.
  - destruct (Qlt_le_dec 9999 (Tree.dbh t)) as [Hgt|Hle].
    + right. constructor. exact Hgt.
    + left. constructor; assumption.
  - right. apply Exists_cons_tl. exact IH.
Qed.

Lemma option_bind_some {A B} (o : option A) (f : A -> B) (b : B) :
  match o with Some x => Some (f x) | None => None end = Some b ->
  exists a, o = Some a /\ b = f a.
Proof. destruct o as [a|]; intros Hb; [|discriminate]. exists a. split; congruence. Qed.

Section Totals.
Context `{Libm}.

(** X24.  When [compute_ba_tph_bal] completes, the totals of the stand are
    the sums over its trees: basal area, density, softwood and hardwood
    basal area (which add up to the basal area), balsam fir basal area (species 12) and
    the basal area of the hardwoods of shade tolerance below 2. *)
Theorem compute_ba_tph_bal_totals (s s' : STAND) :
  compute_ba_tph_bal s = Some s' ->
  ba s' == Qsum (map Tree.ba (trees s))
  /\ tph s' == Qsum (map Tree.tph (trees s))
  /\ ba_sw s' == Qsum (map Tree.ba (List.filter Tree.is_softwood (trees s)))
  /\ ba_sw s' + ba_hw s' == ba s'
  /\ bf_ba s' == Qsum (map Tree.ba (List.filter (fun t => (Tree.spp t =? 12)%Z) (trees s)))
  /\ ithw_ba s'
     == Qsum (map Tree.ba
                (List.filter (fun t => negb (Tree.is_softwood t)
                                       && Qltb (Tree.get_shade t) 2) (trees s))).
Proof.
  intros Hrun.
  assert (exists s1,
            bal_loop (sort_indices (trees s) true) bal_locals_init
              (set_tph 0 (set_ithw_ba 0 (set_bf_ba 0 (set_ba_hw 0 (set_ba_sw 0 (set_ba 0 s))))))
            = Some s1 /\ exists v, s' = set_qmd v s1) as (s1 & E & v & ->).
  { revert Hrun. unfold compute_ba_tph_bal. cbv zeta.
    intros Hrun. apply option_bind_some in Hrun as (s1 & E & ->). eauto. }
  destruct (bal_loop_totals _ _ _ _ (StandFacts.sort_indices_NoDup _ _) E)
    as (H1 & H2 & H3 & H4 & H5 & H6).
  clear E.
  match type of H1 with context [omap (fun i => trees ?x !! i) _] =>
    assert (trees x = trees s) as Et by reflexivity;
    assert (ba x = 0 /\ tph x = 0 /\ ba_sw x = 0 /\ ba_hw x = 0 /\ bf_ba x = 0
            /\ ithw_ba x = 0) as (Z1 & Z2 & Z3 & Z4 & Z5 & Z6)
      by (repeat split; reflexivity);
    rewrite Et in H1, H2, H3, H4, H5, H6;
    rewrite Z1 in H1; rewrite Z2 in H2; rewrite Z3 in H3; rewrite Z4 in H4;
    rewrite Z5 in H5; rewrite Z6 in H6; clear Et Z1 Z2 Z3 Z4 Z5 Z6
  end.
  fold (Spec.ranked (trees s) true) in H1, H2, H3, H4, H5, H6.
  pose proof (StandFacts.ranked_perm (trees s) true) as Hperm.
  rewrite (Qsum_map_perm _ _ _ Hperm) in H1. rewrite (Qsum_map_perm _ _ _ Hperm) in H2.
  rewrite (Qsum_map_perm _ _ _ Hperm) in H3. rewrite (Qsum_map_perm _ _ _ Hperm) in H4.
  rewrite (Qsum_map_perm _ _ _ Hperm) in H5. rewrite (Qsum_map_perm _ _ _ Hperm) in H6.
  rewrite !StatisticsFacts.Qsum_filter.
  assert (ba (set_qmd v s1) = ba s1 /\ tph (set_qmd v s1) = tph s1
          /\ ba_sw (set_qmd v s1) = ba_sw s1 /\ ba_hw (set_qmd v s1) = ba_hw s1
          /\ bf_ba (set_qmd v s1) = bf_ba s1 /\ ithw_ba (set_qmd v s1) = ithw_ba s1)
    as (-> & -> & -> & -> & -> & ->) by (repeat split; reflexivity).
  split; [lra|]. split; [lra|]. split; [lra|]. split; [|split; [lra|lra]].
  rewrite H1, H3, H4. clear. induction (trees s) as [|t l IH]; [reflexivity|].
  cbn [map]. rewrite !Qsum_cons. destruct (Tree.is_softwood t); lra.
Qed.

(** X25.  [compute_ba_tph_bal] reaches its bare [throw;], which ends the
    process, exactly when some tree has a diameter above the sentinel 9999
    with which the loop starts. *)
Theorem compute_ba_tph_bal_sentinel (s : STAND) :
  compute_ba_tph_bal s = None <-> Exists (fun t => 9999 < Tree.dbh t) (trees s).
Proof.
  pose proof (StandFacts.compute_ba_tph_bal_ranked s) as Hc.
  pose proof (StandFacts.ranked_perm (trees s) true) as Hperm.
  pose proof (StandFacts.ranked_sorted (trees s) true) as Hsorted.
  split.
  - intros Hnone. destruct (sentinel_cases (trees s)) as [Hall|Hex]; [|exact Hex].
    exfalso.
    destruct (StandFacts.bal_list_total (Spec.ranked (trees s) true) [] bal_locals_init
                StandFacts.bal_inv_init Hsorted) as [out Hout].
    + rewrite Hperm. exact Hall.
    + rewrite Hperm. eapply List.Forall_impl; [|exact Hall]. intros t Ht _. exact Ht.
    + rewrite Hout in Hc. destruct Hc as (s' & Hs' & _). congruence.
  - intros Hex. rewrite <- Hperm in Hex.
    destruct (Spec.ranked (trees s) true) as [|h r] eqn:Er.
    + inversion Hex.
    + assert (9999 < Tree.dbh h) as Hh.
      { apply StronglySorted_inv in Hsorted as [_ Hhead].
        apply Exists_cons in Hex as [Hx | Hx]; [exact Hx|].
        apply Exists_exists in Hx as (x & Hx & Hgt).
        rewrite Forall_forall in Hhead. specialize (Hhead x Hx). cbn in Hhead. lra. }
      assert (Aux.bal_list bal_locals_init (h :: r) = None) as Hnone.
      { cbn [Aux.bal_list]. unfold bal_tree, rank_step. cbn [_bal last_dbh pending bal_locals_init].
        assert ((Tree.dbh h ?= 9999) = Gt) as -> by (apply Qgt_alt; exact Hh).
        reflexivity. }
      rewrite Hnone in Hc. exact Hc.
Qed.

End Totals.

Lemma compute_ba_tph_bal_totals_witness :
  tph (Examples.measured Examples.mixed) == Qsum (map Tree.tph (trees (Examples.stand_q false 0 Examples.mixed))).
Proof.
  apply (@compute_ba_tph_bal_totals libm_q (Examples.stand_q false 0 Examples.mixed)
           (Examples.measured Examples.mixed)).
  vm_compute; reflexivity.
Defined.

End TotalsFacts.

(** * Facts about the density through expansion and collapse *)

Module ExpansionFacts.
Import Stand.

Section Expansion.
Context `{Libm}.
Variable jitter : nat -> Q.

Lemma expand_copy_tph (t : Tree.TREE) id new_tph k :
  Tree.tph (fst (expand_copy jitter t id new_tph k)) = new_tph.
Proof. unfold expand_copy. cbn. destruct (Qltb 0 (Tree.ht t)); reflexivity. Qed.

Lemma expand_copies_tph threshold (t : Tree.TREE) n : forall j cum k,
  Forall (fun c => Tree.tph c = threshold) (fst (expand_copies jitter threshold t n j cum k))
  /\ snd (fst (snd (expand_copies jitter threshold t n j cum k)))
     == cum + inject_Z (Z.of_nat n) * threshold
  /\ Qsum (map Tree.tph (fst (expand_copies jitter threshold t n j cum k)))
     == inject_Z (Z.of_nat n) * threshold.
Proof.
  induction n as [|n IH]; intros j cum k.
  - cbn [expand_copies fst snd map Z.of_nat]. rewrite Qsum_nil.
    change (inject_Z (Z.of_nat 0)) with 0. split; [constructor|]. split; lra.
  - cbn [expand_copies].
    pose proof (expand_copy_tph t (j + 1)%Z threshold k) as Hc.
    destruct (expand_copy jitter t (j + 1) threshold k) as [c k1]. cbn [fst] in Hc.
    specialize (IH (j + 1)%Z (cum + threshold) k1).
    destruct (expand_copies jitter threshold t n (j + 1) (cum + threshold) k1)
      as [cs [[j' cum'] k']].
    cbn [fst snd] in IH |- *. destruct IH as (I1 & I2 & I3).
    cbn [map]. rewrite Qsum_cons, Hc.
    rewrite Nat2Z.inj_succ, <- Z.add_1_r, inject_Z_plus. change (inject_Z 1) with 1.
    split; [constructor; assumption|]. split; [rewrite I2; ring | rewrite I3; ring].
Qed.

(** The density of a record above the threshold is below the threshold
    times the number of whole thresholds it holds plus one. *)
Lemma expand_count_next threshold x :
  0 < threshold -> threshold < x ->
  x < threshold + inject_Z (Z.of_nat (Z.to_nat (trunc (x / threshold) - 1))) * threshold
      + threshold.
Proof.
  intros Hthr Hx.
  assert (1 <= x / threshold) as H1 by (apply Qle_shift_div_l; lra).
  assert (trunc (x / threshold) = Qfloor (x / threshold)) as ->.
  { unfold trunc. assert (Qltb (x / threshold) 0 = false) as -> by (apply Qltb_false; lra).
    reflexivity. }
  assert (1 <= Qfloor (x / threshold))%Z as Hf.
  { change 1%Z with (Qfloor (inject_Z 1)). apply Qfloor_resp_le. exact H1. }
  rewrite Z2Nat.id by lia.
  unfold Z.sub. rewrite inject_Z_plus. change (inject_Z (- (1))) with (- (1)).
  pose proof (Qlt_floor (x / threshold)) as Hlt. rewrite inject_Z_plus in Hlt.
  change (inject_Z 1) with 1 in Hlt.
  assert (x / threshold * threshold < (inject_Z (Qfloor (x / threshold)) + 1) * threshold)
    as Hm by (apply Qmult_lt_compat_r; lra).
  assert (x / threshold * threshold == x) as Hx' by (field; lra).
  lra.
Qed.

(** One record through the expansion: what is left in place and what is
    appended hold its density between them, none above the threshold. *)
Lemma expand_record_tph threshold (t : Tree.TREE) k :
  0 < threshold ->
  Tree.tph (fst (fst (expand_record jitter threshold t k)))
  + Qsum (map Tree.tph (snd (fst (expand_record jitter threshold t k)))) == Tree.tph t
  /\ Forall (fun c => Tree.tph c <= threshold)
       (fst (fst (expand_record jitter threshold t k))
        :: snd (fst (expand_record jitter threshold t k))).
Proof.
  intros Hthr. unfold expand_record.
  destruct (Qltb threshold (Tree.tph t)) eqn:E;
    [apply Qltb_true in E | apply Qltb_false in E].
  - set (n := Z.to_nat (trunc (Tree.tph t / threshold) - 1)).
    pose proof (StandFacts.expand_count_fits threshold (Tree.tph t) Hthr E) as Hfit.
    pose proof (expand_count_next threshold (Tree.tph t) Hthr E) as Hnext.
    fold n in Hfit, Hnext.
    pose proof (expand_copies_tph threshold t n 0%Z threshold k) as Hcs.
    destruct (expand_copies jitter threshold t n 0 threshold k) as [cs [[j cum] k1]].
    cbn [fst snd] in Hcs. destruct Hcs as (C1 & C2 & C3).
    assert (Forall (fun c => Tree.tph c <= threshold) cs) as C1'.
    { eapply List.Forall_impl; [|exact C1]. intros c Hc. cbv beta in Hc. rewrite Hc. lra. }
    destruct (Qltb cum (Tree.tph t)) eqn:E2;
      [apply Qltb_true in E2 | apply Qltb_false in E2].
    + pose proof (expand_copy_tph t (j + 1)%Z (Tree.tph t - cum) k1) as Hc.
      destruct (expand_copy jitter t (j + 1) (Tree.tph t - cum) k1) as [c k2].
      cbn [fst snd] in Hc |- *.
      cbn [Tree.tph Tree.compute_attributes Tree.compute_mca Tree.compute_lcw
             Tree.compute_mcw Tree.set_mca Tree.set_lcw Tree.set_mcw Tree.set_ba
             Tree.set_expand_tree_id Tree.set_tph].
      rewrite map_app, Qsum_app. cbn [map]. rewrite Qsum_cons, Qsum_nil, Hc. split; [lra|].
      constructor; [change (threshold <= threshold); lra|].
      apply Forall_app. split; [exact C1'|].
      constructor; [rewrite Hc; lra | constructor].
    + cbn [fst snd].
      cbn [Tree.tph Tree.compute_attributes Tree.compute_mca Tree.compute_lcw
             Tree.compute_mcw Tree.set_mca Tree.set_lcw Tree.set_mcw Tree.set_ba
             Tree.set_expand_tree_id Tree.set_tph].
      rewrite app_nil_r. split; [lra|].
      constructor; [change (threshold <= threshold); lra | exact C1'].
  - cbn [fst snd map]. rewrite Qsum_nil. split; [lra|]. constructor; [exact E | constructor].
Qed.

Lemma expand_loop_tph threshold (orig : list Tree.TREE) : forall k,
  0 < threshold ->
  Qsum (map Tree.tph (fst (fst (expand_loop jitter threshold orig k))))
  + Qsum (map Tree.tph (snd (fst (expand_loop jitter threshold orig k))))
  == Qsum (map Tree.tph orig)
  /\ Forall (fun c => Tree.tph c <= threshold)
       (fst (fst (expand_loop jitter threshold orig k))
        ++ snd (fst (expand_loop jitter threshold orig k)))
  /\ length (fst (fst (expand_loop jitter threshold orig k))) = length orig.
Proof.
  induction orig as [|t rest IH]; intros k Hthr; cbn [expand_loop].
  - cbn. split; [lra|]. split; [constructor | reflexivity].
  - pose proof (expand_record_tph threshold t k Hthr) as Hr.
    destruct (expand_record jitter threshold t k) as [[t' added] k1]. cbn [fst snd] in Hr.
    specialize (IH k1 Hthr).
    destruct (expand_loop jitter threshold rest k1) as [[rest' added'] k2].
    cbn [fst snd] in IH |- *. destruct Hr as [R1 R2]. destruct IH as (I1 & I2 & I3).
    apply Forall_cons in R2 as [R2 R3]. apply Forall_app in I2 as [I2 I4].
    cbn [map length]. rewrite map_app, Qsum_app, !Qsum_cons.
    split; [lra|]. split; [|rewrite I3; reflexivity].
    constructor; [exact R2|]. apply Forall_app. split; [exact I2|].
    apply Forall_app. split; assumption.
Qed.

(** X26.  [expand_tree_list] reports failure exactly on an empty tree list.
    With a positive threshold it conserves the total density of the list,
    leaves no record with a density above the threshold, and never shortens
    the list. *)
Theorem expand_tree_list_conserves (threshold : Q) (s : STAND) :
  0 < threshold ->
  (fst (expand_tree_list jitter threshold s) = false <-> trees s = [])
  /\ Qsum (map Tree.tph (trees (snd (expand_tree_list jitter threshold s))))
     == Qsum (map Tree.tph (trees s))
  /\ Forall (fun t => Tree.tph t <= threshold)
       (trees (snd (expand_tree_list jitter threshold s)))
  /\ (length (trees s) <= length (trees (snd (expand_tree_list jitter threshold s))))%nat.
Proof.
  intros Hthr. unfold expand_tree_list.
  destruct (trees s) as [|t0 l0] eqn:Et.
  - cbn [fst snd]. rewrite Et. split; [tauto|]. split; [reflexivity|].
    split; [constructor | reflexivity].
  - rewrite <- Et.
    pose proof (expand_loop_tph threshold (trees s) 0%nat Hthr) as (H1 & H2 & H3).
    destruct (expand_loop jitter threshold (trees s) 0) as [[kept added] k].
    cbn [fst snd trees set_trees] in *.
    split; [rewrite Et; split; intros; discriminate|].
    split; [rewrite map_app, Qsum_app; exact H1|].
    split; [exact H2|]. rewrite length_app, H3. lia.
Qed.

End Expansion.

(** ** Collapse *)

Lemma weigh_tph (t : Tree.TREE) : Tree.tph (weigh t) = Tree.tph t.
Proof. reflexivity. Qed.

Lemma accumulate_tph (acc t2 : Tree.TREE) :
  Tree.tph (accumulate acc t2) = Tree.tph acc + Tree.tph t2.
Proof. reflexivity. Qed.

Lemma absorb_tph (rest : list Tree.TREE) : forall acc,
  Tree.tph (fst (absorb acc rest)) + Qsum (map Tree.tph (snd (absorb acc rest)))
  == Tree.tph acc + Qsum (map Tree.tph rest).
Proof.
  induction rest as [|t2 r IH]; intros acc; cbn [absorb].
  - cbn. lra.
  - destruct (same_group acc t2).
    + specialize (IH (accumulate acc t2)).
      destruct (absorb (accumulate acc t2) r) as [acc' r']. cbn [fst snd] in IH |- *.
      cbn [map]. rewrite !Qsum_cons. rewrite accumulate_tph in IH.
      change (Tree.tph (consumed t2)) with 0. lra.
    + specialize (IH acc). destruct (absorb acc r) as [acc' r']. cbn [fst snd] in IH |- *.
      cbn [map]. rewrite !Qsum_cons. lra.
Qed.

Section Collapse.
Context `{Libm}.

Lemma average_tph (t : Tree.TREE) : Tree.tph (average t) = Tree.tph t.
Proof. unfold average. destruct (Qltb 0 (Tree.tph t)); reflexivity. Qed.

Lemma unexpand_loop_tph (n : nat) : forall l,
  Qsum (map Tree.tph (unexpand_loop n l)) == Qsum (map Tree.tph l).
Proof.
  induction n as [|n IH]; intros l; [destruct l; reflexivity|].
  destruct l as [|t rest]; [reflexivity|]. cbn [unexpand_loop].
  destruct (0 <? Tree.expand_tree_id t)%Z.
  - pose proof (absorb_tph rest (weigh t)) as Ha.
    destruct (absorb (weigh t) rest) as [acc rest']. cbn [fst snd] in Ha.
    cbn [map]. rewrite !Qsum_cons, IH, average_tph. rewrite weigh_tph in Ha. lra.
  - cbn [map]. rewrite !Qsum_cons, IH. reflexivity.
Qed.

Lemma erase_zero_tph (l : list Tree.TREE) :
  Qsum (map Tree.tph (List.filter (fun t => negb (Qeqb (Tree.tph t) 0)) l))
  == Qsum (map Tree.tph l)
  /\ Forall (fun t => ~ Tree.tph t == 0)
       (List.filter (fun t => negb (Qeqb (Tree.tph t) 0)) l).
Proof.
  induction l as [|t l [IH1 IH2]]; [split; [reflexivity | constructor]|].
  cbn [List.filter map]. rewrite Qsum_cons.
  destruct (Qeqb (Tree.tph t) 0) eqn:E; [apply Qeqb_true in E | apply Qeqb_false in E];
    cbn [negb map].
  - split; [lra | exact IH2].
  - rewrite Qsum_cons. split; [lra | constructor; assumption].
Qed.

(** X27.  [unexpand_tree_list] conserves the total density of the tree
    list, whatever the list holds, leaves no record of density zero, and
    reports success. *)
Theorem unexpand_tree_list_conserves (s : STAND) :
  fst (unexpand_tree_list s) = true
  /\ Qsum (map Tree.tph (trees (snd (unexpand_tree_list s))))
     == Qsum (map Tree.tph (trees s))
  /\ Forall (fun t => ~ Tree.tph t == 0) (trees (snd (unexpand_tree_list s))).
Proof.
  unfold unexpand_tree_list. cbn [fst snd trees set_trees].
  destruct (erase_zero_tph (unexpand_loop (length (trees s)) (trees s))) as [H1 H2].
  split; [reflexivity|]. split; [|exact H2].
  rewrite H1. apply unexpand_loop_tph.
Qed.

End Collapse.

Lemma expand_tree_list_conserves_witness :
  Qsum (map Tree.tph
          (trees (snd (expand_tree_list (H := libm_q) Examples.jitter_q 50
                         (Examples.stand_q false 0 Examples.mixed)))))
  == Qsum (map Tree.tph (trees (Examples.stand_q false 0 Examples.mixed))).
Proof.
  apply (@expand_tree_list_conserves libm_q Examples.jitter_q 50
           (Examples.stand_q false 0 Examples.mixed)).
  reflexivity.
Defined.

End ExpansionFacts.

(** * Facts about the basal-area maps and the ids of the ingrowth records *)

Module IngrowthFacts.
Import Stand.

(** Reading a map after an update. *)
Lemma map_get_map_update {V} (d : V) (k' k : Z) (f : V -> V) (m : list (Z * V)) :
  map_get d k (map_update d k' f m)
  = if (k' =? k)%Z then f (map_get d k m) else map_get d k m.
Proof.
  induction m as [|[k0 x] m IH]; cbn [map_update map_get].
  - destruct (k' =? k)%Z; reflexivity.
  - destruct (Z.eqb_spec k0 k') as [E1|N1]; cbn [map_get].
    + subst k0. destruct (k' =? k)%Z; reflexivity.
    + destruct (Z.eqb_spec k0 k) as [E2|N2].
      * subst k0. assert ((k' =? k)%Z = false) as -> by (apply Z.eqb_neq; congruence).
        reflexivity.
      * exact IH.
Qed.

Lemma build_ba_spp_step_entries (s : STAND) (t : Tree.TREE) (p k : Z) :
  map_get 0 k (ba_spp (build_ba_spp_step s t))
  == map_get 0 k (ba_spp s) + (if (species_key t =? k)%Z then Tree.ba t else 0)
  /\ map_get 0 k (ba_grp_spp (build_ba_spp_step s t))
     == map_get 0 k (ba_grp_spp s) + (if (group_key t =? k)%Z then Tree.ba t else 0)
  /\ map_get 0 k (map_get [] p (plot_species_ba (build_ba_spp_step s t)))
     == map_get 0 k (map_get [] p (plot_species_ba s))
        + (if (to_int (Tree.plot_id t) =? p)%Z && (species_key t =? k)%Z
           then Tree.ba t else 0).
Proof.
  unfold build_ba_spp_step.
  cbn [ba_spp ba_grp_spp plot_species_ba set_ba_spp set_ba_grp_spp set_plot_species_ba].
  rewrite !map_get_map_update.
  split; [destruct (species_key t =? k)%Z; lra|].
  split; [destruct (group_key t =? k)%Z; lra|].
  destruct (to_int (Tree.plot_id t) =? p)%Z; cbn [andb]; [|lra].
  rewrite map_get_map_update. destruct (species_key t =? k)%Z; lra.
Qed.

Lemma build_fold_entries (T : list Tree.TREE) (p k : Z) : forall s,
  map_get 0 k (ba_spp (foldl build_ba_spp_step s T))
  == map_get 0 k (ba_spp s)
     + Qsum (map (fun t => if (species_key t =? k)%Z then Tree.ba t else 0) T)
  /\ map_get 0 k (ba_grp_spp (foldl build_ba_spp_step s T))
     == map_get 0 k (ba_grp_spp s)
        + Qsum (map (fun t => if (group_key t =? k)%Z then Tree.ba t else 0) T)
  /\ map_get 0 k (map_get [] p (plot_species_ba (foldl build_ba_spp_step s T)))
     == map_get 0 k (map_get [] p (plot_species_ba s))
        + Qsum (map (fun t => if (to_int (Tree.plot_id t) =? p)%Z && (species_key t =? k)%Z
                              then Tree.ba t else 0) T).
Proof.
  induction T as [|t T IH]; intros s; cbn [foldl map].
  - rewrite Qsum_nil. repeat split; lra.
  - destruct (IH (build_ba_spp_step s t)) as (H1 & H2 & H3).
    destruct (build_ba_spp_step_entries s t p k) as (S1 & S2 & S3).
    rewrite !Qsum_cons. repeat split; lra.
Qed.

(** X28.  [build_ba_spp_map] adds to each of its three maps and never
    clears them: after the call the entry of a species key holds what it
    held before plus the basal area of the trees filed under that key (the
    species if the cross walk lists it, else other softwoods or hardwoods),
    the entry of a group likewise for the trees of the group, and the entry
    of a plot and a species key likewise for the trees of that plot; the
    tree list is left as it is.  A second call therefore adds the same basal
    areas once more. *)
Theorem build_ba_spp_map_entries (s : STAND) (p k : Z) :
  map_get 0 k (ba_spp (build_ba_spp_map s))
  == map_get 0 k (ba_spp s)
     + Qsum (map Tree.ba (List.filter (fun t => (species_key t =? k)%Z) (trees s)))
  /\ map_get 0 k (ba_grp_spp (build_ba_spp_map s))
     == map_get 0 k (ba_grp_spp s)
        + Qsum (map Tree.ba (List.filter (fun t => (group_key t =? k)%Z) (trees s)))
  /\ map_get 0 k (map_get [] p (plot_species_ba (build_ba_spp_map s)))
     == map_get 0 k (map_get [] p (plot_species_ba s))
        + Qsum (map Tree.ba
                  (List.filter (fun t => (to_int (Tree.plot_id t) =? p)%Z
                                         && (species_key t =? k)%Z) (trees s)))
  /\ trees (build_ba_spp_map s) = trees s
  /\ map_get 0 k (ba_spp (build_ba_spp_map (build_ba_spp_map s)))
     == map_get 0 k (ba_spp s)
        + 2 * Qsum (map Tree.ba (List.filter (fun t => (species_key t =? k)%Z) (trees s))).
Proof.
  rewrite !StatisticsFacts.Qsum_filter.
  destruct (build_fold_entries (trees s) p k s) as (H1 & H2 & H3).
  destruct (StandFacts.build_fold_frame (trees s) s) as (Ht & _).
  fold (build_ba_spp_map s) in H1, H2, H3, Ht.
  split; [exact H1|]. split; [exact H2|]. split; [exact H3|]. split; [exact Ht|].
  destruct (build_fold_entries (trees (build_ba_spp_map s)) p k (build_ba_spp_map s))
    as (G1 & _).
  fold (build_ba_spp_map (build_ba_spp_map s)) in G1. rewrite Ht in G1. lra.
Qed.

(** ** Tree ids of the ingrowth records *)

Section Ids.
Context `{Libm}.
Variable resolve : Z -> option Tree.SPECIES.

Lemma TREE_new_tree_id plot_id_t tree_id_t spp_t dbh_t ht_t tph_t cr_t form_t risk_t t :
  Tree.TREE_new resolve plot_id_t tree_id_t spp_t dbh_t ht_t tph_t cr_t form_t risk_t
    = Some t ->
  Tree.tree_id t = tree_id_t.
Proof.
  unfold Tree.TREE_new. destruct (resolve spp_t); [|discriminate].
  intros Hs. injection Hs as <-. reflexivity.
Qed.

Lemma new_trees_ids MinDBH (l : list (Z * Z * Q)) : forall id ts last,
  new_trees resolve MinDBH id l = Some (ts, last) ->
  (0 <= id)%Z -> (id + Z.of_nat (length l) < 2 ^ 64)%Z ->
  last = (id + Z.of_nat (length l))%Z
  /\ length ts = length l
  /\ forall k t, ts !! k = Some t -> Tree.tree_id t = (id + 1 + Z.of_nat k)%Z.
Proof.
  induction l as [|[[plot spp] new_tph] l IH]; intros id ts last Hn H0 Hlt;
    cbn [new_trees] in Hn.
  - injection Hn as <- <-. cbn [length]. split; [lia|]. split; [reflexivity|].
    intros k t Hk. discriminate.
  - cbn [length] in Hlt.
    assert (to_ulong (id + 1) = (id + 1)%Z) as Eid
      by (unfold to_ulong; apply Z.mod_small; lia).
    rewrite Eid in Hn.
    destruct (Tree.TREE_new resolve (to_ulong plot) (id + 1) spp MinDBH 0 new_tph 0 0 0)
      as [t0|] eqn:Et; [|discriminate].
    destruct (new_trees resolve MinDBH (id + 1) l) as [[ts' last']|] eqn:En; [|discriminate].
    injection Hn as <- <-.
    destruct (IH (id + 1)%Z ts' last' En) as (I1 & I2 & I3); [lia | lia |].
    cbn [length]. split; [lia|]. split; [rewrite I2; reflexivity|].
    intros [|k] t Hk; cbn in Hk.
    + injection Hk as <-. rewrite (TREE_new_tree_id _ _ _ _ _ _ _ _ _ _ Et). lia.
    + rewrite (I3 k t Hk). lia.
Qed.

(** X29.  When the largest tree id on record is the one [find_max_tree_id]
    returns and the ids do not run past the range of [unsigned long],
    [ingrowth_composition] appends records whose tree ids are the next
    integers after it, in order: distinct from each other and from the id of
    every record already in the list, with the largest tree id on record
    moved to the last one issued. *)
Theorem ingrowth_composition_fresh_ids (IPH : Q) (s s' : STAND) :
  ingrowth_composition resolve IPH s = Some s' ->
  max_tree_id s = Statistics.find_max_tree_id s ->
  (max_tree_id s + Z.of_nat (length (trees s') - length (trees s)) < 2 ^ 64)%Z ->
  exists ts,
    trees s' = trees s ++ ts
    /\ (forall k t, ts !! k = Some t ->
          Tree.tree_id t = (max_tree_id s + 1 + Z.of_nat k)%Z)
    /\ max_tree_id s' = (max_tree_id s + Z.of_nat (length ts))%Z
    /\ (forall t u, t ∈ ts -> u ∈ trees s -> Tree.tree_id t <> Tree.tree_id u)
    /\ NoDup (map Tree.tree_id ts).
Proof.
  intros Hrun Hmax Hlt. unfold ingrowth_composition in Hrun.
  destruct (ingrowth_allocation IPH s) as [l|]; [|discriminate].
  destruct (new_trees resolve (MinDBH s) (max_tree_id s) l) as [[ts last]|] eqn:En;
    [|discriminate].
  injection Hrun as <-. cbn [trees set_trees set_plot_species_ba set_max_tree_id] in Hlt.
  rewrite length_app in Hlt.
  replace (length (trees s) + length ts - length (trees s))%nat with (length ts) in Hlt
    by lia.
  destruct (StatisticsFacts.find_max_fold (trees s) 0%Z) as (H0 & Hall & _).
  cbv zeta in H0, Hall. fold (Statistics.find_max_tree_id s) in H0, Hall.
  rewrite <- Hmax in H0, Hall.
  assert (length ts = length l) as Hlen.
  { clear -En. revert En. generalize (max_tree_id s). revert ts last.
    induction l as [|[[plot spp] x] l IH]; intros ts last id Hn; cbn [new_trees] in Hn.
    - injection Hn as <- <-. reflexivity.
    - destruct (Tree.TREE_new _ _ _ _ _ _ _ _ _ _) as [t0|]; [|discriminate].
      destruct (new_trees resolve (MinDBH s) (to_ulong (id + 1)) l) as [[ts' last']|] eqn:E;
        [|discriminate].
      injection Hn as <- <-. cbn [length]. rewrite (IH _ _ _ E). reflexivity. }
  rewrite Hlen in Hlt.
  destruct (new_trees_ids (MinDBH s) l (max_tree_id s) ts last En H0 Hlt) as (I1 & I2 & I3).
  exists ts. cbn [trees max_tree_id set_trees set_plot_species_ba set_max_tree_id].
  split; [reflexivity|]. split; [exact I3|]. split; [rewrite I2; exact I1|]. split.
  - intros t u Ht Hu. apply list_elem_of_lookup in Ht as [k Hk].
    rewrite (I3 k t Hk). rewrite Forall_forall in Hall. specialize (Hall u Hu). lia.
  - apply NoDup_alt. intros i j x Hi Hj.
    rewrite list_lookup_fmap in Hi, Hj.
    destruct (ts !! i) as [ti|] eqn:Ei; [|discriminate].
    destruct (ts !! j) as [tj|] eqn:Ej; [|discriminate].
    cbn in Hi, Hj. injection Hi as Hi. injection Hj as Hj.
    rewrite (I3 i ti Ei) in Hi. rewrite (I3 j tj Ej) in Hj. lia.
Qed.

End Ids.

Lemma ingrowth_composition_fresh_ids_witness :
  exists ts,
    trees Samples.recruited = trees Samples.recruiting ++ ts
    /\ (forall k t, ts !! k = Some t ->
          Tree.tree_id t = (max_tree_id Samples.recruiting + 1 + Z.of_nat k)%Z)
    /\ max_tree_id Samples.recruited
       = (max_tree_id Samples.recruiting + Z.of_nat (length ts))%Z
    /\ (forall t u, t ∈ ts -> u ∈ trees Samples.recruiting ->
          Tree.tree_id t <> Tree.tree_id u)
    /\ NoDup (map Tree.tree_id ts).
Proof.
  apply (@ingrowth_composition_fresh_ids libm_q Examples.resolve_q 25 Samples.recruiting
           Samples.recruited).
  - vm_compute; reflexivity.
  - reflexivity.
  - vm_compute; reflexivity.
Defined.

End IngrowthFacts.

(** * Facts about the rows read and written by the R entry point *)

Module DriverFacts.
Import Driver.

(** An [int] converted to [unsigned long] and back is the same [int]. *)
Lemma to_int_to_ulong (z : Z) : (- 2 ^ 31 <= z < 2 ^ 31)%Z -> to_int (to_ulong z) = z.
Proof.
  intros Hz. unfold to_int, to_ulong.
  assert ((z mod 2 ^ 64 + 2 ^ 31) mod 2 ^ 32 = (z + 2 ^ 31) mod 2 ^ 32)%Z as ->.
  { pose proof (Z.div_mod z (2 ^ 64) ltac:(lia)) as Hdm.
    replace (z mod 2 ^ 64 + 2 ^ 31)%Z
      with ((z + 2 ^ 31) + (- (z / 2 ^ 64) * 2 ^ 32) * 2 ^ 32)%Z by lia.
    apply Z.mod_add. lia. }
  rewrite Z.mod_small by lia. lia.
Qed.

Section Rows.
Context `{Libm}.
Variable resolve : Z -> option Tree.SPECIES.

(** X30.  A row whose ids are [int] values comes back from the loop that
    writes the results as it was handed to the loop that constructs the
    trees, when nothing has changed the record in between: the plot id and
    the tree id survive the conversion to [unsigned long] and back, negative
    ones included, and the unit factors of diameter, height and expansion
    factor cancel, in metric and in imperial units. *)
Theorem extract_constructed_row (units : Z) (r : tree_row) (t : Tree.TREE) :
  let ft_m := if (units =? 0)%Z then 1 else 0.3048 in
  let in_cm := if (units =? 0)%Z then 1 else 2.54 in
  let ac_ha := if (units =? 0)%Z then 1 else 2.47 in
  Tree.TREE_new resolve (to_ulong (r_plot_id r)) (to_ulong (r_tree_id r)) (r_spp r)
    (r_dbh r * in_cm) (r_ht r * ft_m) (r_expf r * ac_ha) (r_cr r) (r_form r) (r_risk r)
    = Some t ->
  (- 2 ^ 31 <= r_plot_id r < 2 ^ 31)%Z -> (- 2 ^ 31 <= r_tree_id r < 2 ^ 31)%Z ->
  exists d h e,
    extract in_cm ft_m ac_ha t = (r_plot_id r, r_tree_id r, r_spp r, d, h, e, r_cr r)
    /\ d == r_dbh r /\ h == r_ht r /\ e == r_expf r.
Proof.
  intros ft_m in_cm ac_ha Hnew Hp Hi. unfold Tree.TREE_new in Hnew.
  destruct (resolve (r_spp r)) as [sp|]; [|discriminate]. injection Hnew as <-.
  unfold extract.
  cbn [Tree.expand_tree_id Tree.plot_id Tree.tree_id Tree.spp Tree.dbh Tree.ht Tree.tph Tree.cr
         Tree.compute_attributes Tree.compute_mca Tree.compute_lcw Tree.compute_mcw
         Tree.set_mca Tree.set_lcw Tree.set_mcw Tree.set_ba].
  rewrite Z.eqb_refl, (to_int_to_ulong _ Hp), (to_int_to_ulong _ Hi).
  do 3 eexists. split; [reflexivity|].
  unfold ft_m, in_cm, ac_ha. destruct (units =? 0)%Z; repeat split; field.
Qed.

End Rows.

Lemma extract_constructed_row_witness :
  exists d h e,
    extract 2.54 0.3048 2.47 Samples.imperial_fir = ((-1)%Z, 1%Z, 12%Z, d, h, e, 0.6)
    /\ d == 4 /\ h == 30 /\ e == 40.
Proof.
  apply (@extract_constructed_row libm_q Examples.resolve_q 1%Z
           (mktree_row (-1) 1 12 4 30 40 0.6 1 1) Samples.imperial_fir).
  - vm_compute; reflexivity.
  - cbn; lia.
  - cbn; lia.
Defined.

End DriverFacts.

(** * Facts about the crown competition factor in larger trees *)

Module CcflFacts.
Import Stand.
Import Ccfl.

(** The loop body of [compute_ccfl] is that of [compute_ba_tph_bal] run on
    the crown areas. *)
Lemma ccfl_tree_bal l t m :
  match bal_tree (as_bal_locals l) (as_ba t) with
  | None => ccfl_tree l t m = None
  | Some (bl, t') =>
    exists l' m', ccfl_tree l t m = Some (l', m')
      /\ as_bal_locals l' = bl
      /\ same_but_ccfl m m'
      /\ Growth.ccfl m' = Tree.bal t'
      /\ Growth.ccfl_sw m' = Tree.bal_sw t'
      /\ Growth.ccfl_hw m' = Growth.ccfl m' - Growth.ccfl_sw m'
  end.
Proof.
  destruct l as [a b c d e f]. destruct m as [m1 m2 m3 m4 m5 m6 m7 m8 m9].
  unfold ccfl_tree, bal_tree, as_bal_locals, rank_step, same_but_ccfl.
  cbn [Ccfl._ccfl Ccfl.last_dbh Ccfl.pending Ccfl._ccfl_sw Ccfl.last_sw_dbh Ccfl.pending_sw
       Stand._bal Stand.last_dbh Stand.pending Stand._bal_sw Stand.last_sw_dbh
       Stand.pending_sw].
  change (Tree.dbh (as_ba t)) with (Tree.dbh t).
  change (Tree.ba (as_ba t)) with (Tree.mca t).
  destruct (Tree.dbh t ?= d); [| |reflexivity].
  - change (Tree.is_softwood (Tree.set_bal f (as_ba t))) with (Tree.is_softwood t).
    destruct (Tree.is_softwood t).
    + change (Tree.dbh (Tree.set_bal f (as_ba t))) with (Tree.dbh t).
      change (Tree.ba (Tree.set_bal f (as_ba t))) with (Tree.mca t).
      cbn [Ccfl._ccfl Ccfl.last_dbh Ccfl.pending Ccfl._ccfl_sw Ccfl.last_sw_dbh
           Ccfl.pending_sw Stand._bal Stand.last_dbh Stand.pending Stand._bal_sw
           Stand.last_sw_dbh Stand.pending_sw].
      destruct (Tree.dbh t ?= c); [| |reflexivity];
        eexists; eexists; repeat split; reflexivity.
    + eexists; eexists; repeat split; reflexivity.
  - change (Tree.is_softwood (Tree.set_bal b (as_ba t))) with (Tree.is_softwood t).
    destruct (Tree.is_softwood t).
    + change (Tree.dbh (Tree.set_bal b (as_ba t))) with (Tree.dbh t).
      change (Tree.ba (Tree.set_bal b (as_ba t))) with (Tree.mca t).
      cbn [Ccfl._ccfl Ccfl.last_dbh Ccfl.pending Ccfl._ccfl_sw Ccfl.last_sw_dbh
           Ccfl.pending_sw Stand._bal Stand.last_dbh Stand.pending Stand._bal_sw
           Stand.last_sw_dbh Stand.pending_sw].
      destruct (Tree.dbh t ?= c); [| |reflexivity];
        eexists; eexists; repeat split; reflexivity.
    + eexists; eexists; repeat split; reflexivity.
Qed.

(** The loop of [compute_ccfl] over the sorted positions runs the ladder
    over the ranked trees and stores each result at its position. *)
Lemma ccfl_loop_list (v : list Tree.TREE) (idx : list nat) : forall l ms,
  NoDup idx -> Forall (fun i => (i < length v)%nat) idx -> length ms = length v ->
  match Aux.bal_list (as_bal_locals l) (map as_ba (omap (fun i => v !! i) idx)) with
  | None => ccfl_loop idx l v ms = None
  | Some out =>
    exists ms', ccfl_loop idx l v ms = Some ms'
      /\ length ms' = length ms
      /\ (forall p i, idx !! p = Some i ->
            exists m m' t', ms !! i = Some m /\ ms' !! i = Some m' /\ out !! p = Some t'
              /\ same_but_ccfl m m'
              /\ Growth.ccfl m' = Tree.bal t'
              /\ Growth.ccfl_sw m' = Tree.bal_sw t'
              /\ Growth.ccfl_hw m' = Growth.ccfl m' - Growth.ccfl_sw m')
      /\ (forall k, k ∉ idx -> ms' !! k = ms !! k)
  end.
Proof.
  induction idx as [|i rest IH]; intros l ms Hnd Hlt Hlen.
  - cbn. exists ms. repeat split. intros p i Hp. discriminate.
  - apply NoDup_cons in Hnd as [Hi Hnd]. apply Forall_cons in Hlt as [Hilt Hlt].
    destruct (lookup_lt_is_Some_2 _ _ Hilt) as [t Ht].
    assert (i < length ms)%nat as Him by (rewrite Hlen; exact Hilt).
    destruct (lookup_lt_is_Some_2 _ _ Him) as [m Hm].
    cbn [omap list_omap ccfl_loop]. rewrite Ht, Hm. cbn [map Aux.bal_list].
    pose proof (ccfl_tree_bal l t m) as Hstep.
    destruct (bal_tree (as_bal_locals l) (as_ba t)) as [[bl t1]|]; [|rewrite Hstep; reflexivity].
    destruct Hstep as (l1 & m1 & -> & <- & Hsame & Hc & Hcs & Hch).
    specialize (IH l1 (<[i := m1]> ms) Hnd Hlt). rewrite length_insert in IH.
    specialize (IH Hlen).
    destruct (Aux.bal_list (as_bal_locals l1) (map as_ba (omap (fun i => v !! i) rest)))
      as [out1|]; [|exact IH].
    destruct IH as (ms' & Hrun & Hlen' & Hpos & Hout).
    exists ms'. split; [exact Hrun|]. split; [exact Hlen'|]. split.
    + intros [|p] k Hk; cbn in Hk.
      * inversion Hk; subst. exists m, m1, t1.
        split; [exact Hm|]. split; [|repeat split; assumption].
        rewrite (Hout k Hi). apply list_lookup_insert_eq. exact Him.
      * destruct (Hpos p k Hk) as (m0 & m' & t' & H0 & H1 & H2 & H3).
        exists m0, m', t'. split; [|split; [exact H1 | split; [exact H2 | exact H3]]].
        rewrite list_lookup_insert_ne in H0; [exact H0|].
        intros ->. apply Hi. apply list_elem_of_lookup. exists p. exact Hk.
    + intros k Hk. apply not_elem_of_cons in Hk as [Hki Hk].
      rewrite (Hout k Hk). apply list_lookup_insert_ne. congruence.
Qed.

Lemma ba_larger_as_ba sw d l : Spec.ba_larger sw d (map as_ba l) = mca_larger sw d l.
Proof.
  unfold Spec.ba_larger, mca_larger. rewrite map_map. reflexivity.
Qed.

(** In a ranked list, the trees strictly larger than the tree at position
    [p] all come before it. *)
Lemma mca_larger_ranked sw v p t :
  Spec.ranked v true !! p = Some t ->
  mca_larger sw (Tree.dbh t) (take p (Spec.ranked v true)) == mca_larger sw (Tree.dbh t) v.
Proof.
  intros Hp. rewrite <- !ba_larger_as_ba.
  rewrite <- (StandFacts.ba_larger_perm sw (Tree.dbh t) _ _
                (Permutation_map as_ba (StandFacts.ranked_perm v true))).
  assert (map as_ba (Spec.ranked v true)
          = map as_ba (take p (Spec.ranked v true)) ++ map as_ba (drop p (Spec.ranked v true)))
    as -> by (rewrite <- map_app, take_drop; reflexivity).
  rewrite StandFacts.ba_larger_app.
  rewrite (StandFacts.ba_larger_none sw (Tree.dbh t) (map as_ba (drop p (Spec.ranked v true))));
    [lra|].
  apply Forall_map. rewrite (drop_S _ _ _ Hp). constructor; [cbn; lra|].
  pose proof (StandFacts.StronglySorted_drop _ _ (StandFacts.ranked_sorted v true) p t Hp)
    as Hd.
  eapply List.Forall_impl; [|exact Hd]. intros x Hx. exact Hx.
Qed.

Lemma as_ba_sorted (ts : list Tree.TREE) :
  StronglySorted (fun x y => sort_key true y <= sort_key true x) ts ->
  StronglySorted (fun x y => Tree.dbh y <= Tree.dbh x) (map as_ba ts).
Proof.
  induction 1 as [|x ts Hs IH Hx]; cbn [map]; constructor.
  - exact IH.
  - apply Forall_map. eapply List.Forall_impl; [|exact Hx]. intros y Hy. exact Hy.
Qed.

(** A list in decreasing order of diameter with a diameter above the
    sentinel makes the ladder throw at its first tree. *)
Lemma bal_list_sentinel (ts : list Tree.TREE) :
  StronglySorted (fun x y => Tree.dbh y <= Tree.dbh x) ts ->
  Exists (fun t => 9999 < Tree.dbh t) ts ->
  Aux.bal_list bal_locals_init ts = None.
Proof.
  intros Hsorted Hex. destruct ts as [|h r]; [inversion Hex|].
  assert (9999 < Tree.dbh h) as Hh.
  { apply StronglySorted_inv in Hsorted as [_ Hhead].
    apply Exists_cons in Hex as [Hx | Hx]; [exact Hx|].
    apply Exists_exists in Hx as (x & Hx & Hgt).
    rewrite Forall_forall in Hhead. specialize (Hhead x Hx). cbn in Hhead. lra. }
  cbn [Aux.bal_list]. unfold bal_tree, rank_step.
  cbn [Stand._bal Stand.last_dbh Stand.pending bal_locals_init].
  assert ((Tree.dbh h ?= 9999) = Gt) as -> by (apply Qgt_alt; exact Hh).
  reflexivity.
Qed.

(** How [compute_ccfl] relates to the ladder over the ranked trees. *)
Lemma compute_ccfl_ranked (ms : list Growth.MEMBERS) (s : STAND) :
  length ms = length (trees s) ->
  match Aux.bal_list bal_locals_init (map as_ba (Spec.ranked (trees s) true)) with
  | None => compute_ccfl ms s = None
  | Some out =>
    exists ms', compute_ccfl ms s = Some ms'
      /\ length ms' = length ms
      /\ (forall p i, sort_indices (trees s) true !! p = Some i ->
            exists m m' t', ms !! i = Some m /\ ms' !! i = Some m' /\ out !! p = Some t'
              /\ same_but_ccfl m m'
              /\ Growth.ccfl m' = Tree.bal t'
              /\ Growth.ccfl_sw m' = Tree.bal_sw t'
              /\ Growth.ccfl_hw m' = Growth.ccfl m' - Growth.ccfl_sw m')
  end.
Proof.
  intros Hlen. unfold compute_ccfl, Spec.ranked.
  pose proof (ccfl_loop_list (trees s) (sort_indices (trees s) true) ccfl_locals_init ms
                (StandFacts.sort_indices_NoDup _ _)) as Hloop.
  assert (Forall (fun i => (i < length (trees s))%nat) (sort_indices (trees s) true)) as Hlt.
  { apply Forall_forall. intros j Hj. apply StandFacts.sort_indices_lt in Hj. exact Hj. }
  specialize (Hloop Hlt Hlen).
  change (as_bal_locals ccfl_locals_init) with bal_locals_init in Hloop.
  destruct (Aux.bal_list bal_locals_init
              (map as_ba (omap (fun i => trees s !! i) (sort_indices (trees s) true))))
    as [out|]; [|exact Hloop].
  destruct Hloop as (ms' & Hrun & Hlen' & Hpos & _). exists ms'.
  split; [exact Hrun|]. split; [exact Hlen'|]. exact Hpos.
Qed.

(** The list of [compute_ccfl] has no diameter above the sentinel exactly
    when the function returns. *)
Lemma compute_ccfl_none (ms : list Growth.MEMBERS) (s : STAND) :
  length ms = length (trees s) ->
  compute_ccfl ms s = None <-> Exists (fun t => 9999 < Tree.dbh t) (trees s).
Proof.
  intros Hlen.
  pose proof (compute_ccfl_ranked ms s Hlen) as Hc.
  pose proof (StandFacts.ranked_perm (trees s) true) as Hperm.
  pose proof (as_ba_sorted _ (StandFacts.ranked_sorted (trees s) true)) as Hsorted.
  split.
  - intros Hnone. destruct (TotalsFacts.sentinel_cases (trees s)) as [Hall|Hex]; [|exact Hex].
    exfalso. rewrite <- Hperm in Hall.
    destruct (StandFacts.bal_list_total (map as_ba (Spec.ranked (trees s) true)) []
                bal_locals_init StandFacts.bal_inv_init Hsorted) as [out Hout].
    + apply Forall_map. exact Hall.
    + apply Forall_map. eapply List.Forall_impl; [|exact Hall]. intros t Ht _. exact Ht.
    + rewrite Hout in Hc. destruct Hc as (ms' & Hs' & _). congruence.
  - intros Hex. rewrite <- Hperm in Hex.
    rewrite (bal_list_sentinel _ Hsorted) in Hc; [exact Hc|].
    apply Exists_exists in Hex as (x & Hx & Hgt). apply Exists_exists.
    exists (as_ba x). split; [|exact Hgt].
    apply list_elem_of_In, in_map, list_elem_of_In. exact Hx.
Qed.

Section Ccfl.
Context `{Libm}.

(** [compute_ba_tph_bal] returns only lists without a diameter above the
    sentinel. *)
Lemma compute_ba_tph_bal_below_sentinel (s0 s : STAND) :
  compute_ba_tph_bal s0 = Some s -> Forall (fun t => Tree.dbh t <= 9999) (trees s).
Proof.
  intros Hrun.
  pose proof (StandFacts.compute_ba_tph_bal_ranked s0) as Hc.
  pose proof (StandFacts.ranked_perm (trees s0) true) as Hperm.
  pose proof (StandFacts.ranked_sorted (trees s0) true) as Hsorted.
  destruct (Aux.bal_list bal_locals_init (Spec.ranked (trees s0) true)) as [out|] eqn:Hout;
    [|congruence].
  destruct Hc as (s' & Hs' & Hlen & Hpos).
  assert (s' = s) by congruence. subst s'. clear Hs'.
  assert (Forall (fun t => Tree.dbh t <= 9999) (trees s0)) as Hall.
  { destruct (TotalsFacts.sentinel_cases (trees s0)) as [Hall|Hex]; [exact Hall|].
    exfalso. rewrite <- Hperm in Hex.
    rewrite (bal_list_sentinel _ Hsorted Hex) in Hout. discriminate. }
  destruct (StandFacts.bal_list_spec _ [] _ _ StandFacts.bal_inv_init Hout) as (HF & _).
  apply Forall_lookup. intros k t' Hk.
  assert (k < length (trees s0))%nat as Hklt
    by (rewrite <- Hlen; apply lookup_lt_Some in Hk; exact Hk).
  destruct (StandFacts.sort_indices_position (trees s0) true k Hklt) as [p Hp].
  pose proof (Hpos p k Hp) as Hout_p. rewrite Hk in Hout_p. symmetry in Hout_p.
  pose proof (StandFacts.ranked_lookup _ _ _ _ Hp) as Hr.
  destruct (lookup_lt_is_Some_2 _ _ Hklt) as [t Ht]. rewrite Ht in Hr.
  pose proof (Forall2_lookup_lr _ _ _ _ _ _ HF Hr Hout_p) as Hsame.
  destruct (StandFacts.same_but_bal_fields t t' Hsame) as (-> & _).
  rewrite Forall_lookup in Hall. apply (Hall k t Ht).
Qed.

(** X12.  [compute_ccfl], on members that go with the trees position by
    position: it throws exactly when some diameter exceeds the sentinel
    9999, hence never on a list that [compute_ba_tph_bal] has returned, as in
    [initialize] and [grow].  When it returns, it has changed nothing but
    [ccfl], [ccfl_sw] and [ccfl_hw]; every tree holds in [ccfl] the sum of
    the crown areas [mca] of the trees of strictly greater diameter, every
    softwood holds in [ccfl_sw] that sum over the softwoods, and [ccfl_hw]
    is the difference of the two. *)
Theorem compute_ccfl_larger (ms : list Growth.MEMBERS) (s : STAND) :
  length ms = length (trees s) ->
  (compute_ccfl ms s = None <-> Exists (fun t => 9999 < Tree.dbh t) (trees s))
  /\ (forall s0, compute_ba_tph_bal s0 = Some s -> exists ms', compute_ccfl ms s = Some ms')
  /\ forall ms', compute_ccfl ms s = Some ms' ->
       length ms' = length ms
       /\ forall k t m m',
            trees s !! k = Some t -> ms !! k = Some m -> ms' !! k = Some m' ->
            same_but_ccfl m m'
            /\ Growth.ccfl m' == mca_larger false (Tree.dbh t) (trees s)
            /\ (Tree.is_softwood t = true ->
                Growth.ccfl_sw m' == mca_larger true (Tree.dbh t) (trees s))
            /\ Growth.ccfl_hw m' == Growth.ccfl m' - Growth.ccfl_sw m'.
Proof.
  intros Hlen.
  pose proof (compute_ccfl_none ms s Hlen) as Hnone.
  split; [exact Hnone|]. split.
  - intros s0 Hs0. destruct (compute_ccfl ms s) as [ms'|] eqn:E; [eauto|].
    exfalso. destruct Hnone as [Hex _]. specialize (Hex eq_refl).
    pose proof (compute_ba_tph_bal_below_sentinel s0 s Hs0) as Hall.
    apply Exists_exists in Hex as (x & Hx & Hgt).
    rewrite Forall_forall in Hall. specialize (Hall x Hx). lra.
  - intros ms' Hrun.
    pose proof (compute_ccfl_ranked ms s Hlen) as Hc.
    destruct (Aux.bal_list bal_locals_init (map as_ba (Spec.ranked (trees s) true)))
      as [out|] eqn:Hout; [|congruence].
    destruct Hc as (ms'' & Hs'' & Hlen' & Hpos).
    assert (ms'' = ms') by congruence. subst ms''. clear Hs''.
    split; [exact Hlen'|].
    intros k t m m' Ht Hm Hm'.
    assert (k < length (trees s))%nat as Hklt by (apply lookup_lt_Some in Ht; exact Ht).
    destruct (StandFacts.sort_indices_position (trees s) true k Hklt) as [p Hp].
    destruct (Hpos p k Hp) as (m0 & m1 & t' & H0 & H1 & H2 & Hsame & Hc & Hcs & Hch).
    assert (m0 = m) by congruence. assert (m1 = m') by congruence. subst m0 m1.
    pose proof (StandFacts.ranked_lookup _ _ _ _ Hp) as Hr. rewrite Ht in Hr.
    assert (map as_ba (Spec.ranked (trees s) true) !! p = Some (as_ba t)) as Hr'.
    { change (map as_ba (Spec.ranked (trees s) true))
        with (as_ba <$> Spec.ranked (trees s) true).
      rewrite list_lookup_fmap, Hr. reflexivity. }
    destruct (StandFacts.bal_list_spec _ [] _ _ StandFacts.bal_inv_init Hout) as (_ & Hall).
    destruct (Hall p (as_ba t) t' Hr' H2) as (Hb & Hbs). cbn [app] in Hb, Hbs.
    change (Tree.dbh (as_ba t)) with (Tree.dbh t) in Hb, Hbs.
    change (Tree.is_softwood (as_ba t)) with (Tree.is_softwood t) in Hbs.
    assert (take p (map as_ba (Spec.ranked (trees s) true))
            = map as_ba (take p (Spec.ranked (trees s) true))) as Etake.
    { change (map as_ba) with (fmap (M := list) as_ba). symmetry. apply fmap_take. }
    rewrite Etake, ba_larger_as_ba in Hb, Hbs.
    split; [exact Hsame|].
    split; [rewrite Hc, Hb; apply mca_larger_ranked; exact Hr|].
    split; [intros Hsw; rewrite Hcs, (Hbs Hsw); apply mca_larger_ranked; exact Hr|].
    rewrite Hch. reflexivity.
Qed.

End Ccfl.

Lemma compute_ccfl_larger_witness :
  exists ms',
    compute_ccfl (map Samples.members_q Examples.tied) (Examples.measured Examples.tied)
    = Some ms'
    /\ length ms' = length Examples.tied.
Proof.
  destruct (@compute_ccfl_larger libm_q (map Samples.members_q Examples.tied)
              (Examples.measured Examples.tied) ltac:(reflexivity)) as (_ & Hret & Hval).
  destruct (Hret (Examples.stand_q false 0 Examples.tied)) as [ms' Hms'].
  - vm_compute; reflexivity.
  - exists ms'. split; [exact Hms'|].
    destruct (Hval ms' Hms') as (-> & _). reflexivity.
Defined.

End CcflFacts.
